(** * RsaCtfTool: Håstad broadcast attack, Boneh–Durfee driver and the
    collaborating attacks, embedded in Rocq.

    The Python sources are embedded shallowly:
    - Python [int] is [Z]; [//] and [%] are [Z.div] and [Z.modulo] (both
      floor-based, sign of the divisor), guarded by an explicit
      [ZeroDivisionError];
    - a computation that may raise is a value of [outcome]; [while] loops
      carry a fuel argument and [OutOfFuel] stands for a loop that has not
      finished within the fuel (for a loop that never exits, for every fuel);
    - attribute writes to the caller's [PublicKey] are threaded explicitly. *)

From Stdlib Require Import ZArith Znumtheory Lia String Ascii Strings.Byte.
From Stdlib Require Import Floats.SpecFloat.
From stdpp Require Import base list gmap strings.

Local Open Scope Z_scope.

(** ** Python-level prelude *)

Module Py.

(** The exceptions the embedded code can raise or catch. *)
Inductive exn : Set :=
| ZeroDivisionError
| ValueError
| TypeError
| IndexError
| UnboundLocalError
| OverflowError
| FactorizationError
| CalledProcessError
| TimeoutExpired
| OtherError.

Inductive outcome (A : Type) : Type :=
| Ret (a : A)
| Raise (e : exn)
| OutOfFuel.

Arguments Ret {A} a.
Arguments Raise {A} e.
Arguments OutOfFuel {A}.

Definition bind {A B : Type} (m : outcome A) (k : A -> outcome B) : outcome B :=
  match m with
  | Ret a => k a
  | Raise e => Raise e
  | OutOfFuel => OutOfFuel
  end.

#[global] Instance outcome_ret : MRet outcome := fun A a => Ret a.
#[global] Instance outcome_bind : MBind outcome := fun A B k m => bind m k.

(** [a // b] *)
Definition floordiv (a b : Z) : outcome Z :=
  if b =? 0 then Raise ZeroDivisionError else Ret (a / b).

(** [a % b] *)
Definition pymod (a b : Z) : outcome Z :=
  if b =? 0 then Raise ZeroDivisionError else Ret (a mod b).

(** [range(lo, hi)] *)
Definition range (lo hi : Z) : list Z := seqZ lo (hi - lo).

(** [range(hi, -1, -1)] : hi, hi-1, ..., 0 *)
Definition range_down (hi : Z) : list Z := reverse (seqZ 0 (hi + 1)).

(** [l[i]] on a Python list: negative indices count from the end. *)
Definition index {A : Type} (l : list A) (i : Z) : outcome A :=
  let len := Z.of_nat (length l) in
  let j := if i <? 0 then i + len else i in
  if (0 <=? j) && (j <? len)
  then match l !! Z.to_nat j with Some x => Ret x | None => Raise IndexError end
  else Raise IndexError.

(** [l.pop(i)]: the list after the removal (the popped value is unused by
    every caller in this development). *)
Definition pop {A : Type} (l : list A) (i : Z) : outcome (list A) :=
  let len := Z.of_nat (length l) in
  let j := if i <? 0 then i + len else i in
  if (0 <=? j) && (j <? len)
  then Ret (delete (Z.to_nat j) l)
  else Raise IndexError.

(** [bytes] values *)
Definition bytes := list byte.

Definition Z_of_byte (b : byte) : Z := Z.of_N (Byte.to_N b).

Definition byte_of_Z (v : Z) : byte :=
  match Byte.of_N (Z.to_N v) with
  | Some b => b
  | None => x00
  end.

(** [int.from_bytes(b, byteorder="big")] *)
Definition int_from_bytes_big (b : bytes) : Z :=
  fold_left (fun acc x => acc * 256 + Z_of_byte x) b 0.

(** One lowercase hexadecimal digit. *)
Definition hex_digit (d : Z) : ascii :=
  if d <? 10 then ascii_of_N (Z.to_N (48 + d)) else ascii_of_N (Z.to_N (87 + d)).

Fixpoint hex_digits (fuel : nat) (v : Z) (acc : string) : string :=
  match fuel with
  | O => String (hex_digit (v mod 16)) acc
  | S k =>
      if v <? 16 then String (hex_digit v) acc
      else hex_digits k (v / 16) (String (hex_digit (v mod 16)) acc)
  end.

(** The digits of [hex(v)] for [0 <= v], most significant first. *)
Definition hex_of_nonneg (v : Z) : string :=
  hex_digits (Z.to_nat (Z.log2 v)) v EmptyString.

(** [hex(v)] *)
Definition hex (v : Z) : string :=
  if v <? 0 then String "-" (String "0" (String "x" (hex_of_nonneg (- v))))
  else String "0" (String "x" (hex_of_nonneg v)).

(** [s[2:]] *)
Definition drop2 (s : string) : string :=
  match s with
  | String _ (String _ r) => r
  | _ => EmptyString
  end.

Definition hex_value (c : ascii) : option Z :=
  let n := Z.of_N (N_of_ascii c) in
  if (48 <=? n) && (n <=? 57) then Some (n - 48)
  else if (97 <=? n) && (n <=? 102) then Some (n - 87)
  else if (65 <=? n) && (n <=? 70) then Some (n - 55)
  else None.

(** ASCII whitespace, skipped by [bytes.fromhex] between bytes. *)
Definition is_space (c : ascii) : bool :=
  let n := Z.of_N (N_of_ascii c) in
  (n =? 32) || ((9 <=? n) && (n <=? 13)).

(** [bytes.fromhex(s)]: two hexadecimal digits per byte, [ValueError]
    on anything else (an odd number of digits included). *)
Fixpoint fromhex (s : string) : outcome bytes :=
  match s with
  | EmptyString => Ret []
  | String c s' =>
      if is_space c then fromhex s'
      else
        match s' with
        | EmptyString => Raise ValueError
        | String d s'' =>
            match hex_value c, hex_value d with
            | Some h, Some l =>
                rest ← fromhex s'';
                Ret (byte_of_Z (16 * h + l) :: rest)
            | _, _ => Raise ValueError
            end
        end
  end.

End Py.

Import Py.

(** ** Key material shared by the attacks *)

(** [lib.keys_wrapper.PublicKey] as the attacks use it: [n], [e] and the
    factors [p], [q] an attack may attach. *)
Record PublicKey : Set := mkPublicKey {
  pk_n : Z;
  pk_e : Z;
  pk_p : option Z;
  pk_q : option Z
}.

Definition set_p (k : PublicKey) (v : Z) : PublicKey :=
  mkPublicKey (pk_n k) (pk_e k) (Some v) (pk_q k).

Definition set_q (k : PublicKey) (v : Z) : PublicKey :=
  mkPublicKey (pk_n k) (pk_e k) (pk_p k) (Some v).

(** Code that may write to the caller's [PublicKey]: the key is threaded
    through every step and keeps the writes made before an exception. *)
Definition keyed (A : Type) : Type := PublicKey -> PublicKey * outcome A.

Definition kret {A : Type} (a : A) : keyed A := fun k => (k, Ret a).

Definition kbind {A B : Type} (m : keyed A) (f : A -> keyed B) : keyed B :=
  fun k =>
    match m k with
    | (k', Ret a) => f a k'
    | (k', Raise e) => (k', Raise e)
    | (k', OutOfFuel) => (k', OutOfFuel)
    end.

#[global] Instance keyed_ret : MRet keyed := @kret.
#[global] Instance keyed_bind : MBind keyed := fun A B f m => kbind m f.

Definition lift {A : Type} (o : outcome A) : keyed A := fun k => (k, o).

(** Reading [publickey] *)
Definition get_key : keyed PublicKey := fun k => (k, Ret k).

(** [publickey.p = v] and [publickey.q = v] *)
Definition write_p (v : Z) : keyed unit := fun k => (set_p k v, Ret tt).
Definition write_q (v : Z) : keyed unit := fun k => (set_q k v, Ret tt).

(** [try: body  except <handled>: handler] *)
Definition try_except {A : Type} (body : keyed A) (handled : exn -> bool)
    (handler : keyed A) : keyed A :=
  fun k =>
    match body k with
    | (k', Raise e) => if handled e then handler k' else (k', Raise e)
    | r => r
    end.

(** [lib.keys_wrapper.PrivateKey] is not part of the sources at hand; the
    attacks only call its constructor, with [(p, q, e, n)] or with
    [(e, n, d)]. *)
Class KeysWrapper : Type := {
  PrivateKey : Type;
  PrivateKey_pqen : Z -> Z -> Z -> Z -> outcome PrivateKey;
  PrivateKey_end : Z -> Z -> Z -> outcome PrivateKey
}.

(** What an attack returns: [(private key, plaintext)]. *)
Definition attack_result `{KeysWrapper} : Type := option PrivateKey * option bytes.

(** ** attacks/multi_keys/hastads.py *)

Module Hastads.

(** The [while a > 1] loop of [mul_inv]; returns [x1] at exit. *)
Fixpoint mul_inv_loop (fuel : nat) (a b x0 x1 : Z) : outcome Z :=
  if 1 <? a then
    match fuel with
    | O => OutOfFuel
    | S k =>
        q ← floordiv a b;
        r ← pymod a b;
        mul_inv_loop k b r (x1 - q * x0) x0
    end
  else Ret x1.

Definition mul_inv (a b : Z) : outcome Z :=
  let b0 := b in
  if b =? 1 then Ret 1
  else
    x1 ← mul_inv_loop (S (S (Z.to_nat b))) a b 0 1;
    Ret (if x1 <? 0 then x1 + b0 else x1).

(** [reduce(lambda a, b: a * b, n)] *)
Definition reduce_mul (n : list Z) : outcome Z :=
  match n with
  | [] => Raise TypeError
  | h :: t => Ret (fold_left Z.mul t h)
  end.

(** The [for n_i, a_i in zip(n, a)] loop of [chinese_remainder]. *)
Fixpoint crt_loop (prod : Z) (na : list (Z * Z)) (sum : Z) : outcome Z :=
  match na with
  | [] => Ret sum
  | (n_i, a_i) :: rest =>
      p ← floordiv prod n_i;
      inv ← mul_inv p n_i;
      crt_loop prod rest (sum + a_i * inv * p)
  end.

Definition chinese_remainder (n a : list Z) : outcome Z :=
  prod ← reduce_mul n;
  sum ← crt_loop prod (zip n a) 0;
  pymod sum prod.

(** [while high ** n < x: high *= 2] *)
Fixpoint find_high (fuel : nat) (x n high : Z) : outcome Z :=
  if high ^ n <? x then
    match fuel with
    | O => OutOfFuel
    | S k => find_high k x n (high * 2)
    end
  else Ret high.

(** The bisection loop of [find_invpow].  [mid] is unbound until the
    first iteration; the statement after the loop reads it. *)
Fixpoint bisect (fuel : nat) (x n low high : Z) (mid : option Z) : outcome Z :=
  if low <? high then
    match fuel with
    | O => OutOfFuel
    | S k =>
        let mid := (low + high) / 2 in
        if (low <? mid) && (mid ^ n <? x) then bisect k x n mid high (Some mid)
        else if (mid <? high) && (x <? mid ^ n) then bisect k x n low mid (Some mid)
        else Ret mid
    end
  else
    match mid with
    | Some m => Ret (m + 1)
    | None => Raise UnboundLocalError
    end.

(** [find_invpow(x, n)] for an exponent [0 <= n] (for a negative exponent
    Python's [**] leaves the integers; no key reaches that). *)
Definition find_invpow (x n : Z) : outcome Z :=
  high ← find_high (S (S (Z.to_nat (Z.log2 x)))) x n 1;
  let low := high / 2 in
  bisect (S (Z.to_nat (Z.log2_up high))) x n low high None.

(** The [publickeys] argument: a list of keys, or some other object
    (a single key, when the caller runs the attack on one key). *)
Inductive keys_arg : Set :=
| KeyList (l : list PublicKey)
| NotAList (k : PublicKey).

Section Attack.

(** [lib.keys_wrapper.PrivateKey]: imported by this module, never built. *)
Context {PrivateKey : Type}.

Definition result : Type := option PrivateKey * option bytes.

Definition attack (publickeys : keys_arg) (cipher : list bytes) : outcome result :=
  match publickeys with
  | NotAList _ => Ret (None, None)
  | KeyList publickeys =>
      let c := map int_from_bytes_big cipher in
      let usable := filter (fun k => pk_e k < 11) publickeys in
      let n := map pk_n usable in
      let e := map pk_e usable in
      let e : gset Z := list_to_set e in
      if bool_decide (size e ≠ 1%nat) then Ret (None, None)
      else
        match elements e with
        | [] => Raise OtherError
        | e :: _ =>
            result ← chinese_remainder n c;
            root ← find_invpow result e;
            unciphered ← fromhex (drop2 (hex root));
            Ret (None, Some unciphered)
        end
  end.

End Attack.

End Hastads.

(** ** Python floats (IEEE 754 binary64), after [SpecFloat] *)

Module PyFloat.

Definition prec : Z := 53.
Definition emax : Z := 1024.

Definition float := spec_float.

(** A finite result is returned; an overflowing one raises
    [OverflowError], as CPython does for [int -> float] conversions and for
    [int / int]. *)
Definition checked (f : float) : outcome float :=
  match f with
  | S754_infinity _ => Raise OverflowError
  | S754_nan => Raise ValueError
  | _ => Ret f
  end.

(** [float(a)] for an [int]: the nearest double, ties to even. *)
Definition of_int (a : Z) : outcome float :=
  checked (binary_normalize prec emax a 0 false).

(** [a / 2] for an [int] [a]: the double nearest to the exact quotient. *)
Definition truediv_2 (a : Z) : outcome float :=
  checked (binary_normalize prec emax a (-1) false).

(** Numerator of the exact value of a finite float, the denominator
    being a power of two. *)
Definition signed (s : bool) (m : positive) : Z :=
  if s then Z.neg m else Z.pos m.

(** [math.floor(f)] *)
Definition floor (f : float) : outcome Z :=
  match f with
  | S754_zero _ => Ret 0
  | S754_infinity _ => Raise OverflowError
  | S754_nan => Raise ValueError
  | S754_finite s m e =>
      if 0 <=? e then Ret (signed s m * 2 ^ e)
      else Ret (signed s m / 2 ^ (- e))
  end.

(** [int(f)]: truncation towards zero. *)
Definition to_int (f : float) : outcome Z :=
  match f with
  | S754_zero _ => Ret 0
  | S754_infinity _ => Raise OverflowError
  | S754_nan => Raise ValueError
  | S754_finite s m e =>
      if 0 <=? e then Ret (signed s m * 2 ^ e)
      else Ret (signed s m ÷ 2 ^ (- e))
  end.

(** The literals of [factor]. *)
Definition lit_1 : float := S754_finite false 4503599627370496 (-52).
Definition lit_2 : float := S754_finite false 4503599627370496 (-51).
Definition lit_4 : float := S754_finite false 4503599627370496 (-50).
(** [.26] *)
Definition lit_026 : float := S754_finite false 4683743612465316 (-54).
(** [1 / 2] *)
Definition lit_half : float := S754_finite false 4503599627370496 (-53).

(** The C library's [pow], which CPython calls for [float ** float]; its
    rounding is platform dependent, so it stays a parameter.  Whatever it
    returns is a double. *)
Class Libm : Type := {
  pow : float -> float -> outcome float;
  pow_is_double : forall x y r, pow x y = Ret r -> valid_binary prec emax r = true
}.

(** [a ** y] for an [int] [a] and a [float] [y]: [a] is converted first. *)
Definition int_pow `{Libm} (a : Z) (y : float) : outcome float :=
  x ← of_int a;
  pow x y.

End PyFloat.

(** ** attacks/single_key/boneh_durfee.py *)

Module BonehDurfee.

(** *** Sage matrices over [ZZ], as lists of rows *)

Definition matrix : Type := list (list Z).

(** [BB.dimensions()[0]] and [BB.dimensions()[1]] *)
Definition nrows (BB : matrix) : Z := Z.of_nat (length BB).

Definition ncols (BB : matrix) : Z :=
  match BB with
  | [] => 0
  | r :: _ => Z.of_nat (length r)
  end.

Definition is_square (BB : matrix) : bool :=
  forallb (fun r => Z.of_nat (length r) =? nrows BB) BB.

(** [BB[i, j]] *)
Definition entry (BB : matrix) (i j : Z) : outcome Z :=
  row ← index BB i;
  index row j.

(** The elements of [l] whose position, counted from [i], is not in [d]. *)
Fixpoint drop_from {A : Type} (d : list Z) (i : Z) (l : list A) : list A :=
  match l with
  | [] => []
  | x :: t =>
      if bool_decide (i ∈ d) then drop_from d (i + 1) t
      else x :: drop_from d (i + 1) t
  end.

Definition in_range (n : Z) (d : list Z) : bool :=
  forallb (fun c => (0 <=? c) && (c <? n)) d.

(** [BB.delete_columns(dcols)]: Sage keeps the columns not listed and
    raises [IndexError] for a listed column that does not exist. *)
Definition delete_columns (BB : matrix) (dcols : list Z) : outcome matrix :=
  if in_range (ncols BB) dcols then Ret (map (drop_from dcols 0) BB)
  else Raise IndexError.

(** [BB.delete_rows(drows)] *)
Definition delete_rows (BB : matrix) (drows : list Z) : outcome matrix :=
  if in_range (nrows BB) drows then Ret (drop_from drows 0 BB)
  else Raise IndexError.

(** Determinant by expansion along the first row. *)
Fixpoint det_rec (n : nat) (BB : matrix) : Z :=
  match n, BB with
  | S k, row :: rest =>
      foldr Z.add 0
        (imap (fun j a =>
                 (if Nat.even j then a else - a)
                 * det_rec k (map (delete j) rest)) row)
  | _, _ => 1
  end.

(** [BB.det()] *)
Definition det (BB : matrix) : outcome Z :=
  if is_square BB then Ret (det_rec (length BB) BB) else Raise ValueError.

(** *** Configuration globals of the module *)

Record config : Set := mkConfig {
  debug : bool;
  strict : bool;
  helpful_only : bool;
  dimension_min : Z
}.

Definition default_config : config :=
  {| debug := false; strict := false; helpful_only := true; dimension_min := 7 |}.

(** *** Diagnostics (their printing is commented out in the source) *)

(** [helpful_vectors(BB, modulus)] *)
Definition helpful_vectors (BB : matrix) (modulus : Z) : outcome unit :=
  nothelpful ← foldl (fun acc ii =>
                        n ← acc;
                        d ← entry BB ii ii;
                        Ret (if modulus <=? d then n + 1 else n))
                     (Ret 0) (range 0 (nrows BB));
  Ret tt.

(** [matrix_overview(BB, bound)] *)
Definition matrix_overview (BB : matrix) (bound : Z) : outcome unit :=
  foldl (fun acc ii =>
           _ ← acc;
           _ ← mapM (fun jj => entry BB ii jj) (range 0 (ncols BB));
           _ ← entry BB ii ii;
           Ret tt)
        (Ret tt) (range 0 (nrows BB)).

(** *** remove_unhelpful *)

(** [for jj in range(ii + 1, BB.dimensions()[0])]: the number of later
    rows with a non-zero entry in column [ii], and the last such row. *)
Fixpoint affected (BB : matrix) (ii : Z) (jjs : list Z)
    (affected_vectors affected_vector_index : Z) : outcome (Z * Z) :=
  match jjs with
  | [] => Ret (affected_vectors, affected_vector_index)
  | jj :: rest =>
      v ← entry BB jj ii;
      if negb (v =? 0) then affected BB ii rest (affected_vectors + 1) jj
      else affected BB ii rest affected_vectors affected_vector_index
  end.

(** [for kk in range(affected_vector_index + 1, BB.dimensions()[0])] *)
Fixpoint deeper (BB : matrix) (affected_vector_index : Z) (kks : list Z)
    (affected_deeper : bool) : outcome bool :=
  match kks with
  | [] => Ret affected_deeper
  | kk :: rest =>
      v ← entry BB kk affected_vector_index;
      if negb (v =? 0) then deeper BB affected_vector_index rest false
      else deeper BB affected_vector_index rest affected_deeper
  end.

Section RemoveUnhelpful.

Context {monomial : Type}.
Variable cfg : config.

(** The body of [for ii in range(current, -1, -1)], run over the values
    [iis] still to visit; [recurse] stands for the recursive call
    [remove_unhelpful(BB, monomials, bound, ii - 1)]. *)
Fixpoint scan
    (recurse : matrix -> list monomial -> Z -> Z -> outcome (matrix * list monomial))
    (BB : matrix) (monomials : list monomial) (bound : Z) (iis : list Z)
    : outcome (matrix * list monomial) :=
  match iis with
  | [] => Ret (BB, monomials)
  | ii :: iis' =>
      d ← entry BB ii ii;
      if bound <=? d then
        '(affected_vectors, affected_vector_index) ←
          affected BB ii (range (ii + 1) (nrows BB)) 0 0;
        if affected_vectors =? 0 then
          BB1 ← delete_columns BB [ii];
          BB2 ← delete_rows BB1 [ii];
          monomials1 ← pop monomials ii;
          recurse BB2 monomials1 bound (ii - 1)
        else if affected_vectors =? 1 then
          affected_deeper ←
            deeper BB affected_vector_index
              (range (affected_vector_index + 1) (nrows BB)) true;
          closer ←
            (if (affected_deeper : bool) then
               dj ← entry BB affected_vector_index affected_vector_index;
               di ← entry BB ii ii;
               Ret (Z.abs (bound - dj) <? Z.abs (bound - di))
             else Ret false);
          if (closer : bool) then
            BB1 ← delete_columns BB [affected_vector_index; ii];
            BB2 ← delete_rows BB1 [affected_vector_index; ii];
            monomials1 ← pop monomials affected_vector_index;
            monomials2 ← pop monomials1 ii;
            recurse BB2 monomials2 bound (ii - 1)
          else scan recurse BB monomials bound iis'
        else scan recurse BB monomials bound iis'
      else scan recurse BB monomials bound iis'
  end.

(** [remove_unhelpful(BB, monomials, bound, current)].  The source returns
    [BB] and pops from the caller's [monomials] list in place; both are
    returned here.  Every recursive call is made with [ii - 1 < current],
    which bounds the depth. *)
Fixpoint remove_unhelpful_rec (fuel : nat) (BB : matrix) (monomials : list monomial)
    (bound current : Z) : outcome (matrix * list monomial) :=
  match fuel with
  | O => OutOfFuel
  | S fuel' =>
      if (current =? -1) || (nrows BB <=? dimension_min cfg) then Ret (BB, monomials)
      else scan (remove_unhelpful_rec fuel') BB monomials bound (range_down current)
  end.

Definition remove_unhelpful (BB : matrix) (monomials : list monomial)
    (bound current : Z) : outcome (matrix * list monomial) :=
  remove_unhelpful_rec (S (Z.to_nat (current + 1))) BB monomials bound current.

End RemoveUnhelpful.

(** *** The key polynomial *)

(** Polynomials of [ZZ[x, y]]: coefficient with the exponents of [x], [y]. *)
Definition bipoly : Type := list (Z * (Z * Z)).

(** [1 + x * (A + y)] *)
Definition key_polynomial (A : Z) : bipoly :=
  [(1, (0, 0)); (A, (1, 0)); (1, (1, 1))].

(** [pol(x0, y0)] *)
Definition eval_bipoly (pol : bipoly) (x0 y0 : Z) : Z :=
  foldr (fun '(c, (i, j)) acc => c * x0 ^ i * y0 ^ j + acc) 0 pol.

(** *** What Sage provides *)

(** The polynomial ring [ZZ[u, x, y]], LLL and the root extraction are
    Sage's; [boneh_durfee] is embedded over this interface. *)
Class Sage : Type := {
  poly3 : Type;
  monomial : Type;
  (** lines 149-183: the shift polynomials [gg] and the list [monomials] *)
  shift_polynomials : bipoly -> Z -> Z -> Z -> outcome (list poly3 * list monomial);
  (** [g(0, 0, 0)] *)
  constant_term : poly3 -> Z;
  (** [mon in g.monomials()] *)
  has_monomial : poly3 -> monomial -> bool;
  (** [g.monomial_coefficient(mon)] *)
  monomial_coefficient : poly3 -> monomial -> Z;
  (** [mon(UU, XX, YY)] *)
  monomial_at : monomial -> Z -> Z -> Z -> Z;
  (** [BB.LLL()] *)
  LLL : matrix -> matrix;
  (** lines 229-257: the two leading reduced rows as polynomials, their
      resultant and its roots; yields [(0, 0)] or [(solx, soly)] *)
  roots_of_reduced : matrix -> list monomial -> Z -> Z -> Z -> Z -> outcome (Z * Z)
}.

Section BonehDurfee.

Context `{Sage}.
Variable cfg : config.

(** Row [ii] of the lattice: [BB[ii, 0] = gg[ii](0, 0, 0)], then the
    scaled coefficients for [jj] in [range(1, ii + 1)], zero elsewhere. *)
Definition lattice_row (gg : list poly3) (monomials : list monomial)
    (UU XX YY : Z) (ii : Z) : outcome (list Z) :=
  g ← index gg ii;
  Ret (imap (fun jj mon =>
               if (jj =? 0)%nat then constant_term g
               else if (Z.of_nat jj <=? ii) && has_monomial g mon
                    then monomial_coefficient g mon * monomial_at mon UU XX YY
                    else 0)
            monomials).

(** [BB = Matrix(ZZ, nn)] filled row by row. *)
Definition construct_lattice (gg : list poly3) (monomials : list monomial)
    (UU XX YY : Z) : outcome matrix :=
  mapM (lattice_row gg monomials UU XX YY)
       (range 0 (Z.of_nat (length monomials))).

(** From the determinant check to the end of [boneh_durfee]. *)
Definition reduce_and_solve (modulus mm UU XX YY : Z) (BB : matrix)
    (monomials : list monomial) (nn : Z) : outcome (Z * Z) :=
  _ ← (if debug cfg then helpful_vectors BB (modulus ^ mm) else Ret tt);
  d ← det BB;
  let bound := modulus ^ (mm * nn) in
  (* under [debug] the source also prints the size of [det / bound] here *)
  if (bound <=? d) && strict cfg then Ret (-1, -1)
  else
    _ ← (if debug cfg then matrix_overview BB (modulus ^ mm) else Ret tt);
    let BB := LLL BB in
    roots_of_reduced BB monomials nn UU XX YY.

(** [boneh_durfee(pol, modulus, mm, tt, XX, YY)] for an exponent [0 <= mm]
    (for a negative one Python's [**] in [modulus ** mm] and
    [modulus ** (mm * nn)] leaves the integers; [factor] passes [m = 4]). *)
Definition boneh_durfee (pol : bipoly) (modulus mm tt XX YY : Z) : outcome (Z * Z) :=
  let UU := XX * YY + 1 in
  '(gg, monomials) ← shift_polynomials pol modulus mm tt;
  let nn := Z.of_nat (length monomials) in
  BB ← construct_lattice gg monomials UU XX YY;
  if helpful_only cfg then
    '(BB, monomials) ← remove_unhelpful cfg BB monomials (modulus ^ mm) (nn - 1);
    let nn := nrows BB in
    if nn =? 0 then Ret (0, 0)
    else reduce_and_solve modulus mm UU XX YY BB monomials nn
  else reduce_and_solve modulus mm UU XX YY BB monomials nn.

End BonehDurfee.

(** *** factor and attack *)

(** [Crypto.PublicKey.RSA.construct((n, e, d))]: the factors [p], [q] of
    the key it builds, or an exception for inconsistent components. *)
Class PyCrypto : Type := {
  RSA_construct : Z -> Z -> Z -> outcome (Z * Z)
}.

Section Factor.

Context `{Sage} `{PyFloat.Libm}.
Variable cfg : config.

(** [t = int((1 - 2 * delta) * m)] *)
Definition sublattice_t (delta : PyFloat.float) (m : PyFloat.float) : outcome Z :=
  PyFloat.to_int
    (SFmul PyFloat.prec PyFloat.emax
       (SFsub PyFloat.prec PyFloat.emax PyFloat.lit_1
          (SFmul PyFloat.prec PyFloat.emax PyFloat.lit_2 delta))
       m).

(** [X = 2 * floor(N ** delta)] *)
Definition bound_X (N : Z) (delta : PyFloat.float) : outcome Z :=
  Nd ← PyFloat.int_pow N delta;
  fl ← PyFloat.floor Nd;
  Ret (2 * fl).

(** [Y = floor(N ** (1 / 2))] *)
Definition bound_Y (N : Z) : outcome Z :=
  Nh ← PyFloat.int_pow N PyFloat.lit_half;
  PyFloat.floor Nh.

(** [A = int((N + 1) / 2)] *)
Definition coefficient_A (N : Z) : outcome Z :=
  Aq ← PyFloat.truediv_2 (N + 1);
  PyFloat.to_int Aq.

Definition factor (N e : Z) : outcome (option Z) :=
  let delta := PyFloat.lit_026 in
  let m := 4 in
  t ← sublattice_t delta PyFloat.lit_4;
  X ← bound_X N delta;
  Y ← bound_Y N;
  A ← coefficient_A N;
  let pol := key_polynomial A in
  '(solx, soly) ← boneh_durfee cfg pol e m t X Y;
  if 0 <? solx then
    (* d = int(pol(solx, soly) / e): an exact quotient, truncated *)
    if e =? 0 then Raise ZeroDivisionError
    else Ret (Some (eval_bipoly pol solx soly ÷ e))
  else Ret None.

Context `{KeysWrapper} `{PyCrypto}.

Definition attack : keyed attack_result :=
  publickey ← get_key;
  match factor (pk_n publickey) (pk_e publickey) with
  | Raise OverflowError => mret (None, None)
  | Raise e => lift (Raise e)
  | OutOfFuel => lift OutOfFuel
  | Ret None => mret (None, None)
  | Ret (Some sageresult) =>
      '(p, q) ← lift (RSA_construct (pk_n publickey) (pk_e publickey) sageresult);
      _ ← write_p p;
      _ ← write_q q;
      publickey ← get_key;
      match pk_p publickey, pk_q publickey with
      | Some p, Some q =>
          privatekey ← lift (PrivateKey_pqen p q (pk_e publickey) (pk_n publickey));
          mret (Some privatekey, None)
      | _, _ => lift (Raise TypeError)
      end
  end.

End Factor.

End BonehDurfee.

(** ** attacks/single_key/smallfraction.py *)

Module SmallFraction.

(** [int(subprocess.check_output(["sage", "./sage/smallfraction.sage",
    str(n)], timeout=...))]: the external tool's answer, or
    [CalledProcessError], [TimeoutExpired], [ValueError] for an output that is
    not a number, [OtherError] when the tool cannot be started. *)
Class SageTool : Type := {
  smallfraction_sage : Z -> outcome Z
}.

Section Attack.

Context `{KeysWrapper} `{SageTool}.

Definition attack : keyed attack_result :=
  try_except
    (publickey ← get_key;
     sageresult ← lift (smallfraction_sage (pk_n publickey));
     if 0 <? sageresult then
       _ ← write_p sageresult;
       publickey ← get_key;
       q ← lift (floordiv (pk_n publickey) sageresult);
       _ ← write_q q;
       publickey ← get_key;
       priv_key ← lift (PrivateKey_pqen sageresult q (pk_e publickey) (pk_n publickey));
       mret (Some priv_key, None)
     else mret (None, None))
    (fun e => match e with CalledProcessError | TimeoutExpired => true | _ => false end)
    (mret (None, None)).

End Attack.

End SmallFraction.

(** ** attacks/single_key/factordb.py *)

Module FactorDB.

(** [sep in s] *)
Fixpoint contains (sep : ascii) (s : string) : bool :=
  match s with
  | EmptyString => false
  | String c r => Ascii.eqb c sep || contains sep r
  end.

(** [s.split(sep)] for a one-character separator *)
Fixpoint split_on (sep : ascii) (s : string) : list string :=
  match s with
  | EmptyString => [EmptyString]
  | String c r =>
      if Ascii.eqb c sep then EmptyString :: split_on sep r
      else
        match split_on sep r with
        | h :: t => String c h :: t
        | [] => [String c EmptyString]
        end
  end.

Definition digit_value (c : ascii) : option Z :=
  let n := Z.of_N (N_of_ascii c) in
  if (48 <=? n) && (n <=? 57) then Some (n - 48) else None.

Fixpoint digits_value (s : string) (acc : Z) : option Z :=
  match s with
  | EmptyString => Some acc
  | String c r =>
      match digit_value c with
      | Some d => digits_value r (acc * 10 + d)
      | None => None
      end
  end.

(** [s.isdigit()] *)
Definition isdigit (s : string) : bool :=
  match s with
  | EmptyString => false
  | _ => bool_decide (is_Some (digits_value s 0))
  end.

(** [int(s)] on the strings the page scan yields (digits, [^] and [-]):
    an optional minus sign and at least one digit, [ValueError] otherwise. *)
Definition int_of_string (s : string) : outcome Z :=
  let unsigned (r : string) : outcome Z :=
    match r with
    | EmptyString => Raise ValueError
    | _ => match digits_value r 0 with
           | Some v => Ret v
           | None => Raise ValueError
           end
    end in
  match s with
  | String "-" r => v ← unsigned r; Ret (- v)
  | _ => unsigned s
  end.

(** [solveforp(equation)]: whatever goes wrong inside is turned into
    [FactorizationError]. *)
Definition solveforp (equation : string) : outcome Z :=
  let parsed : outcome Z :=
    '(k, j) ← (if contains "^" equation then
                 match split_on "^" equation with
                 | [k; j] => Ret (k, j)
                 | _ => Raise ValueError
                 end
               else Raise UnboundLocalError);
    '(j, sub) ← (if contains "-" j then
                   match split_on "-" j with
                   | [j; sub] => Ret (j, sub)
                   | _ => Raise ValueError
                   end
                 else Raise UnboundLocalError);
    k ← int_of_string k;
    j ← int_of_string j;
    sub ← int_of_string sub;
    Ret (k ^ j - sub) in
  match parsed with
  | Ret v => Ret v
  | Raise _ => Raise FactorizationError
  | OutOfFuel => OutOfFuel
  end.

(** The first page: what the two regular expressions find in it. *)
Record query_page : Set := mkPage {
  page_ids : list string;
  page_prime : list string
}.

(** The factor database, reached over the network:
    [query n] is [s.get(url_1 % n)] with its two scans,
    [by_id i] is [s.get(url_2 % i)] with the scan for [value="..."];
    a failing request raises. *)
Class Web : Type := {
  query : Z -> outcome query_page;
  by_id : string -> outcome (list string)
}.

(** [lib.rsalibnum.invmod] *)
Class RsaLibNum : Type := {
  invmod : Z -> Z -> outcome Z
}.

Section Attack.

Context `{KeysWrapper} `{Web} `{RsaLibNum}.

(** [int(key) if key.isdigit() else solveforp(key)] *)
Definition factor_value (key : string) : outcome Z :=
  if isdigit key then int_of_string key else solveforp key.

(** The inner [try] block: both factors fetched and stored. *)
Definition fetch_factors (ids : list string) : keyed unit :=
  p_id ← lift (index ids 1);
  values ← lift (by_id p_id);
  key_p ← lift (index values 0);
  p ← lift (factor_value key_p);
  _ ← write_p p;
  q_id ← lift (index ids 2);
  values ← lift (by_id q_id);
  key_q ← lift (index values 0);
  q ← lift (factor_value key_q);
  write_q q.

Definition attack : keyed attack_result :=
  try_except
    (publickey ← get_key;
     r ← lift (query (pk_n publickey));
     let ids := page_ids r in
     early ← (if bool_decide (length ids = 2%nat) then
                if bool_decide (length (page_prime r) = 1%nat) then
                  d ← lift (invmod (pk_e publickey) (pk_n publickey - 1));
                  priv_key ← lift (PrivateKey_end (pk_e publickey) (pk_n publickey) d);
                  mret (Some (Some priv_key, None))
                else mret None
              else mret None);
     match early with
     | Some found => mret found
     | None =>
         fetched ← try_except
                     (_ ← fetch_factors ids; mret true)
                     (fun e => match e with IndexError => true | _ => false end)
                     (mret false);
         if (fetched : bool) then
           publickey ← get_key;
           match pk_p publickey, pk_q publickey with
           | Some p, Some q =>
               if (p =? q) && (q =? pk_n publickey) then mret (None, None)
               else
                 priv_key ← lift (PrivateKey_pqen p q (pk_e publickey) (pk_n publickey));
                 mret (Some priv_key, None)
           | _, _ => lift (Raise TypeError)
           end
         else mret (None, None)
     end)
    (fun _ => true)
    (mret (None, None)).

End Attack.

End FactorDB.

(** ** Vocabulary of the specification *)

(** [h] is a power of two. *)
Definition is_pow2 (h : Z) : Prop := exists j, 0 <= j /\ h = 2 ^ j.

(** [x] is coprime to every element of [l]. *)
Definition coprime_to (x : Z) (l : list Z) : bool :=
  forallb (fun y => Z.gcd x y =? 1) l.

Fixpoint pairwise_coprime (l : list Z) : bool :=
  match l with
  | [] => true
  | x :: t => coprime_to x t && pairwise_coprime t
  end.

(** The product of the moduli. *)
Definition list_prod (l : list Z) : Z := foldr Z.mul 1 l.

(** Principal submatrix of [BB] on the (row and column) indices [keep]. *)
Definition submatrix (keep : list nat) (BB : BonehDurfee.matrix) : BonehDurfee.matrix :=
  map (fun i => map (fun j => (BB !!! i) !!! j) keep) keep.

Definition increasing (L : list nat) : Prop :=
  forall a b x y, (a < b)%nat -> L !! a = Some x -> L !! b = Some y -> (x < y)%nat.

(** Why index [i] may be missing from [keep]: its own diagonal entry
    reaches the bound, or it is the one later row affected by a removed row
    [ii] whose diagonal entry reaches the bound and lies further from it. *)
Definition deleted_ok (BB : BonehDurfee.matrix) (bound : Z) (keep : list nat) (i : nat) : Prop :=
  let at_ (r c : nat) : Z := (BB !!! r) !!! c in
  bound <= at_ i i \/
  exists ii, (ii ∉ keep) /\ (ii < i)%nat /\ (bound <= at_ ii ii) /\
             (at_ i ii <> 0) /\
             (Z.abs (bound - at_ i i) < Z.abs (bound - at_ ii ii)).

(** [r] is the pruning of the lattice restricted to the indices [L]: a
    principal submatrix [keep] of [BB] with the labels of the same indices. *)
Definition pruned_from {M : Type} `{!Inhabited M} (BB : BonehDurfee.matrix)
    (mons : list M) (bound : Z) (L : list nat)
    (r : outcome (BonehDurfee.matrix * list M)) : Prop :=
  exists keep,
    r = Ret (submatrix keep BB, (fun i => mons !!! i) <$> keep) /\
    keep `sublist_of` L /\
    forall i, i ∈ L -> i ∉ keep -> deleted_ok BB bound keep i.

(** No row of [L] after position [a], the position [except] apart, has an
    entry in column [i]: what the loops over [jj] and [kk] establish. *)
Definition later_clear (BB : BonehDurfee.matrix) (L : list nat) (a : nat)
    (except : option nat) (i : nat) : Prop :=
  forall c k, (a < c)%nat -> Some c <> except -> L !! c = Some k ->
              (BB !!! k) !!! i = 0.

(** The removals that lead from the indices [L] still present to [keep].
    Level 0 removes the row at position [a], index [i], whose diagonal entry
    reaches the bound and which no later row of [L] has an entry under.
    Level 1 removes it together with the row at position [b], index [j],
    when that is the single later row of [L] with an entry in column [i], no
    row after it has an entry in column [j], and its diagonal entry lies
    closer to the bound. *)
Inductive pruning (BB : BonehDurfee.matrix) (bound : Z) : list nat -> list nat -> Prop :=
| pruning_stop (L : list nat) : pruning BB bound L L
| pruning_level0 (L keep : list nat) (a i : nat) :
    L !! a = Some i ->
    bound <= (BB !!! i) !!! i ->
    later_clear BB L a None i ->
    pruning BB bound (delete a L) keep ->
    pruning BB bound L keep
| pruning_level1 (L keep : list nat) (a b i j : nat) :
    (a < b)%nat -> L !! a = Some i -> L !! b = Some j ->
    bound <= (BB !!! i) !!! i ->
    (BB !!! j) !!! i <> 0 ->
    later_clear BB L a (Some b) i ->
    later_clear BB L b None j ->
    Z.abs (bound - (BB !!! j) !!! j) < Z.abs (bound - (BB !!! i) !!! i) ->
    pruning BB bound (delete a (delete b L)) keep ->
    pruning BB bound L keep.

(** ** Inputs and stand-ins for the examples *)

Definition key (n e : Z) : PublicKey := mkPublicKey n e None None.

Fixpoint be_bytes (fuel : nat) (v : Z) (acc : bytes) : bytes :=
  match fuel with
  | O => acc
  | S k => if v =? 0 then acc else be_bytes k (v / 256) (byte_of_Z (v mod 256) :: acc)
  end.

(** The minimal big-endian encoding of [0 <= m]: no leading zero byte. *)
Definition minimal_big_endian (m : Z) : bytes :=
  be_bytes (S (Z.to_nat (Z.log2 m))) m [].


(** The number of hexadecimal digits of [0 < m]. *)
Definition hex_length (m : Z) : Z := Z.log2 m / 4 + 1.

(** The exponents of the keys the attack uses. *)
Definition usable_exponents (publickeys : list PublicKey) : gset Z :=
  list_to_set (map pk_e (filter (fun k => pk_e k < 11) publickeys)).

(** Stand-ins for the external collaborators, to run the attacks on
    concrete inputs. *)

(** A stand-in for [lib.keys_wrapper.PrivateKey], which is not among the
    sources: the four numbers it is built from, and a validation error when
    [p * q != n]. *)
Definition toy_keys : KeysWrapper :=
  {| PrivateKey := Z * Z * Z * Z;
     PrivateKey_pqen := fun p q e n =>
       if p * q =? n then Ret (p, q, e, n) else Raise ValueError;
     PrivateKey_end := fun e n d => Ret (0, 0, e, n) |}.

(** A one-row lattice with diagonal entry 5. *)
Definition toy_sage : BonehDurfee.Sage :=
  {| BonehDurfee.poly3 := Z;
     BonehDurfee.monomial := unit;
     BonehDurfee.shift_polynomials := fun _ _ _ _ => Ret ([5], [tt]);
     BonehDurfee.constant_term := fun g => g;
     BonehDurfee.has_monomial := fun _ _ => true;
     BonehDurfee.monomial_coefficient := fun g _ => g;
     BonehDurfee.monomial_at := fun _ _ _ _ => 1;
     BonehDurfee.LLL := fun BB => BB;
     BonehDurfee.roots_of_reduced := fun _ _ _ _ _ _ => Ret (0, 0) |}.

(** A [pow] that always answers 1.0. *)
Definition toy_libm : PyFloat.Libm :=
  {| PyFloat.pow := fun _ _ => Ret PyFloat.lit_1;
     PyFloat.pow_is_double := fun _ _ r (E : Ret PyFloat.lit_1 = Ret r) =>
       match E in (_ = o)
             return (match o with
                     | Ret r' => valid_binary PyFloat.prec PyFloat.emax r' = true
                     | _ => True
                     end)
       with
       | eq_refl => eq_refl
       end |}.

Definition toy_crypto : BonehDurfee.PyCrypto :=
  {| BonehDurfee.RSA_construct := fun n e d => Raise ValueError |}.

(** The external tool timing out. *)
Definition toy_tool : SmallFraction.SageTool :=
  {| SmallFraction.smallfraction_sage := fun n => Raise TimeoutExpired |}.


(** A factor database whose first page lists the ids [ids], none marked
    prime, and which answers the number 21 for every id. *)
Definition toy_web (ids : list string) : FactorDB.Web :=
  {| FactorDB.query := fun n => Ret (FactorDB.mkPage ids []);
     FactorDB.by_id := fun i => Ret ["21"] |}.

Definition toy_rsalibnum : FactorDB.RsaLibNum :=
  {| FactorDB.invmod := fun a m => Raise ValueError |}.

(** [m] never changes [n] and [e] of the key it threads. *)
Definition keeps_n_e {A : Type} (m : keyed A) : Prop :=
  forall k k' r, m k = (k', r) -> pk_n k' = pk_n k /\ pk_e k' = pk_e k.


(** An 8 x 8 lattice basis: row 6 (diagonal entry 20) affects row 7
    (diagonal entry 5) and nothing else. *)
Definition example_lattice : BonehDurfee.matrix :=
  [[1; 0; 0; 0; 0; 0; 0; 0];
   [0; 1; 0; 0; 0; 0; 0; 0];
   [0; 0; 1; 0; 0; 0; 0; 0];
   [0; 0; 0; 1; 0; 0; 0; 0];
   [0; 0; 0; 0; 1; 0; 0; 0];
   [0; 0; 0; 0; 0; 1; 0; 0];
   [0; 0; 0; 0; 0; 0; 20; 0];
   [0; 0; 0; 0; 0; 0; 1; 5]].

(** ** Vocabulary of the further properties *)

(** Every character of [s] is a hexadecimal digit. *)
Fixpoint hex_string (s : string) : bool :=
  match s with
  | EmptyString => true
  | String c r => bool_decide (is_Some (hex_value c)) && hex_string r
  end.

(** The keys the Håstad attack reads. *)
Definition usable_keys (publickeys : list PublicKey) : list PublicKey :=
  filter (fun k => pk_e k < 11) publickeys.

(** Stand-ins for runs in which an attack finds something. *)

(** A Sage whose one-row lattice is reduced to the solution [(1, 1)]. *)
Definition solving_sage : BonehDurfee.Sage :=
  {| BonehDurfee.poly3 := Z;
     BonehDurfee.monomial := unit;
     BonehDurfee.shift_polynomials := fun _ _ _ _ => Ret ([5], [tt]);
     BonehDurfee.constant_term := fun g => g;
     BonehDurfee.has_monomial := fun _ _ => true;
     BonehDurfee.monomial_coefficient := fun g _ => g;
     BonehDurfee.monomial_at := fun _ _ _ _ => 1;
     BonehDurfee.LLL := fun BB => BB;
     BonehDurfee.roots_of_reduced := fun _ _ _ _ _ _ => Ret (1, 1) |}.

(** An [RSA.construct] that answers the factors 3 and 5. *)
Definition factoring_crypto : BonehDurfee.PyCrypto :=
  {| BonehDurfee.RSA_construct := fun n e d => Ret (3, 5) |}.


(** The external tool printing something that is not a number: [int()]
    raises [ValueError]. *)
Definition garbled_tool : SmallFraction.SageTool :=
  {| SmallFraction.smallfraction_sage := fun n => Raise ValueError |}.

(** The external tool answering [v]. *)
Definition answering_tool (v : Z) : SmallFraction.SageTool :=
  {| SmallFraction.smallfraction_sage := fun n => Ret v |}.

(** ** [str(v)] for an [int] *)

Module PyStr.

Definition dec_digit (d : Z) : ascii := ascii_of_N (Z.to_N (48 + d)).

Fixpoint dec_digits (fuel : nat) (v : Z) (acc : string) : string :=
  match fuel with
  | O => String (dec_digit (v mod 10)) acc
  | S k =>
      if v <? 10 then String (dec_digit v) acc
      else dec_digits k (v / 10) (String (dec_digit (v mod 10)) acc)
  end.

(** The decimal digits of [0 <= v], most significant first. *)
Definition str_of_nonneg (v : Z) : string :=
  dec_digits (Z.to_nat (Z.log2 v)) v EmptyString.

(** [str(v)].  (CPython releases from September 2022 on refuse, with
    [ValueError], to write or read more than 4300 decimal digits unless the
    limit is lifted; the properties that go through decimal digits are stated
    below that limit.) *)
Definition str (v : Z) : string :=
  if v <? 0 then String "-" (str_of_nonneg (- v)) else str_of_nonneg v.

End PyStr.

(** Every character of [s] is a decimal digit. *)
Fixpoint digit_string (s : string) : bool :=
  match s with
  | EmptyString => true
  | String c r => bool_decide (is_Some (FactorDB.digit_value c)) && digit_string r
  end.

(** ** lib/utils.py *)

Module Utils.

(** *** get_numeric_value *)

(** The value of a character as a digit, in any base up to 36. *)
Definition digit_of (c : ascii) : option Z :=
  let n := Z.of_N (N_of_ascii c) in
  if (48 <=? n) && (n <=? 57) then Some (n - 48)
  else if (97 <=? n) && (n <=? 122) then Some (n - 87)
  else if (65 <=? n) && (n <=? 90) then Some (n - 55)
  else None.

(** Leading whitespace removed. *)
Fixpoint lstrip (s : string) : string :=
  match s with
  | String c r => if is_space c then lstrip r else s
  | EmptyString => EmptyString
  end.

(** The digits of [int(s, base)]: digits below [base], single underscores
    between them.  Returns the value, whether a digit was read, and what
    follows; [None] for a doubled or a trailing underscore. *)
Fixpoint scan_digits (base : Z) (s : string) (acc : Z) (any prev_underscore : bool)
    : option (Z * bool * string) :=
  let stop := if prev_underscore then None else Some (acc, any, s) in
  match s with
  | EmptyString => stop
  | String c r =>
      if Ascii.eqb c "_" then
        if prev_underscore then None else scan_digits base r acc any true
      else
        match digit_of c with
        | Some d => if d <? base then scan_digits base r (acc * base + d) true false
                    else stop
        | None => stop
        end
  end.

(** [int(s, base)] for a [str] of ASCII characters and [base] 10 or 16,
    after CPython's [PyLong_FromString]: whitespace around, an optional sign,
    for base 16 an optional [0x] or [0X] (and one underscore after it), then
    the digits; [ValueError] for anything else.  (No limit on the number of
    decimal digits: see [PyStr.str].) *)
Definition int_of_str (base : Z) (s : string) : outcome Z :=
  let s := lstrip s in
  let '(sign, s) := match s with
                    | String "+" r => (1, r)
                    | String "-" r => (-1, r)
                    | _ => (1, s)
                    end in
  let s := if base =? 16 then
             match s with
             | String "0" (String x r) =>
                 if Ascii.eqb x "x" || Ascii.eqb x "X" then
                   match r with
                   | String "_" r' => r'
                   | _ => r
                   end
                 else s
             | _ => s
             end
           else s in
  match s with
  | String "_" _ => Raise ValueError
  | _ =>
      match scan_digits base s 0 false false with
      | Some (v, true, rest) =>
          match lstrip rest with
          | EmptyString => Ret (sign * v)
          | _ => Raise ValueError
          end
      | _ => Raise ValueError
      end
  end.

(** [value.startswith("0x")] *)
Definition startswith_0x (value : string) : bool :=
  match value with
  | String "0" (String "x" _) => true
  | _ => false
  end.

Definition get_numeric_value (value : string) : outcome Z :=
  if startswith_0x value then int_of_str 16 value else int_of_str 10 value.

(** *** print_results *)

Inductive level : Set := INFO | CRITICAL.

(** A private key as [print_results] reads it: five attributes, each of
    which may be [None]. *)
Record private_key : Set := mkPrivateKey {
  priv_n : option Z;
  priv_e : option Z;
  priv_d : option Z;
  priv_p : option Z;
  priv_q : option Z
}.

(** What is handed to the logger: a [str], or an object the logger formats
    itself (a key, or a plaintext, which may be [None] inside a list). *)
Inductive message : Set :=
| Text (s : string)
| KeyObject (k : private_key)
| DataObject (d : option bytes).

Definition record : Set := level * message.

(** The options read from [args]: the truth values of [args.private],
    [args.dumpkey], [args.uncipher] and [args.ext], and [args.publickey]
    ([None] or the list of key files). *)
Record arguments : Set := mkArgs {
  private : bool;
  dumpkey : bool;
  uncipher : bool;
  ext : bool;
  publickey : option (list string)
}.

(** The [private_key] argument: [None], one key, or a list whose entries
    may be [None]. *)
Inductive private_arg : Set :=
| NoKey
| OneKey (k : private_key)
| SomeKeys (l : list (option private_key)).

(** The [uncipher] argument: [None], one plaintext, or a list. *)
Inductive uncipher_arg : Set :=
| NoData
| OneData (d : bytes)
| SomeData (l : list (option bytes)).

(** Code that calls the logger: the records logged so far, in order, and
    the outcome; an exception keeps what was logged before it. *)
Definition logged (A : Type) : Type := list record * outcome A.

Definition lret {A : Type} (a : A) : logged A := ([], Ret a).

Definition lbind {A B : Type} (m : logged A) (f : A -> logged B) : logged B :=
  match m with
  | (l, Ret a) => (l ++ (f a).1, (f a).2)
  | (l, Raise e) => (l, Raise e)
  | (l, OutOfFuel) => (l, OutOfFuel)
  end.

#[global] Instance logged_ret : MRet logged := @lret.
#[global] Instance logged_bind : MBind logged := fun A B f m => lbind m f.

(** [logger.info(m)] and [logger.critical(m)] *)
Definition info (m : message) : logged unit := ([(INFO, m)], Ret tt).
Definition critical (m : message) : logged unit := ([(CRITICAL, m)], Ret tt).

Definition call {A : Type} (o : outcome A) : logged A := ([], o).

(** [for x in l: body] *)
Fixpoint for_each {A : Type} (l : list A) (body : A -> logged unit) : logged unit :=
  match l with
  | [] => lret tt
  | x :: r => lbind (body x) (fun _ => for_each r body)
  end.

(** [open(name, "rb").read()] followed by
    [lib.keys_wrapper.PublicKey(data, name)]: the [filename], [n] and [e] of
    the key that was read, or the exception raised on the way. *)
Class KeyFiles : Type := {
  load_public_key : string -> outcome (string * Z * Z)
}.

Definition newline : string := String (ascii_of_nat 10) EmptyString.

Definition cracking_failed : record := (CRITICAL, Text "Sorry, cracking failed.").
Definition unciphering_failed : record := (CRITICAL, Text "Sorry, unciphering failed.").

Section PrintResults.

Context `{KeyFiles} `{FactorDB.RsaLibNum}.

(** [if priv_key.x is not None: logger.info("x: " + str(priv_key.x))] *)
Definition log_attribute (name : string) (v : option Z) : logged unit :=
  match v with
  | Some x => info (Text (name +:+ ": " +:+ PyStr.str x))
  | None => lret tt
  end.

(** [a % (b - 1)] on two attributes: [TypeError] when one is [None]. *)
Definition reduced (a b : option Z) : outcome Z :=
  match b with
  | None => Raise TypeError
  | Some b =>
      match a with
      | None => Raise TypeError
      | Some a => pymod a (b - 1)
      end
  end.

(** The [if args.ext:] block. *)
Definition log_crt_parameters (k : private_key) : logged unit :=
  dp ← call (reduced (priv_d k) (priv_p k));
  dq ← call (reduced (priv_d k) (priv_q k));
  match priv_p k, priv_q k with
  | Some p, Some q =>
      pinv ← call (FactorDB.invmod p q);
      qinv ← call (FactorDB.invmod q p);
      _ ← info (Text ("dp: " +:+ PyStr.str dp));
      _ ← info (Text ("dq: " +:+ PyStr.str dq));
      _ ← info (Text ("pinv: " +:+ PyStr.str pinv));
      info (Text ("qinv: " +:+ PyStr.str qinv))
  | _, _ => call (Raise TypeError)
  end.

(** The body of the loop under [if args.dumpkey:]; reading an attribute of
    a [None] entry raises [AttributeError], which [OtherError] stands for. *)
Definition dump_key (args : arguments) (entry : option private_key) : logged unit :=
  match entry with
  | None => call (Raise OtherError)
  | Some k =>
      _ ← log_attribute "n" (priv_n k);
      _ ← log_attribute "e" (priv_e k);
      _ ← log_attribute "d" (priv_d k);
      _ ← log_attribute "p" (priv_p k);
      _ ← log_attribute "q" (priv_q k);
      if ext args then log_crt_parameters k else lret tt
  end.

(** The body of [for public_key in args.publickey:]; it opens [publickey],
    the function's argument, every time. *)
Definition dump_public_key (publickey : option string) : logged unit :=
  match publickey with
  | None => call (Raise TypeError)
  | Some name =>
      '(filename, n, e) ← call (load_public_key name);
      _ ← info (Text (newline +:+ "Public key details for " +:+ filename));
      _ ← info (Text ("n: " +:+ PyStr.str n));
      info (Text ("e: " +:+ PyStr.str e))
  end.

Definition print_results (args : arguments) (publickey : option string)
    (private_key : private_arg) (uncipher : uncipher_arg) : logged unit :=
  let found := match private_key with NoKey => false | _ => true end in
  let deciphered := match uncipher with
                    | NoData => false
                    | OneData _ => true
                    | SomeData l => negb (bool_decide (l = []))
                    end in
  _ ← (if (private args && found) || dumpkey args || (Utils.uncipher args && deciphered)
       then match publickey with
            | Some name => info (Text (newline +:+ "Results for " +:+ name +:+ ":"))
            | None => lret tt
            end
       else lret tt);
  _ ← (match private_key with
       | NoKey => critical (Text "Sorry, cracking failed.")
       | _ =>
           let private_keys := match private_key with
                               | SomeKeys l => l
                               | OneKey k => [Some k]
                               | NoKey => []
                               end in
           _ ← (if private args then
                  _ ← info (Text (newline +:+ "Private key :"));
                  for_each private_keys
                    (fun priv_key => match priv_key with
                                     | Some k => info (KeyObject k)
                                     | None => lret tt
                                     end)
                else lret tt);
           if dumpkey args then for_each private_keys (dump_key args) else lret tt
       end);
  _ ← (if dumpkey args then
         match Utils.publickey args with
         | Some files => for_each files (fun _ => dump_public_key publickey)
         | None => lret tt
         end
       else lret tt);
  if Utils.uncipher args then
    match uncipher with
    | NoData => critical (Text "Sorry, unciphering failed.")
    | _ =>
        let uncipher := match uncipher with
                        | SomeData l => l
                        | OneData d => [Some d]
                        | NoData => []
                        end in
        if bool_decide (0 < length uncipher)%nat then
          _ ← info (Text (newline +:+ "Unciphered data :"));
          for_each uncipher (fun uncipher_ => info (DataObject uncipher_))
        else lret tt
    end
  else lret tt.

End PrintResults.

End Utils.

(** A file system without key files. *)
Definition quiet_files : Utils.KeyFiles :=
  {| Utils.load_public_key := fun name => Raise OtherError |}.

(** A factor database that lists three ids and answers 3 for the id ["1"]
    and 7 for any other. *)
Definition factoring_web : FactorDB.Web :=
  {| FactorDB.query := fun n => Ret (FactorDB.mkPage ["0"; "1"; "2"]%string []);
     FactorDB.by_id := fun i => if String.eqb i "1" then Ret ["3"%string] else Ret ["7"%string] |}.


(** ** Modular inverse and Chinese remainders *)

Section ModularArithmetic.
Import Hastads.


Lemma mul_inv_loop_spec (a0 b0 : Z) :
  2 <= b0 ->
  forall fuel a b x0 x1,
    1 <= a -> 0 <= b -> (Z.to_nat b < fuel)%nat ->
    Z.gcd a b = Z.gcd a0 b0 ->
    (b0 | x1 * a0 - a) -> (b0 | x0 * a0 - b) ->
    ((x0 <= 0 <= x1 /\ b * x1 - a * x0 = b0) \/ (x1 <= 0 <= x0 /\ a * x0 - b * x1 = b0)) ->
    - b0 < x1 < b0 ->
    (Z.gcd a0 b0 = 1 ->
       exists x, mul_inv_loop fuel a b x0 x1 = Ret x /\ - b0 < x < b0 /\ (b0 | x * a0 - 1)) /\
    (Z.gcd a0 b0 <> 1 -> mul_inv_loop fuel a b x0 x1 = Raise ZeroDivisionError).
Proof.
  intros Hb0. induction fuel as [|fuel IH]; intros a b x0 x1 Ha Hb Hfuel Hg Hx1 Hx0 Hsign Hbound.
  - lia.
  - cbn [mul_inv_loop]. destruct (Z.ltb_spec 1 a) as [Ha1|Ha1].
    + unfold floordiv, pymod. destruct (Z.eqb_spec b 0) as [->|Hbnz].
      * rewrite Z.gcd_0_r in Hg. split; [|reflexivity]. intros Hg1. lia.
      * cbn. 
        assert (Hr : 0 <= a mod b < b) by (apply Z.mod_pos_bound; lia).
        assert (Hq : 0 <= a / b) by (apply Z.div_pos; lia).
        assert (Hdm : a = b * (a / b) + a mod b) by (apply Z.div_mod; lia).
        apply IH.
        -- lia.
        -- lia.
        -- lia.
        -- rewrite <- Hg. rewrite (Z.gcd_comm b), Z.gcd_mod by lia. apply Z.gcd_comm.
        -- assumption.
        -- replace ((x1 - a / b * x0) * a0 - a mod b)
             with ((x1 * a0 - a) - (a / b) * (x0 * a0 - b)) by lia.
           apply Z.divide_sub_r; [assumption|]. apply Z.divide_mul_r. assumption.
        -- destruct Hsign as [[Hs He]|[Hs He]]; [right|left]; (split; [nia|]); nia.
        -- destruct Hsign as [[Hs He]|[Hs He]]; nia.
    + assert (a = 1) by lia. subst a. rewrite Z.gcd_1_l in Hg. split.
      * intros _. exists x1. split; [reflexivity|]. split; [lia|]. assumption.
      * intros Hne. congruence.
Qed.

Lemma mul_inv_one a : mul_inv a 1 = Ret 1.
Proof. reflexivity. Qed.

Lemma inverse_unique a m r r' :
  0 <= r < m -> 0 <= r' < m -> (a * r) mod m = 1 -> (a * r') mod m = 1 -> r' = r.
Proof.
  intros Hr Hr' H1 H2.
  assert (Hm : 0 < m) by lia.
  assert (E1 : (r' * (a * r)) mod m = r').
  { rewrite <- Z.mul_mod_idemp_r, H1 by lia. rewrite Z.mul_1_r. apply Z.mod_small; lia. }
  assert (E2 : (r * (a * r')) mod m = r).
  { rewrite <- Z.mul_mod_idemp_r, H2 by lia. rewrite Z.mul_1_r. apply Z.mod_small; lia. }
  replace (r' * (a * r)) with (r * (a * r')) in E1 by lia. congruence.
Qed.

Lemma mul_inv_spec (a m : Z) :
  1 <= a -> 2 <= m ->
  (Z.gcd a m <> 1 -> mul_inv a m = Raise ZeroDivisionError) /\
  (Z.gcd a m = 1 ->
     exists r, mul_inv a m = Ret r /\ 0 <= r < m /\ (a * r) mod m = 1 /\
               forall r', 0 <= r' < m -> (a * r') mod m = 1 -> r' = r).
Proof.
  intros Ha Hm.
  assert (Hd1 : (m | 1 * a - a)) by (exists 0; lia).
  assert (Hd2 : (m | 0 * a - m)) by (exists (-1); lia).
  destruct (mul_inv_loop_spec a m Hm (S (S (Z.to_nat m))) a m 0 1
              ltac:(lia) ltac:(lia) ltac:(lia) eq_refl Hd1 Hd2 ltac:(lia) ltac:(lia))
    as [Hok Hbad].
  unfold mul_inv. destruct (Z.eqb_spec m 1) as [?|_]; [lia|]. split.
  - intros Hg. rewrite (Hbad Hg). reflexivity.
  - intros Hg. destruct (Hok Hg) as (x & Hx & Hbx & Hdx). rewrite Hx. cbn.
      set (r := if x <? 0 then x + m else x).
      assert (Hr : 0 <= r < m) by (subst r; destruct (Z.ltb_spec x 0); lia).
      assert (Hd : (m | r * a - 1)).
      { subst r. destruct (Z.ltb_spec x 0); [|assumption].
        replace ((x + m) * a - 1) with ((x * a - 1) + m * a) by lia.
        apply Z.divide_add_r; [assumption|]. apply Z.divide_factor_l. }
      assert (Hinv : (a * r) mod m = 1).
      { destruct Hd as [k Hk]. replace (a * r) with (1 + k * m) by lia.
        rewrite Z.mod_add by lia. apply Z.mod_small. lia. }
      exists r. repeat split; try lia; try assumption.
      intros r' Hr' Hinv'. eapply inverse_unique; eauto.
Qed.

Lemma list_prod_cons x l : list_prod (x :: l) = x * list_prod l.
Proof. reflexivity. Qed.

Lemma fold_left_mul_prod t h : fold_left Z.mul t h = h * list_prod t.
Proof.
  revert h. induction t as [|x t IH]; intros h.
  - cbn. lia.
  - cbn [fold_left]. rewrite IH, list_prod_cons. lia.
Qed.

Lemma coprime_to_spec x l : coprime_to x l = true <-> forall y, y ∈ l -> Z.gcd x y = 1.
Proof.
  unfold coprime_to. rewrite forallb_forall. split.
  - intros Hf y Hy. apply Z.eqb_eq, Hf. by apply list_elem_of_In.
  - intros Hf y Hy. apply Z.eqb_eq, Hf. by apply list_elem_of_In.
Qed.

Lemma gcd_mul_coprime x a b : Z.gcd x a = 1 -> Z.gcd x b = 1 -> Z.gcd x (a * b) = 1.
Proof.
  intros Ha Hb. exact (Z.coprime_mul_r x a b Ha Hb).
Qed.

Lemma coprime_to_prod x l : coprime_to x l = true -> Z.gcd x (list_prod l) = 1.
Proof.
  rewrite coprime_to_spec. induction l as [|y l IH]; intros Hc.
  - apply Z.gcd_1_r.
  - rewrite list_prod_cons. apply gcd_mul_coprime.
    + apply Hc. left.
    + apply IH. intros z Hz. apply Hc. by right.
Qed.

Lemma elem_divide_prod y l : y ∈ l -> (y | list_prod l).
Proof.
  induction 1 as [y l|y z l _ IH]; rewrite list_prod_cons.
  - apply Z.divide_factor_l.
  - by apply Z.divide_mul_r.
Qed.

Lemma coprime_divide_mul a b c : Z.gcd a b = 1 -> (a | c) -> (b | c) -> (a * b | c).
Proof.
  intros Hg [k ->] Hb. rewrite Z.mul_comm in Hb.
  apply Z.gauss in Hb; [|by rewrite Z.gcd_comm].
  destruct Hb as [j ->]. exists j. lia.
Qed.

Lemma prod_divide l d :
  pairwise_coprime l = true -> (forall y, y ∈ l -> (y | d)) -> (list_prod l | d).
Proof.
  induction l as [|x l IH]; intros Hpc Hd.
  - apply Z.divide_1_l.
  - cbn in Hpc. apply andb_true_iff in Hpc as [Hx Hl].
    rewrite list_prod_cons. apply coprime_divide_mul.
    + by apply coprime_to_prod.
    + apply Hd. left.
    + apply IH; [done|]. intros y Hy. apply Hd. by right.
Qed.

Lemma cofactor l x :
  pairwise_coprime l = true -> x ∈ l ->
  exists R, list_prod l = x * R /\ Z.gcd R x = 1 /\ forall y, y ∈ l -> y <> x -> (y | R).
Proof.
  induction l as [|h l IH]; intros Hpc Hx.
  - by apply not_elem_of_nil in Hx.
  - cbn in Hpc. apply andb_true_iff in Hpc as [Hh Hl].
    apply elem_of_cons in Hx as [->|Hx].
    + exists (list_prod l). split; [reflexivity|]. split.
      * rewrite Z.gcd_comm. by apply coprime_to_prod.
      * intros y Hy Hne. apply elem_of_cons in Hy as [?|Hy]; [done|].
        by apply elem_divide_prod.
    + destruct (IH Hl Hx) as (R & HP & Hg & Hdiv).
      exists (h * R). split; [rewrite list_prod_cons, HP; lia|]. split.
      * rewrite Z.gcd_comm. apply gcd_mul_coprime.
        -- rewrite Z.gcd_comm. eapply coprime_to_spec; eauto.
        -- by rewrite Z.gcd_comm.
      * intros y Hy Hne. apply elem_of_cons in Hy as [->|Hy].
        -- apply Z.divide_factor_l.
        -- apply Z.divide_mul_r. by apply Hdiv.
Qed.

Lemma pairwise_coprime_NoDup l :
  Forall (fun x => 1 < x) l -> pairwise_coprime l = true -> NoDup l.
Proof.
  induction 1 as [|x l Hx _ IH]; cbn; intros Hpc.
  - constructor.
  - apply andb_true_iff in Hpc as [Hh Hl]. constructor; [|by apply IH].
    intros Hin. pose proof (proj1 (coprime_to_spec x l) Hh x Hin) as Hg.
    rewrite Z.gcd_diag in Hg. lia.
Qed.

Lemma list_prod_pos l : Forall (fun x => 1 < x) l -> 1 <= list_prod l.
Proof.
  induction 1 as [|x l Hx _ IH]; [done|]. rewrite list_prod_cons. nia.
Qed.

Section Loop.
Variables (N : list Z) (m : Z).
Hypothesis Hgt : Forall (fun x => 1 < x) N.
Hypothesis Hpc : pairwise_coprime N = true.

Lemma crt_loop_spec L s :
  NoDup L -> (forall x, x ∈ L -> x ∈ N) ->
  exists S, crt_loop (list_prod N) (zip L (map (fun x => m mod x) L)) s = Ret S /\
    forall y, y ∈ N ->
      (y ∈ L -> (y | S - s - m)) /\ (y ∉ L -> (y | S - s)).
Proof.
  revert s. induction L as [|x L IH]; intros s Hnd Hsub.
  - exists s. split; [reflexivity|]. intros y Hy. split.
    + intros Hin. by apply not_elem_of_nil in Hin.
    + intros _. exists 0. lia.
  - apply NoDup_cons in Hnd as [HxL Hnd].
    assert (HxN : x ∈ N) by (apply Hsub; left).
    assert (Hx1 : 1 < x) by (eapply Forall_forall in Hgt; eauto).
    destruct (cofactor N x Hpc HxN) as (R & HP & Hg & Hdiv).
    assert (Hq : list_prod N / x = R).
    { rewrite HP, Z.mul_comm. apply Z.div_mul. lia. }
    assert (HP1 : 1 <= list_prod N) by (by apply list_prod_pos).
    assert (HR : 1 <= R) by nia.
    destruct (mul_inv_spec R x ltac:(lia) ltac:(lia)) as [_ Hinv].
    destruct (Hinv Hg) as (r & Hr & Hrb & Hrm & _).
    set (t := m mod x * r * R).
    destruct (IH (s + t)) as (S & HS & HSdiv); [done| |].
    { intros z Hz. apply Hsub. by right. }
    exists S. split.
    { cbn [zip zip_with map crt_loop]. unfold floordiv.
      destruct (Z.eqb_spec x 0) as [?|_]; [lia|].
      cbn. rewrite Hq, Hr. cbn. exact HS. }
    assert (Hxt : (x | t - m)).
    { pose proof (Z.div_mod (R * r) x ltac:(lia)) as E1. rewrite Hrm in E1.
      pose proof (Z.div_mod m x ltac:(lia)) as E2.
      exists (m mod x * (R * r / x) - m / x). subst t.
      set (k := R * r / x) in *. set (q := m / x) in *. set (mu := m mod x) in *.
      replace (mu * r * R) with (mu * (R * r)) by ring.
      rewrite E1. rewrite E2 at 1. ring. }
    intros y Hy. destruct (HSdiv y Hy) as [Hin Hnot]. split.
    + intros HyL. apply elem_of_cons in HyL as [->|HyL].
      * replace (S - s - m) with ((S - (s + t)) + (t - m)) by lia.
        apply Z.divide_add_r; [by apply Hnot|done].
      * assert (y <> x) by (intros ->; done).
        replace (S - s - m) with ((S - (s + t) - m) + t) by lia.
        apply Z.divide_add_r; [by apply Hin|].
        subst t. apply Z.divide_mul_r. by apply Hdiv.
    + intros HyL. apply not_elem_of_cons in HyL as [Hne HyL].
      replace (S - s) with ((S - (s + t)) + t) by lia.
      apply Z.divide_add_r; [by apply Hnot|].
      subst t. apply Z.divide_mul_r. by apply Hdiv.
Qed.

End Loop.

Lemma crt_round_trip (n : list Z) (m : Z) :
  n <> [] -> Forall (fun n_i => 1 < n_i) n -> pairwise_coprime n = true ->
  chinese_remainder n (map (fun n_i => m mod n_i) n) = Ret (m mod list_prod n).
Proof.
  intros Hne Hgt Hpc.
  destruct (crt_loop_spec n m Hgt Hpc n 0) as (S & HS & Hdiv).
  { by apply pairwise_coprime_NoDup. }
  { done. }
  assert (HP1 : 1 <= list_prod n) by (by apply list_prod_pos).
  unfold chinese_remainder, reduce_mul. destruct n as [|h t]; [done|].
  cbn [mbind outcome_bind bind]. rewrite fold_left_mul_prod, <- list_prod_cons.
  change (crt_loop (list_prod (h :: t)) (zip (h :: t) (map (fun n_i => m mod n_i) (h :: t))) 0 ≫= fun sum => pymod sum (list_prod (h :: t))) with
   (bind (crt_loop (list_prod (h :: t)) (zip (h :: t) (map (fun n_i => m mod n_i) (h :: t))) 0) (fun sum => pymod sum (list_prod (h :: t)))).
  rewrite HS. cbn [bind]. unfold pymod.
  destruct (Z.eqb_spec (list_prod (h :: t)) 0) as [?|_]; [lia|]. f_equal.
  assert (Hd : (list_prod (h :: t) | S - m)).
  { apply prod_divide; [done|]. intros y Hy. destruct (Hdiv y Hy) as [Hin _].
    replace (S - m) with (S - 0 - m) by lia. by apply Hin. }
  destruct Hd as [k Hk]. replace S with (m + k * list_prod (h :: t)) by lia.
  apply Z.mod_add. lia.
Qed.

(** C4 (amended).  For [1 <= a] and [2 <= m], [mul_inv a m] raises
    (a [ZeroDivisionError]: the code has no error of its own) exactly when
    [gcd(a, m) != 1], and otherwise returns the unique inverse of [a] modulo
    [m] in [[0, m)]; for [m = 1] the guard at the top returns [1]. *)
Theorem mul_inv_contract (a m : Z) :
  1 <= m ->
  (m = 1 -> mul_inv a m = Ret 1) /\
  (1 <= a -> 2 <= m ->
   (Z.gcd a m <> 1 <-> mul_inv a m = Raise ZeroDivisionError) /\
   (Z.gcd a m = 1 ->
    exists r, mul_inv a m = Ret r /\ 0 <= r < m /\ (a * r) mod m = 1 /\
              forall r', 0 <= r' < m -> (a * r') mod m = 1 -> r' = r)).
Proof.
  intros Hm. split; [intros ->; apply mul_inv_one|]. intros Ha Hm2.
  destruct (mul_inv_spec a m Ha Hm2) as [Hbad Hok]. split; [|exact Hok].
  split; [exact Hbad|]. intros Hraise Hg.
  destruct (Hok Hg) as (r & Hr & _). congruence.
Qed.

Lemma mul_inv_contract_witness :
  exists r, mul_inv 3 7 = Ret r /\ 0 <= r < 7 /\ (3 * r) mod 7 = 1.
Proof.
  destruct (mul_inv_contract 3 7 ltac:(lia)) as [_ H].
  destruct (H ltac:(lia) ltac:(lia)) as [_ Hinv].
  destruct (Hinv eq_refl) as (r & Hr & Hb & Hi & _).
  exists r. split; [exact Hr|]. split; [exact Hb|exact Hi].
Defined.

(** C4 (counterexample).  [gcd(0, 5) = 5] and yet [mul_inv] succeeds;
    and for [m = 1] the value returned is outside [[0, 1)]. *)
Lemma mul_inv_outside_contract :
  (Z.gcd 0 5 <> 1 /\ mul_inv 0 5 = Ret 1) /\
  (Z.gcd 7 1 = 1 /\ mul_inv 7 1 = Ret 1 /\ ~ (0 <= 1 < 1)).
Proof. vm_compute. repeat split; try done; intros [? ?]; done. Qed.

(** C3.  For a non-empty list of pairwise coprime moduli, each greater
    than 1, and the residues of any integer [m], [chinese_remainder] returns
    [m] modulo the product of the moduli. *)
Theorem chinese_remainder_round_trip (n : list Z) (m : Z) :
  n <> [] -> Forall (fun n_i => 1 < n_i) n -> pairwise_coprime n = true ->
  chinese_remainder n (map (fun n_i => m mod n_i) n) = Ret (m mod list_prod n).
Proof. apply crt_round_trip. Qed.

Lemma chinese_remainder_round_trip_witness :
  chinese_remainder [7; 11; 13] (map (fun n_i => 2024 mod n_i) [7; 11; 13])
  = Ret (2024 mod list_prod [7; 11; 13]).
Proof.
  apply (chinese_remainder_round_trip [7; 11; 13] 2024).
  - discriminate.
  - repeat constructor.
  - reflexivity.
Defined.

End ModularArithmetic.

(** ** Integer roots *)

Section IntegerRoot.
Import Hastads.

Lemma find_high_spec x n :
  1 <= n ->
  forall fuel high,
    1 <= high -> is_pow2 high ->
    (high = 1 \/ (high / 2) ^ n < x) ->
    Z.log2 x + 1 - Z.log2 high < Z.of_nat fuel ->
    exists h, find_high fuel x n high = Ret h /\ 1 <= h /\ is_pow2 h /\
              x <= h ^ n /\ (h = 1 \/ (h / 2) ^ n < x).
Proof.
  intros Hn. induction fuel as [|fuel IH]; intros high Hh Hp2 Hprev Hfuel.
  - cbn. destruct (Z.ltb_spec (high ^ n) x) as [Hlt|Hge].
    + exfalso. assert (high <= high ^ n).
      { rewrite <- (Z.pow_1_r high) at 1. apply Z.pow_le_mono_r; lia. }
      assert (Z.log2 high <= Z.log2 x) by (apply Z.log2_le_mono; lia). lia.
    + exists high. repeat split; try done; lia.
  - cbn [find_high]. destruct (Z.ltb_spec (high ^ n) x) as [Hlt|Hge].
    + apply IH.
      * lia.
      * destruct Hp2 as (j & Hj & ->). exists (j + 1). split; [lia|].
        rewrite Z.pow_add_r by lia. lia.
      * right. replace (high * 2 / 2) with high; [done|].
        symmetry. apply Z.div_mul. lia.
      * replace (high * 2) with (2 * high) by lia.
        rewrite Z.log2_double by lia. lia.
    + exists high. repeat split; try done; lia.
Qed.

Lemma bisect_S fuel x n low high mid :
  bisect (S fuel) x n low high mid =
  if low <? high then
    let m := (low + high) / 2 in
    if (low <? m) && (m ^ n <? x) then bisect fuel x n m high (Some m)
    else if (m <? high) && (x <? m ^ n) then bisect fuel x n low m (Some m)
    else Ret m
  else match mid with Some m => Ret (m + 1) | None => Raise UnboundLocalError end.
Proof. reflexivity. Qed.

Lemma bisect_spec x n h :
  1 <= n -> is_pow2 h -> x <= h ^ n ->
  forall fuel low high mid,
    0 <= low < high -> high <= h ->
    low ^ n < x ->
    (x < high ^ n \/ high = h) ->
    high - low <= 2 ^ Z.of_nat fuel ->
    exists r, bisect (S fuel) x n low high mid = Ret r /\ low <= r < high /\
      ((r ^ n < x <= (r + 1) ^ n /\ (x = (r + 1) ^ n -> r + 1 = h)) \/
       (x = r ^ n /\ low < r)).
Proof.
  intros Hn Hp2 Hxh. induction fuel as [|fuel IH]; intros low high mid Hlh Hhh Hlow Hhigh Hfuel.
  - assert (high = low + 1) by (cbn in Hfuel; lia). subst high.
    rewrite bisect_S. cbv zeta. destruct (Z.ltb_spec low (low + 1)); [|lia].
    replace ((low + (low + 1)) / 2) with low
      by (apply Z.div_unique with (r := 1); lia).
    rewrite Z.ltb_irrefl. cbn [andb].
    destruct (Z.ltb_spec low (low + 1)); [|lia]. cbn [andb].
    destruct (Z.ltb_spec x (low ^ n)); [lia|].
    exists low. split; [done|]. split; [lia|]. left.
    assert (x <= (low + 1) ^ n) by (destruct Hhigh as [?|?]; [lia|congruence]).
    split; [lia|]. intros E. destruct Hhigh as [?|?]; [lia|done].
  - rewrite bisect_S. cbv zeta. destruct (Z.ltb_spec low high); [|lia].
    set (m := (low + high) / 2).
    assert (Hm : low <= m < high).
    { subst m. split.
      - apply Z.div_le_lower_bound; lia.
      - apply Z.div_lt_upper_bound; lia. }
    assert (Hsz : 2 * 2 ^ Z.of_nat fuel = 2 ^ Z.of_nat (S fuel)).
    { rewrite Nat2Z.inj_succ, Z.pow_succ_r by lia. done. }
    assert (Hm2 : 2 * m <= low + high < 2 * m + 2).
    { subst m. pose proof (Z.div_mod (low + high) 2 ltac:(lia)).
      pose proof (Z.mod_pos_bound (low + high) 2 ltac:(lia)). lia. }
    destruct (Z.ltb_spec low m) as [Hlm|Hlm]; cbn [andb].
    + destruct (Z.ltb_spec (m ^ n) x) as [Hmx|Hmx].
      * destruct (IH m high (Some m) ltac:(lia) ltac:(lia) Hmx Hhigh ltac:(lia))
          as (r & Hr & Hrb & Hspec).
        exists r. split; [done|]. split; [lia|].
        destruct Hspec as [?|[? ?]]; [by left|right; split; [done|lia]].
      * destruct (Z.ltb_spec m high); [|lia]. cbn [andb].
        destruct (Z.ltb_spec x (m ^ n)) as [Hxm|Hxm].
        -- destruct (IH low m (Some m) ltac:(lia) ltac:(lia) Hlow (or_introl Hxm) ltac:(lia))
             as (r & Hr & Hrb & Hspec).
           exists r. split; [done|]. split; [lia|]. done.
        -- exists m. split; [done|]. split; [lia|]. right. split; lia.
    + assert (Hml : m = low) by lia.
      assert (Hmln : m ^ n = low ^ n) by (f_equal; exact Hml).
      destruct (Z.ltb_spec m high); [|lia]. cbn [andb].
      destruct (Z.ltb_spec x (m ^ n)) as [Hxm|Hxm]; [lia|].
      exists m. split; [done|]. split; [lia|]. left.
      assert (Hm1 : (m + 1) ^ n = high ^ n) by (f_equal; lia).
      assert (x <= high ^ n) by (destruct Hhigh as [?|E]; [lia|by rewrite E]).
      split; [lia|]. intros E. destruct Hhigh as [?|?]; lia.
Qed.

Lemma find_invpow_spec x n :
  1 <= n -> 1 <= x ->
  exists r h, find_invpow x n = Ret r /\ is_pow2 h /\ h / 2 <= r < h /\
    ((r ^ n < x <= (r + 1) ^ n /\ (x = (r + 1) ^ n -> r + 1 = h)) \/
     (x = r ^ n /\ h / 2 < r)).
Proof.
  intros Hn Hx. unfold find_invpow.
  destruct (find_high_spec x n Hn (S (S (Z.to_nat (Z.log2 x)))) 1) as (h & Hh & Hh1 & Hp2 & Hxh & Hprev).
  - lia.
  - exists 0. split; [lia|done].
  - by left.
  - pose proof (Z.log2_nonneg x). cbn [Z.log2]. lia.
  - rewrite Hh. cbn [mbind outcome_bind bind].
    assert (Hlow : (h / 2) ^ n < x).
    { destruct Hprev as [->|?]; [|done]. change (1 / 2) with 0.
      rewrite Z.pow_0_l by lia. lia. }
    assert (Hhalf : 0 <= h / 2 < h).
    { split; [apply Z.div_pos; lia|apply Z.div_lt; lia]. }
    assert (Hsz : h - h / 2 <= 2 ^ Z.of_nat (Z.to_nat (Z.log2_up h))).
    { rewrite Z2Nat.id by apply Z.log2_up_nonneg.
      destruct (Z.eq_dec h 1) as [->|?]; [cbn; lia|].
      pose proof (Z.log2_up_spec h ltac:(lia)). lia. }
    destruct (bisect_spec x n h Hn Hp2 Hxh (Z.to_nat (Z.log2_up h)) (h / 2) h None
                Hhalf ltac:(lia) Hlow (or_intror eq_refl) Hsz)
      as (r & Hr & Hrb & Hspec).
    exists r, h. split; [done|]. split; [done|]. split; [done|]. done.
Qed.

Lemma pow2_between (h r : Z) :
  is_pow2 h -> is_pow2 r -> h / 2 < r < h -> False.
Proof.
  intros (i & Hi & ->) (j & Hj & ->) [Hlo Hhi].
  apply Z.pow_lt_mono_r_iff in Hhi; [|lia|lia].
  destruct (Z.eq_dec i 0) as [->|Hne]; [lia|].
  replace (2 ^ i / 2) with (2 ^ (i - 1)) in Hlo.
  - apply Z.pow_lt_mono_r_iff in Hlo; lia.
  - replace i with (Z.succ (i - 1)) at 2 by lia.
    rewrite Z.pow_succ_r by lia. rewrite Z.mul_comm, Z.div_mul; lia.
Qed.

Lemma find_invpow_pow2 (j n : Z) :
  1 <= n -> 0 <= j -> find_invpow ((2 ^ j) ^ n) n = Ret (2 ^ j - 1).
Proof.
  intros Hn Hj. assert (Hp : 1 <= 2 ^ j) by (pose proof (Z.pow_pos_nonneg 2 j); lia).
  assert (Hx : 1 <= (2 ^ j) ^ n) by (pose proof (Z.pow_pos_nonneg (2 ^ j) n); lia).
  destruct (find_invpow_spec _ n Hn Hx) as (r & h & -> & Hp2 & Hrb & Hspec).
  f_equal.
  assert (Hh0 : 0 <= h / 2).
  { destruct Hp2 as (i & Hi & ->). apply Z.div_pos; [|lia].
    pose proof (Z.pow_pos_nonneg 2 i). lia. }
  destruct Hspec as [[[Hlt Hle] _]|[Heq Hgt]].
  - apply Z.pow_lt_mono_l_iff in Hlt; [|lia..].
    apply Z.pow_le_mono_l_iff in Hle; lia.
  - apply Z.pow_inj_l in Heq; [|lia..]. exfalso.
    apply (pow2_between h r Hp2); [|lia]. exists j. split; [done|]. done.
Qed.

Lemma find_invpow_zero (n : Z) : 1 <= n -> find_invpow 0 n = Ret 0.
Proof.
  intros Hn. unfold find_invpow. cbn [Z.log2 Z.to_nat find_high].
  rewrite Z.pow_1_l by lia. cbn [Z.ltb Z.compare mbind outcome_bind bind].
  change (1 / 2) with 0. change (Z.log2_up 1) with 0. cbn [Z.to_nat].
  rewrite bisect_S. cbv zeta. change ((0 + 1) / 2) with 0.
  rewrite Z.pow_0_l by lia. reflexivity.
Qed.

(** Everywhere else the result is the floor of the root. *)
Lemma find_invpow_floor (x n : Z) :
  1 <= n -> 0 <= x -> (forall j, 0 <= j -> x <> (2 ^ j) ^ n) ->
  exists r, find_invpow x n = Ret r /\ 0 <= r /\ r ^ n <= x < (r + 1) ^ n.
Proof.
  intros Hn Hx Hnp. destruct (Z.eq_dec x 0) as [->|Hx0].
  { exists 0. split; [by apply find_invpow_zero|]. split; [done|].
    rewrite Z.pow_0_l, Z.pow_1_l by lia. lia. }
  destruct (find_invpow_spec x n Hn ltac:(lia)) as (r & h & -> & Hp2 & Hrb & Hspec).
  assert (Hh0 : 0 <= h / 2).
  { destruct Hp2 as (i & Hi & ->). apply Z.div_pos; [|lia].
    pose proof (Z.pow_pos_nonneg 2 i). lia. }
  exists r. split; [done|]. split; [lia|].
  destruct Hspec as [[[Hlt Hle] Heq]|[Heq Hgt]].
  - split; [lia|]. destruct (Z.eq_dec x ((r + 1) ^ n)) as [E|Hne]; [|lia].
    exfalso. destruct Hp2 as (i & Hi & Hh). apply (Hnp i Hi).
    rewrite E, (Heq E), Hh. done.
  - split; [lia|]. rewrite Heq. apply Z.pow_lt_mono_l; lia.
Qed.

Lemma find_invpow_round_trip (x k : Z) :
  1 <= k -> 0 <= x -> ~ is_pow2 x -> find_invpow (x ^ k) k = Ret x.
Proof.
  intros Hk Hx Hnp.
  destruct (find_invpow_floor (x ^ k) k Hk) as (r & -> & Hr & Hlo & Hhi).
  - apply Z.pow_nonneg. lia.
  - intros j Hj E. apply Z.pow_inj_l in E; [|lia..|].
    + apply Hnp. by exists j.
    + pose proof (Z.pow_pos_nonneg 2 j). lia.
  - f_equal. apply Z.pow_le_mono_l_iff in Hlo; [|lia..].
    apply Z.pow_lt_mono_l_iff in Hhi; lia.
Qed.

(** C2 (the code departs from the claim).  [find_invpow(x ** k, k)] is [x]
    unless [x] is a power of two: the bisection keeps [mid] strictly below the
    upper bracket, which then is the root, and returns one less.  So
    [find_invpow(1, 1)] is [0] and [find_invpow(8, 3)] is [1]. *)
Theorem find_invpow_power_of_two (j n : Z) :
  1 <= n -> 0 <= j -> find_invpow ((2 ^ j) ^ n) n = Ret (2 ^ j - 1).
Proof. apply find_invpow_pow2. Qed.

Lemma find_invpow_power_of_two_witness :
  find_invpow ((2 ^ 1) ^ 3) 3 = Ret (2 ^ 1 - 1) /\
  find_invpow ((2 ^ 0) ^ 1) 1 = Ret (2 ^ 0 - 1).
Proof.
  split.
  - apply (find_invpow_power_of_two 1 3); lia.
  - apply (find_invpow_power_of_two 0 1); lia.
Defined.

End IntegerRoot.

(** ** The Håstad attack *)

Section HastadClaims.
Import Hastads.

Lemma attack_not_singleton {PK : Type} (publickeys : list PublicKey)
    (cipher : list bytes) :
  size (usable_exponents publickeys) <> 1%nat ->
  attack (PrivateKey := PK) (KeyList publickeys) cipher = Ret (None, None).
Proof.
  intros Hsz. unfold attack. fold (usable_exponents publickeys).
  by rewrite bool_decide_true.
Qed.

Lemma hastad_no_usable_key {PK : Type} (publickeys : list PublicKey) (cipher : list bytes) :
  Forall (fun k => 11 <= pk_e k) publickeys ->
  attack (PrivateKey := PK) (KeyList publickeys) cipher = Ret (None, None).
Proof.
  intros Hall. apply attack_not_singleton. unfold usable_exponents.
  replace (filter (fun k => pk_e k < 11) publickeys) with (@nil PublicKey).
  - cbn. rewrite size_empty. lia.
  - symmetry. induction Hall as [|k l Hk _ IH]; [done|].
    rewrite filter_cons_False by lia. done.
Qed.

Lemma hastad_mixed_exponents {PK : Type} (publickeys : list PublicKey) (cipher : list bytes)
    (k1 k2 : PublicKey) :
  k1 ∈ publickeys -> k2 ∈ publickeys -> pk_e k1 < 11 -> pk_e k2 < 11 ->
  pk_e k1 <> pk_e k2 ->
  attack (PrivateKey := PK) (KeyList publickeys) cipher = Ret (None, None).
Proof.
  intros H1 H2 He1 He2 Hne. apply attack_not_singleton. intros Hsz.
  apply size_1_elem_of in Hsz as [x Hx].
  assert (Hin : forall k, k ∈ publickeys -> pk_e k < 11 -> pk_e k = x).
  { intros k Hk Hlt.
    assert (pk_e k ∈ usable_exponents publickeys) as Hm.
    { unfold usable_exponents. apply elem_of_list_to_set.
      apply list_elem_of_fmap. exists k. split; [done|].
      apply list_elem_of_filter. done. }
    rewrite Hx in Hm. by apply elem_of_singleton in Hm. }
  rewrite (Hin k1 H1 He1), (Hin k2 H2 He2) in Hne. done.
Qed.

(** C6 (amended).  The attack returns [(None, None)] whenever the set of
    exponents of the usable keys (those with [e < 11]) is not a singleton:
    no usable key at all, or usable keys with different exponents.  There is
    no test on the number of keys: one usable key is enough to go on. *)
Theorem hastad_exponents_not_singleton {PK : Type} (publickeys : list PublicKey)
    (cipher : list bytes) :
  size (usable_exponents publickeys) <> 1%nat ->
  attack (PrivateKey := PK) (KeyList publickeys) cipher = Ret (None, None).
Proof. apply attack_not_singleton. Qed.

Lemma hastad_exponents_not_singleton_witness :
  size (usable_exponents [key 15 3; key 77 5; key 91 65537]) <> 1%nat /\
  attack (PrivateKey := unit) (KeyList [key 15 3; key 77 5; key 91 65537]) [] = Ret (None, None).
Proof.
  split; [vm_compute; lia|].
  apply (hastad_exponents_not_singleton (PK := unit)). vm_compute. lia.
Defined.

(** C6 (counterexample).  A single usable key ([n = 1000003], [e = 3]) and
    the ciphertext [65 ** 3]: fewer than two usable keys, and the attack
    returns the plaintext ["A"]. *)
Lemma hastad_single_key_proceeds :
  let keys := [key 1000003 3] in
  let cipher := [[x04; x30; xc1]] in
  (length (filter (fun k => (pk_e k < 11)%Z) keys) < 2)%nat /\
  attack (PrivateKey := unit) (KeyList keys) cipher = Ret (None, Some ["A"%byte]) /\
  attack (PrivateKey := unit) (KeyList keys) cipher <> Ret (None, None).
Proof. vm_compute. split; [lia|]. split; [done|]. discriminate. Qed.

Lemma hastad_not_a_list {PK : Type} (k : PublicKey) (cipher : list bytes) :
  attack (PrivateKey := PK) (NotAList k) cipher = Ret (None, None).
Proof. reflexivity. Qed.

(** What the attack extracts before the conversion to bytes: the CRT
    value is [m ** e] itself, and its root is [m], or [m - 1] when [m] is a
    power of two. *)
Lemma hastad_recovered_integer (n : list Z) (m e : Z) :
  n <> [] -> Forall (fun n_i => 1 < n_i) n -> pairwise_coprime n = true ->
  1 <= e -> 0 <= m -> m ^ e < list_prod n ->
  (~ is_pow2 m ->
   (result ← chinese_remainder n (map (fun n_i => m ^ e mod n_i) n);
    find_invpow result e) = Ret m) /\
  (is_pow2 m ->
   (result ← chinese_remainder n (map (fun n_i => m ^ e mod n_i) n);
    find_invpow result e) = Ret (m - 1)).
Proof.
  intros Hne Hgt Hpc He Hm Hlt.
  rewrite (crt_round_trip n (m ^ e) Hne Hgt Hpc).
  rewrite Z.mod_small by (split; [apply Z.pow_nonneg; lia|done]).
  cbn [mbind outcome_bind bind]. split.
  - intros Hnp. by apply find_invpow_round_trip.
  - intros (j & Hj & ->). by apply find_invpow_pow2.
Qed.

(** *** From the root to the plaintext bytes *)

Lemma hex_digit_spec (d : Z) :
  0 <= d < 16 -> is_space (hex_digit d) = false /\ hex_value (hex_digit d) = Some d.
Proof.
  intros Hd.
  assert (Hcases : d = 0 \/ d = 1 \/ d = 2 \/ d = 3 \/ d = 4 \/ d = 5 \/ d = 6 \/ d = 7 \/
                   d = 8 \/ d = 9 \/ d = 10 \/ d = 11 \/ d = 12 \/ d = 13 \/ d = 14 \/ d = 15)
    by lia.
  repeat (destruct Hcases as [->|Hcases]; [split; reflexivity|]).
  subst d. split; reflexivity.
Qed.

Lemma fromhex_two_digits (d1 d0 : Z) (rest : string) (bs : bytes) :
  0 <= d1 < 16 -> 0 <= d0 < 16 -> fromhex rest = Ret bs ->
  fromhex (String (hex_digit d1) (String (hex_digit d0) rest))
  = Ret (byte_of_Z (16 * d1 + d0) :: bs).
Proof.
  intros H1 H0 Hrest. destruct (hex_digit_spec d1 H1) as [Hs1 Hv1].
  destruct (hex_digit_spec d0 H0) as [_ Hv0].
  cbn [fromhex]. rewrite Hs1, Hv1, Hv0. fold fromhex. rewrite Hrest. reflexivity.
Qed.

Lemma log2_div_256 (v : Z) : 256 <= v -> Z.log2 (v / 256) = Z.log2 v - 8.
Proof.
  intros Hv. change 256 with (2 ^ 8). rewrite <- Z.shiftr_div_pow2 by lia.
  rewrite Z.log2_shiftr by lia.
  assert (8 <= Z.log2 v) by (apply Z.log2_le_pow2; lia). lia.
Qed.

Lemma be_bytes_step (fuel : nat) (v : Z) (acc : bytes) :
  0 < v -> be_bytes (S fuel) v acc = be_bytes fuel (v / 256) (byte_of_Z (v mod 256) :: acc).
Proof. intros Hv. cbn [be_bytes]. destruct (Z.eqb_spec v 0); [lia|done]. Qed.

Lemma be_bytes_zero (fuel : nat) (acc : bytes) : be_bytes fuel 0 acc = acc.
Proof. by destruct fuel. Qed.

Lemma fromhex_hex_digits (n : nat) :
  forall fh fb v acc_s acc_b,
    0 < v < 256 ^ Z.of_nat n -> (2 * n <= S fh)%nat -> (n <= fb)%nat ->
    Z.odd (Z.log2 v / 4) = true ->
    fromhex acc_s = Ret acc_b ->
    fromhex (hex_digits fh v acc_s) = Ret (be_bytes fb v acc_b).
Proof.
  induction n as [|n IH]; intros fh fb v acc_s acc_b Hv Hfh Hfb Hodd Hacc.
  { cbn in Hv. lia. }
  assert (H16 : 16 <= v).
  { destruct (Z.le_gt_cases 16 v) as [|Hlt]; [done|]. exfalso.
    assert (Z.log2 v < 4) by (apply Z.log2_lt_pow2; lia).
    pose proof (Z.log2_nonneg v).
    rewrite Z.div_small in Hodd by lia. discriminate. }
  destruct fh as [|fh]; [lia|]. destruct fb as [|fb]; [lia|].
  cbn [hex_digits]. destruct (Z.ltb_spec v 16); [lia|].
  rewrite be_bytes_step by lia.
  assert (Hmod : v mod 256 = 16 * ((v / 16) mod 16) + v mod 16).
  { change 256 with (16 * 16). rewrite Z.rem_mul_r by lia. lia. }
  assert (Hd0 : 0 <= v mod 16 < 16) by (apply Z.mod_pos_bound; lia).
  assert (Hd1 : 0 <= (v / 16) mod 16 < 16) by (apply Z.mod_pos_bound; lia).
  assert (Htwo : fromhex (String (hex_digit ((v / 16) mod 16))
                            (String (hex_digit (v mod 16)) acc_s))
                 = Ret (byte_of_Z (v mod 256) :: acc_b)).
  { rewrite Hmod. by apply fromhex_two_digits. }
  destruct (Z.lt_ge_cases v 256) as [Hsmall|Hbig].
  - assert (Hq : v / 16 < 16) by (apply Z.div_lt_upper_bound; lia).
    assert (Hq0 : 0 <= v / 16) by (apply Z.div_pos; lia).
    rewrite (Z.div_small v 256), be_bytes_zero by lia.
    rewrite (Z.mod_small (v / 16) 16) in Htwo by lia.
    destruct fh as [|fh]; cbn [hex_digits].
    + rewrite (Z.mod_small (v / 16) 16) by lia. exact Htwo.
    + destruct (Z.ltb_spec (v / 16) 16); [|lia]. exact Htwo.
  - assert (Hq : 16 <= v / 16) by (apply Z.div_le_lower_bound; lia).
    assert (Hn : (1 <= n)%nat).
    { destruct n; [|lia]. cbn in Hv. lia. }
    destruct fh as [|fh]; [lia|]. cbn [hex_digits].
    destruct (Z.ltb_spec (v / 16) 16); [lia|].
    rewrite Z.div_div by lia. change (16 * 16) with 256.
    apply IH; [| lia | lia | | exact Htwo].
    + split; [apply Z.div_str_pos; lia|].
      apply Z.div_lt_upper_bound; [lia|].
      rewrite Nat2Z.inj_succ, Z.pow_succ_r in Hv by lia. lia.
    + rewrite log2_div_256 by lia.
      replace (Z.log2 v - 8) with (Z.log2 v + (-2) * 4) by lia.
      rewrite Z.div_add by lia. rewrite Z.odd_add. rewrite Hodd. reflexivity.
Qed.

Lemma fromhex_hex (m : Z) :
  0 < m -> Z.even (hex_length m) = true ->
  fromhex (drop2 (hex m)) = Ret (minimal_big_endian m).
Proof.
  intros Hm Heven. unfold hex. destruct (Z.ltb_spec m 0); [lia|].
  cbn [drop2]. unfold hex_of_nonneg, minimal_big_endian.
  pose proof (Z.log2_nonneg m) as Hl0.
  assert (Hodd : Z.odd (Z.log2 m / 4) = true).
  { unfold hex_length in Heven. rewrite Z.even_add in Heven.
    rewrite <- Z.negb_even. destruct (Z.even (Z.log2 m / 4)); [discriminate|done]. }
  assert (Hl4 : 4 <= Z.log2 m).
  { destruct (Z.le_gt_cases 4 (Z.log2 m)) as [|Hlt]; [done|].
    rewrite Z.div_small in Hodd by lia. discriminate. }
  pose proof (Z.div_mod (Z.log2 m) 8 ltac:(lia)) as Hdm.
  pose proof (Z.mod_pos_bound (Z.log2 m) 8 ltac:(lia)) as Hmb.
  assert (Hq0 : 0 <= Z.log2 m / 8) by (apply Z.div_pos; lia).
  apply (fromhex_hex_digits (Z.to_nat (Z.log2 m / 8 + 1))); [| lia | lia | done | done].
  split; [done|]. rewrite Z2Nat.id by lia.
  change 256 with (2 ^ 8). rewrite <- Z.pow_mul_r by lia.
  destruct (Z.log2_spec m Hm) as [_ Hup].
  eapply Z.lt_le_trans; [exact Hup|]. apply Z.pow_le_mono_r; lia.
Qed.

Lemma usable_exponents_single (keys : list PublicKey) (e : Z) :
  keys <> [] -> Forall (fun k => pk_e k = e) keys -> e < 11 ->
  filter (fun k => pk_e k < 11) keys = keys /\ usable_exponents keys = {[ e ]}.
Proof.
  intros Hne Hall He.
  assert (Hf : filter (fun k => pk_e k < 11) keys = keys).
  { clear Hne. induction Hall as [|k l Hk _ IH]; [done|].
    rewrite filter_cons_True by lia. by rewrite IH. }
  split; [done|]. unfold usable_exponents. rewrite Hf.
  apply set_eq. intros x. rewrite elem_of_list_to_set, elem_of_singleton.
  rewrite list_elem_of_fmap. split.
  - intros (k & -> & Hk). eapply Forall_forall in Hall; eauto.
  - intros ->. destruct keys as [|k l]; [done|]. exists k.
    apply Forall_cons in Hall as [Hk _]. split; [done|left].
Qed.

(** Where the claim of C1 does hold: the common exponent is below 11, the
    moduli are pairwise coprime and their product exceeds [m ** e], and [m]
    is neither a power of two nor written with an odd number of hexadecimal
    digits. *)
Lemma hastad_recovers_plaintext {PK : Type} (keys : list PublicKey) (cipher : list bytes)
    (m e : Z) :
  keys <> [] -> Forall (fun k => pk_e k = e) keys -> 1 <= e < 11 ->
  Forall (fun n_i => 1 < n_i) (map pk_n keys) ->
  pairwise_coprime (map pk_n keys) = true ->
  0 < m -> m ^ e < list_prod (map pk_n keys) ->
  map int_from_bytes_big cipher = map (fun n_i => m ^ e mod n_i) (map pk_n keys) ->
  ~ is_pow2 m -> Z.even (hex_length m) = true ->
  attack (PrivateKey := PK) (KeyList keys) cipher
  = Ret (None, Some (minimal_big_endian m)).
Proof.
  intros Hne Hall He Hgt Hpc Hm Hlt Hc Hnp Hev.
  destruct (usable_exponents_single keys e Hne Hall ltac:(lia)) as [Hf Hset].
  unfold attack. fold (usable_exponents keys). rewrite Hf, Hset, Hc.
  rewrite size_singleton. rewrite bool_decide_false by lia.
  rewrite elements_singleton.
  assert (Hnn : map pk_n keys <> []) by (destruct keys; done).
  destruct (hastad_recovered_integer (map pk_n keys) m e Hnn Hgt Hpc ltac:(lia) ltac:(lia) Hlt)
    as [Hroot _].
  specialize (Hroot Hnp).
  destruct (chinese_remainder _ _) as [result| |]; cbn [mbind outcome_bind bind] in *;
    try discriminate.
  rewrite Hroot. cbn [mbind outcome_bind bind].
  rewrite fromhex_hex by done. reflexivity.
Qed.


(** C1 (the code departs from the claim).  With [e = 3] and three
    pairwise coprime moduli whose product exceeds [m ** 3]:
    for [m = 256] the root comes out as [255] and the plaintext is [ff]
    instead of [01 00]; for [m = 5] the hexadecimal string ["5"] has an odd
    length and [bytes.fromhex] raises [ValueError]. *)
Theorem hastad_end_to_end_divergence :
  (* m = 256 = 0x0100: a power of two *)
  (pairwise_coprime [257; 259; 261] = true /\
   256 ^ 3 < 257 * 259 * 261 /\
   map int_from_bytes_big [[x01; x00]; [xe8]; [x88]] = map (fun n => 256 ^ 3 mod n) [257; 259; 261] /\
   minimal_big_endian 256 = [x01; x00] /\
   attack (PrivateKey := unit) (KeyList [key 257 3; key 259 3; key 261 3]) [[x01; x00]; [xe8]; [x88]]
   = Ret (None, Some [xff])) /\
  (* m = 5: a single hexadecimal digit *)
  (pairwise_coprime [7; 11; 13] = true /\
   5 ^ 3 < 7 * 11 * 13 /\
   map int_from_bytes_big [[x06]; [x04]; [x08]] = map (fun n => 5 ^ 3 mod n) [7; 11; 13] /\
   minimal_big_endian 5 = [x05] /\
   attack (PrivateKey := unit) (KeyList [key 7 3; key 11 3; key 13 3]) [[x06]; [x04]; [x08]]
   = Raise ValueError).
Proof. vm_compute. repeat split; done. Qed.

(** The example of the specification, [m] = "hi", goes through. *)
Example hastad_recovers_hi :
  map int_from_bytes_big [[x3d; xc2]; [x29; x09]; [x1d; xf0]]
    = map (fun n => 26729 ^ 3 mod n) [29989; 29993; 29995] /\
  minimal_big_endian 26729 = ["h"%byte; "i"%byte] /\
  attack (PrivateKey := unit) (KeyList [key 29989 3; key 29993 3; key 29995 3])
    [[x3d; xc2]; [x29; x09]; [x1d; xf0]]
  = Ret (None, Some ["h"%byte; "i"%byte]).
Proof. vm_compute. repeat split; done. Qed.

(** Two keys with the same modulus: Håstad does not apply, and the
    division by zero inside [mul_inv] reaches the caller. *)
Lemma hastad_shared_modulus_raises :
  attack (PrivateKey := unit) (KeyList [key 15 3; key 15 3]) [[x01]; [x01]]
  = Raise ZeroDivisionError.
Proof. vm_compute. reflexivity. Qed.

End HastadClaims.

(** ** Pruning of the lattice *)

Section Pruning.
Import BonehDurfee.


Lemma index_nat {A : Type} (l : list A) (a : nat) (x : A) :
  l !! a = Some x -> index l (Z.of_nat a) = Ret x.
Proof.
  intros Hl. pose proof (lookup_lt_Some _ _ _ Hl) as Hlt. unfold index.
  destruct (Z.ltb_spec (Z.of_nat a) 0); [lia|].
  destruct (Z.leb_spec 0 (Z.of_nat a)); [|lia].
  destruct (Z.ltb_spec (Z.of_nat a) (Z.of_nat (length l))); [|lia].
  cbn [andb]. by rewrite Nat2Z.id, Hl.
Qed.

Lemma pop_nat {A : Type} (l : list A) (a : nat) :
  (a < length l)%nat -> pop l (Z.of_nat a) = Ret (delete a l).
Proof.
  intros Hlt. unfold pop.
  destruct (Z.ltb_spec (Z.of_nat a) 0); [lia|].
  destruct (Z.leb_spec 0 (Z.of_nat a)); [|lia].
  destruct (Z.ltb_spec (Z.of_nat a) (Z.of_nat (length l))); [|lia].
  cbn [andb]. by rewrite Nat2Z.id.
Qed.

Lemma drop_from_above {A : Type} (d : list Z) (i : Z) (l : list A) :
  (forall k, k ∈ d -> k < i) -> drop_from d i l = l.
Proof.
  revert i. induction l as [|x l IH]; intros i Hd; [done|].
  cbn [drop_from]. rewrite bool_decide_false.
  - f_equal. apply IH. intros k Hk. specialize (Hd k Hk). lia.
  - intros Hi. specialize (Hd i Hi). lia.
Qed.

Lemma drop_from_ext {A : Type} (d d' : list Z) (i : Z) (l : list A) :
  (forall j, i <= j -> j ∈ d <-> j ∈ d') -> drop_from d i l = drop_from d' i l.
Proof.
  revert i. induction l as [|x l IH]; intros i Hd; [done|].
  cbn [drop_from]. rewrite (IH (i + 1)) by (intros j Hj; apply Hd; lia).
  destruct (decide (i ∈ d)) as [Hi|Hi].
  - rewrite !bool_decide_true; [done| |done]. by apply Hd.
  - rewrite !bool_decide_false; [done| |done]. intros Hi'. apply Hi. by apply Hd.
Qed.

Lemma drop_from_single {A : Type} (k i : Z) (l : list A) :
  i <= k -> drop_from [k] i l = delete (Z.to_nat (k - i)) l.
Proof.
  revert i. induction l as [|x l IH]; intros i Hik; [done|].
  cbn [drop_from]. destruct (decide (i = k)) as [->|Hne].
  - rewrite bool_decide_true by apply list_elem_of_singleton, eq_refl.
    rewrite Z.sub_diag. change (drop_from [k] (k + 1) l = l).
    apply drop_from_above. intros j Hj. apply list_elem_of_singleton in Hj. lia.
  - rewrite bool_decide_false by (intros Hi%list_elem_of_singleton; lia).
    rewrite IH by lia. replace (Z.to_nat (k - i)) with (S (Z.to_nat (k - (i + 1)))) by lia.
    done.
Qed.

Lemma drop_from_pair {A : Type} (k1 k2 i : Z) (l : list A) :
  i <= k2 < k1 ->
  drop_from [k1; k2] i l = delete (Z.to_nat (k2 - i)) (delete (Z.to_nat (k1 - i)) l).
Proof.
  revert i. induction l as [|x l IH]; intros i Hik; [done|].
  cbn [drop_from].
  replace (Z.to_nat (k1 - i)) with (S (Z.to_nat (k1 - (i + 1)))) by lia.
  destruct (decide (i = k2)) as [->|Hne].
  - rewrite bool_decide_true by (rewrite !elem_of_cons; auto).
    rewrite Z.sub_diag.
    change (drop_from [k1; k2] (k2 + 1) l = delete (Z.to_nat (k1 - (k2 + 1))) l).
    rewrite <- drop_from_single by lia. apply drop_from_ext.
    intros j Hj. rewrite !elem_of_cons, !elem_of_nil. lia.
  - rewrite bool_decide_false
      by (rewrite !elem_of_cons, elem_of_nil; lia).
    rewrite IH by lia. replace (Z.to_nat (k2 - i)) with (S (Z.to_nat (k2 - (i + 1)))) by lia.
    done.
Qed.

Lemma length_submatrix (L : list nat) (BB : matrix) : length (submatrix L BB) = length L.
Proof. unfold submatrix. by rewrite length_map. Qed.

Lemma nrows_submatrix (L : list nat) (BB : matrix) :
  nrows (submatrix L BB) = Z.of_nat (length L).
Proof. unfold nrows. by rewrite length_submatrix. Qed.

Lemma ncols_submatrix (L : list nat) (BB : matrix) :
  ncols (submatrix L BB) = Z.of_nat (length L).
Proof. destruct L; [done|]. cbn. by rewrite length_map. Qed.

Lemma entry_submatrix (L : list nat) (BB : matrix) (a b i j : nat) :
  L !! a = Some i -> L !! b = Some j ->
  entry (submatrix L BB) (Z.of_nat a) (Z.of_nat b) = Ret ((BB !!! i) !!! j).
Proof.
  intros Ha Hb. unfold entry, submatrix.
  rewrite (index_nat _ a (map (fun j => (BB !!! i) !!! j) L)).
  - cbn. apply index_nat. by rewrite list_lookup_fmap, Hb.
  - by rewrite list_lookup_fmap, Ha.
Qed.

Lemma delete_submatrix (L : list nat) (BB : matrix) (a : nat) :
  delete a (map (delete a) (submatrix L BB)) = submatrix (delete a L) BB.
Proof.
  unfold submatrix. rewrite <- !list_fmap_delete.
  rewrite <- list_fmap_compose. apply list_fmap_ext. intros _ i _. cbn.
  by rewrite list_fmap_delete.
Qed.

Lemma in_range_single (n a : nat) : (a < n)%nat -> in_range (Z.of_nat n) [Z.of_nat a] = true.
Proof.
  intros Hlt. cbn. destruct (Z.leb_spec 0 (Z.of_nat a)); [|lia].
  destruct (Z.ltb_spec (Z.of_nat a) (Z.of_nat n)); [done|lia].
Qed.

Lemma delete_one (L : list nat) (BB : matrix) (a : nat) :
  (a < length L)%nat ->
  (BB1 ← delete_columns (submatrix L BB) [Z.of_nat a]; delete_rows BB1 [Z.of_nat a])
  = Ret (submatrix (delete a L) BB).
Proof.
  intros Hlt. unfold delete_columns. rewrite ncols_submatrix, in_range_single by done.
  cbn [mbind outcome_bind bind]. unfold delete_rows.
  unfold nrows. rewrite length_map, length_submatrix, in_range_single by done.
  f_equal. rewrite drop_from_single by lia.
  rewrite Z.sub_0_r, Nat2Z.id, <- delete_submatrix. f_equal.
  apply list_fmap_ext. intros _ row _.
  rewrite drop_from_single by lia. by rewrite Z.sub_0_r, Nat2Z.id.
Qed.

Lemma in_range_pair (n a b : nat) :
  (a < n)%nat -> (b < n)%nat -> in_range (Z.of_nat n) [Z.of_nat b; Z.of_nat a] = true.
Proof.
  intros Ha Hb. cbn.
  destruct (Z.leb_spec 0 (Z.of_nat a)); [|lia].
  destruct (Z.ltb_spec (Z.of_nat a) (Z.of_nat n)); [|lia].
  destruct (Z.leb_spec 0 (Z.of_nat b)); [|lia].
  destruct (Z.ltb_spec (Z.of_nat b) (Z.of_nat n)); [done|lia].
Qed.

Lemma delete_two (L : list nat) (BB : matrix) (a b : nat) :
  (a < b)%nat -> (b < length L)%nat ->
  (BB1 ← delete_columns (submatrix L BB) [Z.of_nat b; Z.of_nat a];
   delete_rows BB1 [Z.of_nat b; Z.of_nat a])
  = Ret (submatrix (delete a (delete b L)) BB).
Proof.
  intros Hab Hlt. unfold delete_columns.
  rewrite ncols_submatrix, in_range_pair by lia.
  cbn [mbind outcome_bind bind]. unfold delete_rows.
  unfold nrows. rewrite length_map, length_submatrix, in_range_pair by lia.
  f_equal. rewrite drop_from_pair by lia.
  rewrite !Z.sub_0_r, !Nat2Z.id.
  rewrite <- (delete_submatrix (delete b L)), <- (delete_submatrix L).
  rewrite <- !list_fmap_delete.
  rewrite <- list_fmap_compose. apply list_fmap_ext. intros _ row _. cbn.
  rewrite drop_from_pair by lia. by rewrite !Z.sub_0_r, !Nat2Z.id.
Qed.

Lemma delete_one_steps (L : list nat) (BB : matrix) (a : nat) :
  (a < length L)%nat ->
  exists BB1, delete_columns (submatrix L BB) [Z.of_nat a] = Ret BB1 /\
              delete_rows BB1 [Z.of_nat a] = Ret (submatrix (delete a L) BB).
Proof.
  intros Hlt. pose proof (delete_one L BB a Hlt) as H.
  destruct (delete_columns (submatrix L BB) [Z.of_nat a]) as [BB1| |]; try discriminate.
  by exists BB1.
Qed.

Lemma delete_two_steps (L : list nat) (BB : matrix) (a b : nat) :
  (a < b)%nat -> (b < length L)%nat ->
  exists BB1, delete_columns (submatrix L BB) [Z.of_nat b; Z.of_nat a] = Ret BB1 /\
              delete_rows BB1 [Z.of_nat b; Z.of_nat a]
              = Ret (submatrix (delete a (delete b L)) BB).
Proof.
  intros Hab Hlt. pose proof (delete_two L BB a b Hab Hlt) as H.
  destruct (delete_columns (submatrix L BB) [Z.of_nat b; Z.of_nat a]) as [BB1| |];
    try discriminate.
  by exists BB1.
Qed.

Lemma affected_spec (L : list nat) (BB : matrix) (a i : nat) :
  L !! a = Some i ->
  forall jjs av avi,
    (forall jj, jj ∈ jjs -> 0 <= jj < Z.of_nat (length L)) ->
    exists c idx,
      affected (submatrix L BB) (Z.of_nat a) jjs av avi = Ret (c, idx) /\
      av <= c /\ (c = av -> idx = avi) /\
      (av < c -> idx ∈ jjs /\
                 exists b j, idx = Z.of_nat b /\ L !! b = Some j /\ (BB !!! j) !!! i <> 0).
Proof.
  intros Ha. induction jjs as [|jj jjs IH]; intros av avi Hjjs.
  - exists av, avi. split; [done|]. split; [lia|]. split; [done|lia].
  - assert (Hjj : 0 <= jj < Z.of_nat (length L)) by (apply Hjjs; left).
    assert (Hrest : forall k, k ∈ jjs -> 0 <= k < Z.of_nat (length L))
      by (intros k Hk; apply Hjjs; by right).
    clear Hjjs. destruct (Z_of_nat_complete jj ltac:(lia)) as [b ->].
    destruct (lookup_lt_is_Some_2 L b ltac:(lia)) as [j Hj].
    cbn [affected].
    rewrite (entry_submatrix L BB _ _ j i Hj Ha). cbn [mbind outcome_bind bind].
    destruct (Z.eqb_spec ((BB !!! j) !!! i) 0) as [Hz|Hnz]; cbn [negb].
    + destruct (IH av avi Hrest) as (c & idx & Hr & Hle & Heq & Hgt).
      exists c, idx. split; [done|]. split; [done|]. split; [done|].
      intros Hlt. destruct (Hgt Hlt) as [Hin Hw]. split; [by right|done].
    + destruct (IH (av + 1) (Z.of_nat b) Hrest) as (c & idx & Hr & Hle & Heq & Hgt).
      exists c, idx. split; [done|]. split; [lia|]. split; [lia|]. intros _.
      destruct (decide (av + 1 < c)) as [Hlt|Hnlt].
      * destruct (Hgt Hlt) as [Hin Hw]. split; [by right|done].
      * rewrite Heq by lia. split; [left|]. by exists b, j.
Qed.

Lemma deeper_spec (L : list nat) (BB : matrix) (b : nat) :
  (b < length L)%nat ->
  forall kks init,
    (forall kk, kk ∈ kks -> 0 <= kk < Z.of_nat (length L)) ->
    exists r, deeper (submatrix L BB) (Z.of_nat b) kks init = Ret r.
Proof.
  intros Hb. destruct (lookup_lt_is_Some_2 L b Hb) as [j Hj].
  induction kks as [|kk kks IH]; intros init Hkks.
  - by exists init.
  - assert (Hkk : 0 <= kk < Z.of_nat (length L)) by (apply Hkks; left).
    assert (Hrest : forall k, k ∈ kks -> 0 <= k < Z.of_nat (length L))
      by (intros k Hk; apply Hkks; by right).
    clear Hkks. destruct (Z_of_nat_complete kk ltac:(lia)) as [c ->].
    destruct (lookup_lt_is_Some_2 L c ltac:(lia)) as [k Hk].
    cbn [deeper]. rewrite (entry_submatrix L BB _ _ k j Hk Hj).
    cbn [mbind outcome_bind bind].
    destruct (negb _); by apply IH.
Qed.

Lemma increasing_seq (n : nat) : increasing (seq 0 n).
Proof.
  intros a b x y Hab Ha Hb.
  apply lookup_seq in Ha as [-> _]. apply lookup_seq in Hb as [-> _]. lia.
Qed.

Lemma increasing_delete (L : list nat) (a : nat) : increasing L -> increasing (delete a L).
Proof.
  intros Hinc p q x y Hpq Hp Hq.
  destruct (decide (q < a)%nat).
  - rewrite list_lookup_delete_lt in Hp, Hq by lia. eapply (Hinc p q); [lia|done|done].
  - rewrite list_lookup_delete_ge in Hq by lia. destruct (decide (p < a)%nat).
    + rewrite list_lookup_delete_lt in Hp by lia. eapply (Hinc p (S q)); [lia|done|done].
    + rewrite list_lookup_delete_ge in Hp by lia. eapply (Hinc (S p) (S q)); [lia|done|done].
Qed.

Lemma increasing_not_in_delete (L : list nat) (a i : nat) :
  increasing L -> L !! a = Some i -> i ∉ delete a L.
Proof.
  intros Hinc Ha Hin. apply list_elem_of_lookup in Hin as [p Hp].
  destruct (decide (p < a)%nat).
  - rewrite list_lookup_delete_lt in Hp by lia.
    pose proof (Hinc p a i i ltac:(lia) Hp Ha). lia.
  - rewrite list_lookup_delete_ge in Hp by lia.
    pose proof (Hinc a (S p) i i ltac:(lia) Ha Hp). lia.
Qed.

Lemma elem_of_delete_other (L : list nat) (a i x : nat) :
  L !! a = Some i -> x ∈ L -> x <> i -> x ∈ delete a L.
Proof.
  intros Ha Hx Hne. apply list_elem_of_lookup in Hx as [p Hp].
  assert (p <> a) by (intros ->; congruence).
  apply list_elem_of_lookup. destruct (decide (p < a)%nat).
  - exists p. by rewrite list_lookup_delete_lt.
  - exists (pred p). rewrite list_lookup_delete_ge by lia.
    replace (S (pred p)) with p by lia. done.
Qed.

Section Invariant.
Context {M : Type} `{!Inhabited M}.
Variables (cfg : config) (BB0 : matrix) (mons0 : list M) (bound : Z).

Local Abbreviation sel L := ((fun i => mons0 !!! i) <$> L).
Local Abbreviation pruned_from L r := (pruned_from BB0 mons0 bound L r).

Lemma pruned_from_refl (L : list nat) : pruned_from L (Ret (submatrix L BB0, sel L)).
Proof. exists L. split; [done|]. split; [done|]. intros i Hi Hn. done. Qed.

Lemma pop_sel (L : list nat) (a : nat) :
  (a < length L)%nat -> pop (sel L) (Z.of_nat a) = Ret (sel (delete a L)).
Proof.
  intros Hlt. rewrite pop_nat by (by rewrite length_fmap).
  by rewrite list_fmap_delete.
Qed.

Lemma scan_spec (recurse : matrix -> list M -> Z -> Z -> outcome (matrix * list M))
    (L : list nat) (current : Z) :
  increasing L -> current < Z.of_nat (length L) ->
  (forall L' c', increasing L' -> -1 <= c' < Z.of_nat (length L') -> c' < current ->
                 pruned_from L' (recurse (submatrix L' BB0) (sel L') bound c')) ->
  forall iis, (forall ii, ii ∈ iis -> 0 <= ii <= current) ->
    pruned_from L (scan recurse (submatrix L BB0) (sel L) bound iis).
Proof.
  intros Hinc Hcur Hrec. induction iis as [|ii iis IH]; intros Hiis.
  - apply pruned_from_refl.
  - assert (Hii : 0 <= ii <= current) by (apply Hiis; left).
    assert (Hrest : forall k, k ∈ iis -> 0 <= k <= current)
      by (intros k Hk; apply Hiis; by right).
    specialize (IH Hrest). clear Hiis Hrest.
    destruct (Z_of_nat_complete ii ltac:(lia)) as [a ->].
    destruct (lookup_lt_is_Some_2 L a ltac:(lia)) as [i Hi].
    cbn [scan]. rewrite (entry_submatrix L BB0 a a i i Hi Hi).
    cbn [mbind outcome_bind bind].
    destruct (Z.leb_spec bound ((BB0 !!! i) !!! i)) as [Hbd|_]; [|exact IH].
    destruct (affected_spec L BB0 a i Hi (range (Z.of_nat a + 1) (nrows (submatrix L BB0))) 0 0)
      as (c & idx & Haff & Hc0 & _ & Hidx).
    { intros jj Hjj. unfold range in Hjj. apply elem_of_seqZ in Hjj.
      rewrite nrows_submatrix in Hjj. lia. }
    rewrite Haff. cbn [mbind outcome_bind bind].
    destruct (Z.eqb_spec c 0) as [->|Hc].
    { (* level 0 *)
      destruct (delete_one_steps L BB0 a ltac:(lia)) as (BB1 & Hdc & Hdr).
      rewrite Hdc. cbn [mbind outcome_bind bind]. rewrite Hdr.
      cbn [mbind outcome_bind bind]. rewrite pop_sel by lia.
      cbn [mbind outcome_bind bind].
      destruct (Hrec (delete a L) (Z.of_nat a - 1)) as (keep & Hk & Hsub & Hdel).
      - by apply increasing_delete.
      - rewrite length_delete by (by eexists). lia.
      - lia.
      - exists keep. split; [done|]. split.
        + etrans; [exact Hsub|apply sublist_delete].
        + intros x Hx Hnk. destruct (decide (x = i)) as [->|Hne]; [by left|].
          apply Hdel; [|done]. by eapply elem_of_delete_other. }
    destruct (Z.eqb_spec c 1) as [->|_]; [|exact IH].
    destruct (Hidx ltac:(lia)) as (Hin & b & j & -> & Hj & Hnz).
    unfold range in Hin. apply elem_of_seqZ in Hin. rewrite nrows_submatrix in Hin.
    assert (Hab : (a < b)%nat) by lia. assert (Hb : (b < length L)%nat) by lia.
    destruct (deeper_spec L BB0 b Hb (range (Z.of_nat b + 1) (nrows (submatrix L BB0))) true)
      as [ad Had].
    { intros kk Hkk. unfold range in Hkk. apply elem_of_seqZ in Hkk.
      rewrite nrows_submatrix in Hkk. lia. }
    rewrite Had. cbn [mbind outcome_bind bind].
    destruct ad; cbn [mbind outcome_bind bind]; [|exact IH].
    rewrite (entry_submatrix L BB0 b b j j Hj Hj). cbn [mbind outcome_bind bind].
    destruct (Z.ltb_spec (Z.abs (bound - (BB0 !!! j) !!! j)) (Z.abs (bound - (BB0 !!! i) !!! i)))
      as [Hcl|_]; [|exact IH].
    destruct (delete_two_steps L BB0 a b Hab Hb) as (BB1 & Hdc & Hdr).
    rewrite Hdc. cbn [mbind outcome_bind bind]. rewrite Hdr.
    cbn [mbind outcome_bind bind]. rewrite pop_sel by lia.
    cbn [mbind outcome_bind bind].
    assert (Hlb : length (delete b L) = pred (length L))
      by (rewrite length_delete by (by eexists); lia).
    rewrite pop_sel by lia. cbn [mbind outcome_bind bind].
    assert (Hia : delete b L !! a = Some i) by (by rewrite list_lookup_delete_lt).
    destruct (Hrec (delete a (delete b L)) (Z.of_nat a - 1)) as (keep & Hk & Hsub & Hdel).
    + by do 2 apply increasing_delete.
    + rewrite length_delete by (by eexists). lia.
    + lia.
    + exists keep. split; [done|]. split.
      * etrans; [exact Hsub|]. etrans; apply sublist_delete.
      * assert (Hik : i ∉ keep).
        { intros Hik. eapply (increasing_not_in_delete (delete b L) a i).
          - by apply increasing_delete.
          - done.
          - eapply elem_of_sublist; [exact Hik|exact Hsub]. }
        intros x Hx Hnk. destruct (decide (x = i)) as [->|Hne]; [by left|].
        destruct (decide (x = j)) as [->|Hnj].
        -- right. exists i. split; [done|]. split; [by eapply (Hinc a b)|]. done.
        -- apply Hdel; [|done]. eapply elem_of_delete_other; [done| |done].
           by eapply elem_of_delete_other.
Qed.

Lemma remove_unhelpful_rec_spec (fuel : nat) :
  forall L current,
    increasing L -> -1 <= current < Z.of_nat (length L) ->
    (Z.to_nat (current + 1) < fuel)%nat ->
    pruned_from L (remove_unhelpful_rec cfg fuel (submatrix L BB0) (sel L) bound current).
Proof.
  induction fuel as [|fuel IH]; intros L current Hinc Hcur Hfuel; [lia|].
  cbn [remove_unhelpful_rec].
  destruct ((current =? -1) || (nrows (submatrix L BB0) <=? dimension_min cfg));
    [apply pruned_from_refl|].
  apply (scan_spec _ L current); [done|lia| |].
  - intros L' c' Hinc' Hc' Hlt. apply IH; [done|done|lia].
  - intros ii Hii. unfold range_down in Hii.
    apply elem_of_reverse, elem_of_seqZ in Hii. lia.
Qed.

(** The same run, with the reason of every removal. *)

Lemma affected_count (L : list nat) (a i : nat) :
  L !! a = Some i ->
  forall jjs av avi,
    (forall jj, jj ∈ jjs -> 0 <= jj < Z.of_nat (length L)) ->
    exists c idx,
      affected (submatrix L BB0) (Z.of_nat a) jjs av avi = Ret (c, idx) /\
      av <= c /\
      (c = av ->
       idx = avi /\
       forall b k, Z.of_nat b ∈ jjs -> L !! b = Some k -> (BB0 !!! k) !!! i = 0) /\
      (c = av + 1 ->
       exists b j, idx = Z.of_nat b /\ Z.of_nat b ∈ jjs /\ L !! b = Some j /\
                   (BB0 !!! j) !!! i <> 0 /\
                   forall b' k, Z.of_nat b' ∈ jjs -> b' <> b -> L !! b' = Some k ->
                                (BB0 !!! k) !!! i = 0).
Proof.
  intros Ha. induction jjs as [|jj jjs IH]; intros av avi Hjjs.
  - exists av, avi. split; [done|]. split; [lia|]. split.
    + intros _. split; [done|]. intros b k Hb. by apply elem_of_nil in Hb.
    + lia.
  - assert (Hjj : 0 <= jj < Z.of_nat (length L)) by (apply Hjjs; left).
    assert (Hrest : forall k, k ∈ jjs -> 0 <= k < Z.of_nat (length L))
      by (intros k Hk; apply Hjjs; by right).
    clear Hjjs. destruct (Z_of_nat_complete jj ltac:(lia)) as [b0 ->].
    destruct (lookup_lt_is_Some_2 L b0 ltac:(lia)) as [j0 Hj0].
    cbn [affected].
    rewrite (entry_submatrix L BB0 _ _ j0 i Hj0 Ha). cbn [mbind outcome_bind bind].
    destruct (Z.eqb_spec ((BB0 !!! j0) !!! i) 0) as [Hz|Hnz]; cbn [negb].
    + destruct (IH av avi Hrest) as (c & idx & Hr & Hle & Heq & Hone).
      exists c, idx. split; [done|]. split; [done|]. split.
      * intros Hc. destruct (Heq Hc) as [-> Hall]. split; [done|].
        intros b k Hb Hk. apply elem_of_cons in Hb as [Hb|Hb].
        -- apply Nat2Z.inj in Hb as ->. congruence.
        -- by eapply Hall.
      * intros Hc. destruct (Hone Hc) as (b & j & -> & Hin & Hj & Hn & Huniq).
        exists b, j. split; [done|]. split; [by right|]. split; [done|]. split; [done|].
        intros b' k Hb' Hne Hk. apply elem_of_cons in Hb' as [Hb'|Hb'].
        -- apply Nat2Z.inj in Hb' as ->. congruence.
        -- by eapply Huniq.
    + destruct (IH (av + 1) (Z.of_nat b0) Hrest) as (c & idx & Hr & Hle & Heq & _).
      exists c, idx. split; [done|]. split; [lia|]. split; [lia|].
      intros Hc. destruct (Heq Hc) as [-> Hall].
      exists b0, j0. split; [done|]. split; [left|]. split; [done|]. split; [done|].
      intros b' k Hb' Hne Hk. apply elem_of_cons in Hb' as [Hb'|Hb'].
      * apply Nat2Z.inj in Hb'. lia.
      * by eapply Hall.
Qed.

Lemma deeper_true (L : list nat) (b j : nat) :
  L !! b = Some j ->
  forall kks init,
    (forall kk, kk ∈ kks -> 0 <= kk < Z.of_nat (length L)) ->
    exists r, deeper (submatrix L BB0) (Z.of_nat b) kks init = Ret r /\
      (r = true ->
       init = true /\
       forall c k, Z.of_nat c ∈ kks -> L !! c = Some k -> (BB0 !!! k) !!! j = 0).
Proof.
  intros Hj. induction kks as [|kk kks IH]; intros init Hkks.
  - exists init. split; [done|]. intros ->. split; [done|].
    intros c k Hc. by apply elem_of_nil in Hc.
  - assert (Hkk : 0 <= kk < Z.of_nat (length L)) by (apply Hkks; left).
    assert (Hrest : forall k, k ∈ kks -> 0 <= k < Z.of_nat (length L))
      by (intros k Hk; apply Hkks; by right).
    clear Hkks. destruct (Z_of_nat_complete kk ltac:(lia)) as [c0 ->].
    destruct (lookup_lt_is_Some_2 L c0 ltac:(lia)) as [k0 Hk0].
    cbn [deeper]. rewrite (entry_submatrix L BB0 _ _ k0 j Hk0 Hj).
    cbn [mbind outcome_bind bind].
    destruct (Z.eqb_spec ((BB0 !!! k0) !!! j) 0) as [Hz|Hnz]; cbn [negb].
    + destruct (IH init Hrest) as (r & Hr & Htrue). exists r. split; [done|].
      intros Hrt. destruct (Htrue Hrt) as [-> Hall]. split; [done|].
      intros c k Hc Hk. apply elem_of_cons in Hc as [Hc|Hc].
      * apply Nat2Z.inj in Hc as ->. congruence.
      * by eapply Hall.
    + destruct (IH false Hrest) as (r & Hr & Htrue). exists r. split; [done|].
      intros Hrt. by destruct (Htrue Hrt) as [? _].
Qed.

(** [r] is a principal submatrix reached from [L] by the removals of
    [pruning]. *)
Definition pruned_by (L : list nat) (r : outcome (matrix * list M)) : Prop :=
  exists keep, r = Ret (submatrix keep BB0, sel keep) /\ pruning BB0 bound L keep.

Lemma pruned_by_refl (L : list nat) : pruned_by L (Ret (submatrix L BB0, sel L)).
Proof. exists L. split; [done|]. apply pruning_stop. Qed.

Lemma later_in_range (L : list nat) (a c : nat) (k : nat) :
  (a < c)%nat -> L !! c = Some k ->
  Z.of_nat c ∈ range (Z.of_nat a + 1) (nrows (submatrix L BB0)).
Proof.
  intros Hac Hk. pose proof (lookup_lt_Some _ _ _ Hk).
  unfold range. apply elem_of_seqZ. rewrite nrows_submatrix. lia.
Qed.

Lemma scan_pruned_by (recurse : matrix -> list M -> Z -> Z -> outcome (matrix * list M))
    (L : list nat) (current : Z) :
  current < Z.of_nat (length L) ->
  (forall L' c', -1 <= c' < Z.of_nat (length L') -> c' < current ->
                 pruned_by L' (recurse (submatrix L' BB0) (sel L') bound c')) ->
  forall iis, (forall ii, ii ∈ iis -> 0 <= ii <= current) ->
    pruned_by L (scan recurse (submatrix L BB0) (sel L) bound iis).
Proof.
  intros Hcur Hrec. induction iis as [|ii iis IH]; intros Hiis.
  - apply pruned_by_refl.
  - assert (Hii : 0 <= ii <= current) by (apply Hiis; left).
    assert (Hrest : forall k, k ∈ iis -> 0 <= k <= current)
      by (intros k Hk; apply Hiis; by right).
    specialize (IH Hrest). clear Hiis Hrest.
    destruct (Z_of_nat_complete ii ltac:(lia)) as [a ->].
    destruct (lookup_lt_is_Some_2 L a ltac:(lia)) as [i Hi].
    cbn [scan]. rewrite (entry_submatrix L BB0 a a i i Hi Hi).
    cbn [mbind outcome_bind bind].
    destruct (Z.leb_spec bound ((BB0 !!! i) !!! i)) as [Hbd|_]; [|exact IH].
    destruct (affected_count L a i Hi (range (Z.of_nat a + 1) (nrows (submatrix L BB0))) 0 0)
      as (c & idx & Haff & Hc0 & Hnone & Hone).
    { intros jj Hjj. unfold range in Hjj. apply elem_of_seqZ in Hjj.
      rewrite nrows_submatrix in Hjj. lia. }
    rewrite Haff. cbn [mbind outcome_bind bind].
    destruct (Z.eqb_spec c 0) as [->|Hc].
    { (* level 0 *)
      destruct (Hnone eq_refl) as [_ Hall].
      destruct (delete_one_steps L BB0 a ltac:(lia)) as (BB1 & Hdc & Hdr).
      rewrite Hdc. cbn [mbind outcome_bind bind]. rewrite Hdr.
      cbn [mbind outcome_bind bind]. rewrite pop_sel by lia.
      cbn [mbind outcome_bind bind].
      destruct (Hrec (delete a L) (Z.of_nat a - 1)) as (keep & Hk & Hp).
      - rewrite length_delete by (by eexists). lia.
      - lia.
      - exists keep. split; [done|].
        apply (pruning_level0 _ _ L keep a i); [done|done| |done].
        intros c k Hac _ Hk'. apply (Hall c k); [|exact Hk']. by eapply later_in_range. }
    destruct (Z.eqb_spec c 1) as [->|_]; [|exact IH].
    destruct (Hone eq_refl) as (b & j & -> & Hin & Hj & Hnz & Huniq).
    unfold range in Hin. apply elem_of_seqZ in Hin. rewrite nrows_submatrix in Hin.
    assert (Hab : (a < b)%nat) by lia. assert (Hb : (b < length L)%nat) by lia.
    destruct (deeper_true L b j Hj (range (Z.of_nat b + 1) (nrows (submatrix L BB0))) true)
      as (ad & Had & Hdeep).
    { intros kk Hkk. unfold range in Hkk. apply elem_of_seqZ in Hkk.
      rewrite nrows_submatrix in Hkk. lia. }
    rewrite Had. cbn [mbind outcome_bind bind].
    destruct ad; cbn [mbind outcome_bind bind]; [|exact IH].
    destruct (Hdeep eq_refl) as [_ Hclear].
    rewrite (entry_submatrix L BB0 b b j j Hj Hj). cbn [mbind outcome_bind bind].
    destruct (Z.ltb_spec (Z.abs (bound - (BB0 !!! j) !!! j)) (Z.abs (bound - (BB0 !!! i) !!! i)))
      as [Hcl|_]; [|exact IH].
    destruct (delete_two_steps L BB0 a b Hab Hb) as (BB1 & Hdc & Hdr).
    rewrite Hdc. cbn [mbind outcome_bind bind]. rewrite Hdr.
    cbn [mbind outcome_bind bind]. rewrite pop_sel by lia.
    cbn [mbind outcome_bind bind].
    assert (Hlb : length (delete b L) = pred (length L))
      by (rewrite length_delete by (by eexists); lia).
    rewrite pop_sel by lia. cbn [mbind outcome_bind bind].
    destruct (Hrec (delete a (delete b L)) (Z.of_nat a - 1)) as (keep & Hk & Hp).
    + rewrite length_delete by (rewrite list_lookup_delete_lt by lia; by eexists). lia.
    + lia.
    + exists keep. split; [done|].
      apply (pruning_level1 _ _ L keep a b i j); try done.
      * intros c k Hac Hne Hk'. apply (Huniq c k); [|intros ->; by apply Hne|exact Hk'].
        by eapply later_in_range.
      * intros c k Hbc _ Hk'. apply (Hclear c k); [|exact Hk']. by eapply later_in_range.
Qed.

Lemma remove_unhelpful_rec_pruned_by (fuel : nat) :
  forall L current,
    -1 <= current < Z.of_nat (length L) ->
    (Z.to_nat (current + 1) < fuel)%nat ->
    pruned_by L (remove_unhelpful_rec cfg fuel (submatrix L BB0) (sel L) bound current).
Proof.
  induction fuel as [|fuel IH]; intros L current Hcur Hfuel; [lia|].
  cbn [remove_unhelpful_rec].
  destruct ((current =? -1) || (nrows (submatrix L BB0) <=? dimension_min cfg));
    [apply pruned_by_refl|].
  apply (scan_pruned_by _ L current); [lia| |].
  - intros L' c' Hc' Hlt. apply IH; [done|lia].
  - intros ii Hii. unfold range_down in Hii.
    apply elem_of_reverse, elem_of_seqZ in Hii. lia.
Qed.

End Invariant.

(** What a run of removals implies for each index that is gone. *)

Lemma pruning_sublist (BB : matrix) (bound : Z) (L keep : list nat) :
  pruning BB bound L keep -> keep `sublist_of` L.
Proof.
  induction 1 as [L|L keep a i _ _ _ _ IH|L keep a b i j _ _ _ _ _ _ _ _ _ IH]; [done| |].
  - etrans; [exact IH|apply sublist_delete].
  - etrans; [exact IH|]. etrans; apply sublist_delete.
Qed.

Lemma pruning_deleted_ok (BB : matrix) (bound : Z) (L keep : list nat) :
  pruning BB bound L keep -> increasing L ->
  forall x, x ∈ L -> x ∉ keep -> deleted_ok BB bound keep x.
Proof.
  induction 1 as [L|L keep a i Hi Hbd _ Hp IH|L keep a b i j Hab Hi Hj Hbd Hnz _ _ Hcl Hp IH];
    intros Hinc x Hx Hnk; [done| |].
  - destruct (decide (x = i)) as [->|Hne]; [by left|].
    apply IH; [by apply increasing_delete| |done]. by eapply elem_of_delete_other.
  - assert (Hia : delete b L !! a = Some i) by (by rewrite list_lookup_delete_lt).
    assert (Hik : i ∉ keep).
    { intros Hik. eapply (increasing_not_in_delete (delete b L) a i).
      - by apply increasing_delete.
      - done.
      - eapply elem_of_sublist; [exact Hik|]. by eapply pruning_sublist. }
    destruct (decide (x = i)) as [->|Hne]; [by left|].
    destruct (decide (x = j)) as [->|Hnj].
    + right. exists i. split; [done|]. split; [by eapply (Hinc a b)|]. done.
    + apply IH; [by do 2 apply increasing_delete| |done].
      eapply elem_of_delete_other; [done| |done]. by eapply elem_of_delete_other.
Qed.

Lemma lookup_total_seq_id {A : Type} `{!Inhabited A} (l : list A) :
  (fun i => l !!! i) <$> seq 0 (length l) = l.
Proof.
  apply list_eq. intros k. rewrite list_lookup_fmap.
  destruct (decide (k < length l)%nat) as [Hlt|Hge].
  - rewrite lookup_seq_lt by done. cbn.
    symmetry. by apply list_lookup_lookup_total_lt.
  - rewrite lookup_seq_ge by lia. cbn. symmetry. apply lookup_ge_None. lia.
Qed.

Lemma is_square_rows (BB : matrix) (n : nat) :
  is_square BB = true -> length BB = n -> Forall (fun r => length r = n) BB.
Proof.
  unfold is_square, nrows. intros Hsq Hn. apply Forall_forall. intros r Hr.
  rewrite forallb_forall in Hsq. specialize (Hsq r (proj1 (list_elem_of_In _ _) Hr)).
  apply Z.eqb_eq in Hsq. lia.
Qed.

Lemma submatrix_all (BB : matrix) (n : nat) :
  is_square BB = true -> length BB = n -> submatrix (seq 0 n) BB = BB.
Proof.
  intros Hsq Hn. pose proof (is_square_rows BB n Hsq Hn) as Hrows.
  unfold submatrix.
  transitivity ((fun i => BB !!! i) <$> seq 0 n);
    [|rewrite <- Hn; apply lookup_total_seq_id].
  apply list_fmap_ext. intros k i Hk. cbn.
  apply lookup_seq in Hk as [-> Hlt]. cbn.
  assert (Hlen : length (BB !!! k) = n).
  { eapply Forall_forall in Hrows; [exact Hrows|].
    apply list_elem_of_lookup. exists k. apply list_lookup_lookup_total_lt. lia. }
  rewrite <- Hlen at 1. apply lookup_total_seq_id.
Qed.

Lemma is_square_submatrix (keep : list nat) (BB : matrix) :
  is_square (submatrix keep BB) = true.
Proof.
  unfold is_square. apply forallb_forall. intros r Hr.
  apply list_elem_of_In in Hr. unfold submatrix in Hr.
  apply list_elem_of_fmap in Hr as (i & -> & _).
  rewrite nrows_submatrix, length_map. apply Z.eqb_refl.
Qed.

(** C10 (amended).  On a square matrix with as many labels as rows,
    [remove_unhelpful] returns the principal submatrix on a set [keep] of
    indices together with the labels of the same indices: rows go with
    their columns and their labels, the result is square and as long as the
    label list.  [keep] is reached from all the indices by the removals of
    [pruning], each made on the lattice as pruned so far: a row whose
    diagonal entry reaches the bound goes alone when no later row has an
    entry in its column, and together with the single later row that has
    one when no row after that one has an entry in that one's column and
    that one's diagonal entry lies closer to the bound.  So an index is
    dropped because its diagonal entry reaches the bound, or as that single
    later row, which may well be below the bound. *)
Theorem remove_unhelpful_sync {M : Type} (cfg : config) (BB : matrix) (mons : list M)
    (bound current : Z) :
  is_square BB = true -> nrows BB = Z.of_nat (length mons) ->
  -1 <= current < nrows BB ->
  exists keep mons',
    remove_unhelpful cfg BB mons bound current = Ret (submatrix keep BB, mons') /\
    keep `sublist_of` seq 0 (length mons) /\
    is_square (submatrix keep BB) = true /\
    Z.of_nat (length mons') = nrows (submatrix keep BB) /\
    (forall k i, keep !! k = Some i -> mons' !! k = mons !! i) /\
    (forall i, (i < length mons)%nat -> i ∉ keep -> deleted_ok BB bound keep i) /\
    pruning BB bound (seq 0 (length mons)) keep.
Proof.
  intros Hsq Hn Hcur. unfold nrows in Hn, Hcur. apply Nat2Z.inj in Hn.
  destruct mons as [|m0 mons_tl] eqn:Hmons.
  { destruct BB; [|done]. assert (current = -1) by (cbn in Hcur; lia). subst current.
    exists [], []. cbn. split; [done|]. split; [done|]. split; [done|]. split; [done|].
    split; [done|]. split; [|apply pruning_stop]. intros i Hi. cbn in Hi. lia. }
  rewrite <- Hmons in *. clear Hmons mons_tl.
  pose (HI := populate m0 : Inhabited M).
  pose proof (remove_unhelpful_rec_pruned_by cfg BB mons bound (S (Z.to_nat (current + 1)))
                (seq 0 (length mons)) current) as Hspec.
  rewrite length_seq, submatrix_all, lookup_total_seq_id in Hspec by done.
  destruct Hspec as (keep & Hk & Hp); [lia|lia|].
  pose proof (pruning_sublist _ _ _ _ Hp) as Hsub.
  exists keep, ((fun i => mons !!! i) <$> keep).
  split; [exact Hk|]. split; [exact Hsub|]. split; [apply is_square_submatrix|].
  split; [by rewrite nrows_submatrix, length_fmap|]. split; [|split; [|exact Hp]].
  - intros k i Hki. rewrite list_lookup_fmap, Hki. cbn.
    symmetry. apply list_lookup_lookup_total_lt.
    assert (Hin : i ∈ seq 0 (length mons)).
    { eapply elem_of_sublist; [|exact Hsub]. apply list_elem_of_lookup. by exists k. }
    apply elem_of_seq in Hin. lia.
  - intros i Hi Hnk.
    apply (pruning_deleted_ok _ _ _ _ Hp (increasing_seq _)); [|done].
    apply elem_of_seq. lia.
Qed.

Lemma remove_unhelpful_sync_witness :
  exists keep mons',
    remove_unhelpful default_config example_lattice (seq 0 8) 10 7
    = Ret (submatrix keep example_lattice, mons') /\
    Z.of_nat (length mons') = nrows (submatrix keep example_lattice) /\
    pruning example_lattice 10 (seq 0 8) keep.
Proof.
  destruct (remove_unhelpful_sync default_config example_lattice (seq 0 8) 10 7)
    as (keep & mons' & Hr & _ & _ & Hlen & _ & _ & Hp).
  - reflexivity.
  - reflexivity.
  - split; [lia|vm_compute; reflexivity].
  - exists keep, mons'. split; [exact Hr|]. split; [exact Hlen|exact Hp].
Defined.

(** C10 (counterexample).  In [example_lattice], with bound 10, row 6 has
    diagonal entry 20 and affects row 7 only, whose diagonal entry is 5:
    both are removed, row 7 although its entry is below the bound. *)
Lemma remove_unhelpful_drops_row_below_bound :
  is_square example_lattice = true /\
  remove_unhelpful default_config example_lattice (seq 0 8) 10 7
  = Ret (submatrix [0; 1; 2; 3; 4; 5]%nat example_lattice, [0; 1; 2; 3; 4; 5]%nat) /\
  ~ (forall i, (i < 8)%nat -> i ∉ [0; 1; 2; 3; 4; 5]%nat ->
               10 <= (example_lattice !!! i) !!! i).
Proof.
  split; [reflexivity|]. split; [vm_compute; reflexivity|].
  intros Hall. specialize (Hall 7%nat ltac:(lia)).
  assert (Hnot : 7%nat ∉ [0; 1; 2; 3; 4; 5]%nat).
  { rewrite !not_elem_of_cons. repeat split; try lia. apply not_elem_of_nil. }
  specialize (Hall Hnot). vm_compute in Hall. by apply Hall.
Qed.

End Pruning.
(** ** Attacks that do not apply *)

Section NoRaise.
Context `{BonehDurfee.Sage} `{PyFloat.Libm} `{KeysWrapper} `{BonehDurfee.PyCrypto}
        `{SmallFraction.SageTool}.

(** The steps of Håstad's attack once the exponent [ex] is known. *)
Lemma hastad_attack_steps (l : list PublicKey) (cipher : list bytes) (ex : Z) :
  elements (usable_exponents l) = [ex] ->
  Hastads.attack (PrivateKey := PrivateKey) (Hastads.KeyList l) cipher
  = (result ← Hastads.chinese_remainder (map pk_n (usable_keys l))
                                         (map int_from_bytes_big cipher);
     root ← Hastads.find_invpow result ex;
     unciphered ← fromhex (drop2 (hex root));
     Ret (None, Some unciphered)).
Proof.
  intros Hel. unfold Hastads.attack, usable_keys. fold (usable_exponents l).
  assert (Hsz : size (usable_exponents l) = 1%nat)
    by (unfold size, set_size; cbn; by rewrite Hel).
  rewrite bool_decide_false by (intros Hn; by apply Hn).
  by rewrite Hel.
Qed.

(** C7 (amended).  Each entry point returns [(None, None)], the key
    untouched, on the cases it tests for: Håstad when [publickeys] is not a
    list or the usable exponents are not a singleton; Boneh–Durfee when
    [factor] raises [OverflowError] or finds no [d]; small-fraction when the
    tool fails with [CalledProcessError] or [TimeoutExpired] or reports
    nothing positive.  It is returned in no other case, but for one of the
    two exceptions of small-fraction coming from the key constructor.  Any
    other failure is left to the caller: in Håstad whatever the Chinese
    remainder, the root or [bytes.fromhex] raise; in Boneh–Durfee whatever
    else [factor] raises and whatever [RSA.construct] or the key constructor
    raise; in small-fraction whatever else the tool or the key constructor
    raise. *)
Theorem not_applicable_returns_empty (cfg : BonehDurfee.config)
    (publickeys : Hastads.keys_arg) (cipher : list bytes) (publickey : PublicKey) :
  (match publickeys with
   | Hastads.NotAList _ => True
   | Hastads.KeyList l => size (usable_exponents l) <> 1%nat
   end ->
   Hastads.attack (PrivateKey := PrivateKey) publickeys cipher = Ret (None, None)) /\
  (BonehDurfee.factor cfg (pk_n publickey) (pk_e publickey) = Raise OverflowError \/
   BonehDurfee.factor cfg (pk_n publickey) (pk_e publickey) = Ret None ->
   BonehDurfee.attack cfg publickey = (publickey, Ret (None, None))) /\
  (SmallFraction.smallfraction_sage (pk_n publickey) = Raise CalledProcessError \/
   SmallFraction.smallfraction_sage (pk_n publickey) = Raise TimeoutExpired \/
   (exists v, SmallFraction.smallfraction_sage (pk_n publickey) = Ret v /\ v <= 0) ->
   SmallFraction.attack publickey = (publickey, Ret (None, None))) /\
  (* [(None, None)] in no other case *)
  (Hastads.attack (PrivateKey := PrivateKey) publickeys cipher = Ret (None, None) ->
   match publickeys with
   | Hastads.NotAList _ => True
   | Hastads.KeyList l => size (usable_exponents l) <> 1%nat
   end) /\
  (forall publickey',
     BonehDurfee.attack cfg publickey = (publickey', Ret (None, None)) ->
     publickey' = publickey /\
     (BonehDurfee.factor cfg (pk_n publickey) (pk_e publickey) = Raise OverflowError \/
      BonehDurfee.factor cfg (pk_n publickey) (pk_e publickey) = Ret None)) /\
  (forall publickey',
     SmallFraction.attack publickey = (publickey', Ret (None, None)) ->
     (publickey' = publickey /\
      (SmallFraction.smallfraction_sage (pk_n publickey) = Raise CalledProcessError \/
       SmallFraction.smallfraction_sage (pk_n publickey) = Raise TimeoutExpired \/
       exists v, SmallFraction.smallfraction_sage (pk_n publickey) = Ret v /\ v <= 0)) \/
     (exists v e,
        SmallFraction.smallfraction_sage (pk_n publickey) = Ret v /\ 0 < v /\
        PrivateKey_pqen v (pk_n publickey / v) (pk_e publickey) (pk_n publickey) = Raise e /\
        (e = CalledProcessError \/ e = TimeoutExpired))) /\
  (* every other failure reaches the caller *)
  (forall l ex e,
     publickeys = Hastads.KeyList l ->
     elements (usable_exponents l) = [ex] -> 0 <= ex ->
     (result ← Hastads.chinese_remainder (map pk_n (usable_keys l))
                                          (map int_from_bytes_big cipher);
      root ← Hastads.find_invpow result ex;
      fromhex (drop2 (hex root))) = Raise e ->
     Hastads.attack (PrivateKey := PrivateKey) publickeys cipher = Raise e) /\
  (forall e,
     e <> OverflowError ->
     BonehDurfee.factor cfg (pk_n publickey) (pk_e publickey) = Raise e ->
     BonehDurfee.attack cfg publickey = (publickey, Raise e)) /\
  (forall d e,
     BonehDurfee.factor cfg (pk_n publickey) (pk_e publickey) = Ret (Some d) ->
     BonehDurfee.RSA_construct (pk_n publickey) (pk_e publickey) d = Raise e ->
     BonehDurfee.attack cfg publickey = (publickey, Raise e)) /\
  (forall d p q e,
     BonehDurfee.factor cfg (pk_n publickey) (pk_e publickey) = Ret (Some d) ->
     BonehDurfee.RSA_construct (pk_n publickey) (pk_e publickey) d = Ret (p, q) ->
     PrivateKey_pqen p q (pk_e publickey) (pk_n publickey) = Raise e ->
     BonehDurfee.attack cfg publickey = (set_q (set_p publickey p) q, Raise e)) /\
  (forall e,
     e <> CalledProcessError -> e <> TimeoutExpired ->
     SmallFraction.smallfraction_sage (pk_n publickey) = Raise e ->
     SmallFraction.attack publickey = (publickey, Raise e)) /\
  (forall v e,
     e <> CalledProcessError -> e <> TimeoutExpired ->
     SmallFraction.smallfraction_sage (pk_n publickey) = Ret v -> 0 < v ->
     PrivateKey_pqen v (pk_n publickey / v) (pk_e publickey) (pk_n publickey) = Raise e ->
     SmallFraction.attack publickey
     = (set_q (set_p publickey v) (pk_n publickey / v), Raise e)).
Proof.
  repeat apply conj.
  - destruct publickeys as [l|k]; [|done]. apply attack_not_singleton.
  - unfold BonehDurfee.attack, mbind, keyed_bind, kbind, get_key.
    intros [-> | ->]; reflexivity.
  - unfold SmallFraction.attack, try_except, mbind, keyed_bind, kbind, get_key, lift.
    intros [-> | [-> | (v & -> & Hv)]]; [done|done|].
    destruct (Z.ltb_spec 0 v); [lia|done].
  - destruct publickeys as [l|k]; [|done]. intros Hatt Hsz.
    apply size_1_elem_of in Hsz as [ex Hex].
    assert (Hel : elements (usable_exponents l) = [ex]).
    { apply leibniz_equiv in Hex. rewrite Hex. apply elements_singleton. }
    rewrite (hastad_attack_steps l cipher ex Hel) in Hatt.
    destruct (Hastads.chinese_remainder _ _) as [r| |];
      cbn [mbind outcome_bind bind] in Hatt; try discriminate.
    destruct (Hastads.find_invpow r ex) as [root| |];
      cbn [mbind outcome_bind bind] in Hatt; try discriminate.
    destruct (fromhex _) as [u| |]; cbn [mbind outcome_bind bind] in Hatt; discriminate.
  - intros publickey'.
    unfold BonehDurfee.attack, mbind, keyed_bind, kbind, get_key, lift, write_p, write_q,
      mret, keyed_ret, kret.
    destruct (BonehDurfee.factor cfg (pk_n publickey) (pk_e publickey)) as [[d|]|e|].
    + destruct (BonehDurfee.RSA_construct _ _ d) as [[p q]|e|]; cbn; try discriminate.
      destruct (PrivateKey_pqen p q _ _) as [priv|e|]; discriminate.
    + intros [= <-]. split; [done|by right].
    + destruct e; try discriminate. intros [= <-]. split; [done|by left].
    + discriminate.
  - intros publickey'.
    unfold SmallFraction.attack, try_except, mbind, keyed_bind, kbind, get_key, lift,
      write_p, write_q, mret, keyed_ret, kret.
    destruct (SmallFraction.smallfraction_sage (pk_n publickey)) as [v|e|] eqn:Htool.
    + destruct (Z.ltb_spec 0 v) as [Hv|Hv].
      * cbn. unfold floordiv. destruct (Z.eqb_spec v 0); [lia|]. cbn.
        destruct (PrivateKey_pqen v _ _ _) as [priv|e|] eqn:Hpk; try discriminate.
        destruct e; cbn; try discriminate; intros _; right;
          eexists v, _; (split; [done|]); (split; [done|]); (split; [exact Hpk|]); auto.
      * intros [= <-]. left. split; [done|]. right. right. exists v. split; [done|lia].
    + destruct e; cbn; try discriminate; intros [= <-]; left; (split; [done|]); auto.
    + discriminate.
  - intros l ex e -> Hel _ Hsteps. rewrite (hastad_attack_steps l cipher ex Hel).
    destruct (Hastads.chinese_remainder _ _) as [r| |];
      cbn [mbind outcome_bind bind] in *;
      try first [discriminate | by injection Hsteps as ->].
    destruct (Hastads.find_invpow r ex) as [root| |];
      cbn [mbind outcome_bind bind] in *;
      try first [discriminate | by injection Hsteps as ->].
    destruct (fromhex _) as [u| |]; cbn [mbind outcome_bind bind] in *;
      first [discriminate | by injection Hsteps as ->].
  - intros e Hne He.
    unfold BonehDurfee.attack, mbind, keyed_bind, kbind, get_key, lift.
    rewrite He. by destruct e.
  - intros d e Hd He.
    unfold BonehDurfee.attack, mbind, keyed_bind, kbind, get_key, lift.
    rewrite Hd, He. done.
  - intros d p q e Hd Hc He.
    unfold BonehDurfee.attack, mbind, keyed_bind, kbind, get_key, lift, write_p, write_q.
    rewrite Hd, Hc. cbn. rewrite He. done.
  - intros e Hn1 Hn2 He.
    unfold SmallFraction.attack, try_except, mbind, keyed_bind, kbind, get_key, lift.
    rewrite He. by destruct e.
  - intros v e Hn1 Hn2 Hv Hpos He.
    unfold SmallFraction.attack, try_except, mbind, keyed_bind, kbind, get_key, lift,
      write_p, write_q.
    rewrite Hv. destruct (Z.ltb_spec 0 v); [|lia]. cbn.
    unfold floordiv. destruct (Z.eqb_spec v 0); [lia|]. cbn. rewrite He.
    by destruct e.
Qed.

End NoRaise.

Lemma not_applicable_returns_empty_witness :
  let cfg := BonehDurfee.default_config in
  let publickeys := Hastads.KeyList [key 15 3; key 77 5] in
  let publickey := key (2 ^ 1024) 3 in
  @Hastads.attack (@PrivateKey toy_keys) publickeys [] = Ret (None, None) /\
  @BonehDurfee.attack toy_sage toy_libm cfg toy_keys toy_crypto publickey
    = (publickey, Ret (None, None)) /\
  @SmallFraction.attack toy_keys toy_tool publickey = (publickey, Ret (None, None)).
Proof.
  intros cfg publickeys publickey.
  destruct (@not_applicable_returns_empty toy_sage toy_libm toy_keys toy_crypto toy_tool
              cfg publickeys [] publickey) as (Hh & Hb & Hs & _).
  split; [|split].
  - apply Hh. vm_compute. lia.
  - apply Hb. left. vm_compute. reflexivity.
  - apply Hs. right. left. reflexivity.
Defined.

(** C7 (counterexample).  Three runs in which the attack does not find
    anything and the exception reaches the caller.  Håstad on two keys with
    the same modulus: the division by zero inside [mul_inv].  Boneh–Durfee
    when the reduction yields a [d] that [RSA.construct] rejects: its
    [ValueError].  Small-fraction when the tool prints something that is not
    a number: the [ValueError] of [int()]. *)
Lemma attacks_raise_to_the_caller :
  @Hastads.attack unit (Hastads.KeyList [key 15 3; key 15 3]) [[x01]; [x01]]
  = Raise ZeroDivisionError /\
  @BonehDurfee.attack solving_sage toy_libm BonehDurfee.default_config toy_keys toy_crypto
    (key 15 3)
  = (key 15 3, Raise ValueError) /\
  @SmallFraction.attack toy_keys garbled_tool (key 15 3) = (key 15 3, Raise ValueError).
Proof. vm_compute. repeat split; reflexivity. Qed.

(** ** Writes to the public key *)

Section FrameLemmas.

Lemma keeps_ret {A : Type} (a : A) : keeps_n_e (mret a : keyed A).
Proof. intros k k' r [= <- <-]. done. Qed.

Lemma keeps_lift {A : Type} (o : outcome A) : keeps_n_e (lift o).
Proof. intros k k' r [= <- <-]. done. Qed.

Lemma keeps_get : keeps_n_e get_key.
Proof. intros k k' r [= <- <-]. done. Qed.

Lemma keeps_write_p (v : Z) : keeps_n_e (write_p v).
Proof. intros k k' r [= <- <-]. done. Qed.

Lemma keeps_write_q (v : Z) : keeps_n_e (write_q v).
Proof. intros k k' r [= <- <-]. done. Qed.

Lemma keeps_bind {A B : Type} (m : keyed A) (f : A -> keyed B) :
  keeps_n_e m -> (forall a, keeps_n_e (f a)) -> keeps_n_e (m ≫= f).
Proof.
  intros Hm Hf k k' r. unfold mbind, keyed_bind, kbind.
  destruct (m k) as [k1 [a|e|]] eqn:E; destruct (Hm _ _ _ E) as [Hn He].
  - intros E2. destruct (Hf a _ _ _ E2). split; congruence.
  - intros [= <- <-]. done.
  - intros [= <- <-]. done.
Qed.

Lemma keeps_try {A : Type} (body handler : keyed A) (handled : exn -> bool) :
  keeps_n_e body -> keeps_n_e handler -> keeps_n_e (try_except body handled handler).
Proof.
  intros Hb Hh k k' r. unfold try_except.
  destruct (body k) as [k1 [a|e|]] eqn:E; destruct (Hb _ _ _ E) as [Hn He].
  - intros [= <- <-]. done.
  - destruct (handled e).
    + intros E2. destruct (Hh _ _ _ E2). split; congruence.
    + intros [= <- <-]. done.
  - intros [= <- <-]. done.
Qed.

End FrameLemmas.

Section FrameEffect.
Context `{BonehDurfee.Sage} `{PyFloat.Libm} `{KeysWrapper} `{BonehDurfee.PyCrypto}
        `{FactorDB.Web} `{FactorDB.RsaLibNum}.

Lemma boneh_durfee_attack_frame (cfg : BonehDurfee.config) (publickey publickey' : PublicKey) :
  BonehDurfee.attack cfg publickey = (publickey', Ret (None, None)) ->
  publickey' = publickey.
Proof.
  unfold BonehDurfee.attack, mbind, keyed_bind, kbind, get_key, lift, write_p, write_q.
  destruct (BonehDurfee.factor cfg (pk_n publickey) (pk_e publickey)) as [[d|]|e|].
  - destruct (BonehDurfee.RSA_construct _ _ d) as [[p q]|e|]; cbn.
    + destruct (PrivateKey_pqen p q _ _) as [k|e|]; cbn; intros [= ]; done.
    + intros [= ].
    + intros [= ].
  - intros [= <-]. done.
  - destruct e; cbn; intros [= ]; done.
  - intros [= ].
Qed.

Lemma factordb_fetch_keeps (ids : list string) : keeps_n_e (FactorDB.fetch_factors ids).
Proof.
  unfold FactorDB.fetch_factors.
  repeat (apply keeps_bind; [first [apply keeps_lift | apply keeps_write_p]|intros ?]).
  apply keeps_write_q.
Qed.

Lemma factordb_attack_keeps : keeps_n_e FactorDB.attack.
Proof.
  unfold FactorDB.attack. apply keeps_try; [|apply keeps_ret].
  apply keeps_bind; [apply keeps_get|intros publickey].
  apply keeps_bind; [apply keeps_lift|intros r].
  apply keeps_bind.
  { repeat case_bool_decide; try apply keeps_ret.
    repeat (apply keeps_bind; [apply keeps_lift|intros ?]). apply keeps_ret. }
  intros [found|]; [apply keeps_ret|].
  apply keeps_bind.
  { apply keeps_try; [|apply keeps_ret].
    apply keeps_bind; [apply factordb_fetch_keeps|intros ?; apply keeps_ret]. }
  intros [|]; [|apply keeps_ret].
  apply keeps_bind; [apply keeps_get|intros k].
  destruct (pk_p k), (pk_q k); try apply keeps_lift.
  destruct (_ && _); [apply keeps_ret|].
  apply keeps_bind; [apply keeps_lift|intros ?; apply keeps_ret].
Qed.

Lemma factordb_attack_never_raises (publickey publickey' : PublicKey)
    (r : outcome attack_result) (e : exn) :
  FactorDB.attack publickey = (publickey', r) -> r <> Raise e.
Proof.
  unfold FactorDB.attack, try_except.
  match goal with |- context [match ?b publickey with _ => _ end] => destruct (b publickey) as [k1 [a|e1|]] end.
  - intros [= <- <-]. done.
  - cbn. intros [= <- <-]. done.
  - intros [= <- <-]. done.
Qed.

Lemma factordb_nothing_fetched (publickey : PublicKey) (page : FactorDB.query_page) :
  FactorDB.query (pk_n publickey) = Ret page ->
  (length (FactorDB.page_ids page) < 2)%nat ->
  FactorDB.attack publickey = (publickey, Ret (None, None)).
Proof.
  intros Hq Hlen.
  unfold FactorDB.attack, try_except, mbind, keyed_bind, kbind, get_key, lift.
  rewrite Hq. rewrite bool_decide_false by lia. cbn.
  unfold FactorDB.fetch_factors, mbind, keyed_bind, kbind, lift.
  assert (Hidx : index (FactorDB.page_ids page) 1 = Raise IndexError).
  { unfold index. cbn. destruct (Z.ltb_spec 1 (Z.of_nat (length (FactorDB.page_ids page)))); [lia|done]. }
  rewrite Hidx. reflexivity.
Qed.

(** C9 (amended).  Boneh–Durfee's [attack] writes [p] and [q] only on
    the path that goes on to build the private key: whenever it returns
    [(None, None)] the key is unchanged.  The factor-database [attack] stores
    each factor in the key as soon as it is fetched, before the other factor
    and the key are checked; it never writes [n] or [e], never raises, and
    leaves the key unchanged when the first page lists fewer than two ids. *)
Theorem factors_attached_by_design (cfg : BonehDurfee.config) (publickey : PublicKey) :
  (forall publickey',
     BonehDurfee.attack cfg publickey = (publickey', Ret (None, None)) ->
     publickey' = publickey) /\
  (forall publickey' r,
     FactorDB.attack publickey = (publickey', r) ->
     pk_n publickey' = pk_n publickey /\ pk_e publickey' = pk_e publickey /\
     forall e, r <> Raise e) /\
  (forall page,
     FactorDB.query (pk_n publickey) = Ret page ->
     (length (FactorDB.page_ids page) < 2)%nat ->
     FactorDB.attack publickey = (publickey, Ret (None, None))).
Proof.
  split; [|split].
  - intros publickey'. apply boneh_durfee_attack_frame.
  - intros publickey' r Hr. destruct (factordb_attack_keeps _ _ _ Hr) as [Hn He].
    split; [done|]. split; [done|]. intros e. by eapply factordb_attack_never_raises.
  - apply factordb_nothing_fetched.
Qed.

End FrameEffect.

Lemma factors_attached_by_design_witness :
  let publickey := key (2 ^ 1024) 3 in
  @BonehDurfee.attack toy_sage toy_libm BonehDurfee.default_config toy_keys toy_crypto publickey
  = (publickey, Ret (None, None)) /\
  @FactorDB.attack toy_keys (toy_web []) toy_rsalibnum publickey
  = (publickey, Ret (None, None)).
Proof.
  intros publickey.
  destruct (@factors_attached_by_design toy_sage toy_libm toy_keys toy_crypto
              (toy_web []) toy_rsalibnum BonehDurfee.default_config publickey)
    as (Hbd & _ & Hfdb).
  split.
  - assert (E : @BonehDurfee.attack toy_sage toy_libm BonehDurfee.default_config
                  toy_keys toy_crypto publickey = (publickey, Ret (None, None)))
      by (vm_compute; reflexivity).
    pose proof (Hbd publickey E) as _. exact E.
  - apply (Hfdb (FactorDB.mkPage [] [])); [reflexivity|cbn; lia].
Defined.

(** C9 (counterexample).  The database lists the number with two ids and
    no factor: [p] is fetched and stored, the id of [q] is missing, the
    attack returns [(None, None)] and the key keeps the stored [p]. *)
Lemma factordb_overwrites_p_without_result :
  let publickey := key 21 5 in
  let after := @FactorDB.attack toy_keys
                 (toy_web ["1100000000508"; "1100000000508"]) toy_rsalibnum publickey in
  after = (mkPublicKey 21 5 (Some 21) None, Ret (None, None)) /\
  after.2 = Ret (None, None) /\ after.1 <> publickey.
Proof. vm_compute. split; [done|]. split; [done|]. discriminate. Qed.

(** ** The determinant bound *)

Section StrictMode.
Import BonehDurfee.

Lemma index_in_range {A : Type} (l : list A) (i : Z) :
  0 <= i < Z.of_nat (length l) -> exists x, index l i = Ret x /\ l !! Z.to_nat i = Some x.
Proof.
  intros Hi. destruct (lookup_lt_is_Some_2 l (Z.to_nat i) ltac:(lia)) as [x Hx].
  exists x. split; [|done]. unfold index.
  destruct (Z.ltb_spec i 0); [lia|].
  destruct (Z.leb_spec 0 i); [|lia].
  destruct (Z.ltb_spec i (Z.of_nat (length l))); [|lia].
  cbn [andb]. by rewrite Hx.
Qed.

Lemma entry_square (BB : matrix) (i j : Z) :
  is_square BB = true -> 0 <= i < nrows BB -> 0 <= j < nrows BB ->
  exists v, entry BB i j = Ret v.
Proof.
  intros Hsq Hi Hj. unfold entry.
  destruct (index_in_range BB i Hi) as (row & -> & Hrow). cbn [mbind outcome_bind bind].
  pose proof (is_square_rows BB _ Hsq eq_refl) as Hrows.
  assert (Hlen : length row = length BB).
  { eapply Forall_forall in Hrows; [exact Hrows|]. apply list_elem_of_lookup. eauto. }
  destruct (index_in_range row j) as (v & -> & _); [unfold nrows in Hj; lia|]. eauto.
Qed.

Lemma ncols_square (BB : matrix) : is_square BB = true -> ncols BB = nrows BB.
Proof.
  intros Hsq. destruct BB as [|r BB]; [done|].
  pose proof (is_square_rows _ _ Hsq eq_refl) as Hrows.
  apply Forall_cons in Hrows as [Hr _]. unfold ncols, nrows. by rewrite Hr.
Qed.

Lemma mapM_entries (BB : matrix) (i : Z) (js : list Z) :
  is_square BB = true -> 0 <= i < nrows BB ->
  (forall j, j ∈ js -> 0 <= j < nrows BB) ->
  exists vs, mapM (fun jj => entry BB i jj) js = Ret vs.
Proof.
  intros Hsq Hi. induction js as [|j js IH]; intros Hjs.
  - by exists [].
  - destruct (entry_square BB i j Hsq Hi) as [v Hv]; [apply Hjs; left|].
    destruct IH as [vs Hvs]; [intros k Hk; apply Hjs; by right|].
    exists (v :: vs).
    change (mapM (fun jj => entry BB i jj) (j :: js))
      with (y ← entry BB i j; k ← mapM (fun jj => entry BB i jj) js; mret (y :: k)).
    rewrite Hv. cbn [mbind outcome_bind bind]. rewrite Hvs. reflexivity.
Qed.

Lemma helpful_vectors_square (BB : matrix) (modulus : Z) :
  is_square BB = true -> helpful_vectors BB modulus = Ret tt.
Proof.
  intros Hsq. unfold helpful_vectors.
  assert (Hfold : forall iis acc0,
            (forall ii, ii ∈ iis -> 0 <= ii < nrows BB) ->
            exists v, foldl (fun acc ii =>
                               n ← acc; d ← entry BB ii ii;
                               Ret (if modulus <=? d then n + 1 else n))
                            (Ret acc0) iis = Ret v).
  { induction iis as [|ii iis IH]; intros acc0 Hiis; [by eexists|].
    cbn [foldl mbind outcome_bind bind].
    destruct (entry_square BB ii ii Hsq) as [v ->]; [apply Hiis; left..|].
    cbn [mbind outcome_bind bind]. apply IH. intros k Hk. apply Hiis. by right. }
  destruct (Hfold (range 0 (nrows BB)) 0) as [v ->]; [|done].
  intros ii Hii. unfold range in Hii. apply elem_of_seqZ in Hii. lia.
Qed.

Lemma matrix_overview_square (BB : matrix) (bound : Z) :
  is_square BB = true -> matrix_overview BB bound = Ret tt.
Proof.
  intros Hsq. unfold matrix_overview.
  assert (Hfold : forall iis,
            (forall ii, ii ∈ iis -> 0 <= ii < nrows BB) ->
            foldl (fun acc ii =>
                     _ ← acc;
                     _ ← mapM (fun jj => entry BB ii jj) (range 0 (ncols BB));
                     _ ← entry BB ii ii;
                     Ret tt)
                  (Ret tt) iis = Ret tt).
  { induction iis as [|ii iis IH]; intros Hiis; [done|].
    cbn [foldl mbind outcome_bind bind].
    destruct (mapM_entries BB ii (range 0 (ncols BB)) Hsq) as [vs ->]; [apply Hiis; left| |].
    { intros j Hj. unfold range in Hj. apply elem_of_seqZ in Hj.
      rewrite ncols_square in Hj by done. lia. }
    cbn [mbind outcome_bind bind].
    destruct (entry_square BB ii ii Hsq) as [v ->]; [apply Hiis; left..|].
    cbn [mbind outcome_bind bind]. apply IH. intros k Hk. apply Hiis. by right. }
  apply Hfold. intros ii Hii. unfold range in Hii. apply elem_of_seqZ in Hii. lia.
Qed.

Context `{Sage}.


End StrictMode.



(** ** The bounds of [factor] *)

Section FactorBounds.
Import PyFloat.

Lemma digits2_pos_iter (k p : positive) :
  digits2_pos (Pos.iter xO k p) = (digits2_pos k + p)%positive.
Proof.
  induction p as [|p IH] using Pos.peano_ind.
  - cbn. lia.
  - rewrite Pos.iter_succ. cbn [digits2_pos]. rewrite IH. lia.
Qed.

Lemma Zpos_iter_xO (k p : positive) :
  Z.pos (Pos.iter xO k p) = Z.pos k * 2 ^ Z.pos p.
Proof.
  induction p as [|p IH] using Pos.peano_ind.
  - cbn. lia.
  - rewrite Pos.iter_succ.
    change (Z.pos (Pos.iter xO k p)~0) with (2 * Z.pos (Pos.iter xO k p)).
    rewrite IH, Pos2Z.inj_succ, Z.pow_succ_r by lia. lia.
Qed.

Lemma digits2_pos_bound (k : positive) :
  2 ^ (Z.pos (digits2_pos k) - 1) <= Z.pos k < 2 ^ Z.pos (digits2_pos k).
Proof.
  induction k as [k IH|k IH|]; cbn [digits2_pos].
  - rewrite Pos2Z.inj_succ. change (Z.pos k~1) with (2 * Z.pos k + 1).
    replace (Z.succ (Z.pos (digits2_pos k)) - 1) with (Z.succ (Z.pos (digits2_pos k) - 1)) by lia.
    rewrite !Z.pow_succ_r by lia. lia.
  - rewrite Pos2Z.inj_succ. change (Z.pos k~0) with (2 * Z.pos k).
    replace (Z.succ (Z.pos (digits2_pos k)) - 1) with (Z.succ (Z.pos (digits2_pos k) - 1)) by lia.
    rewrite !Z.pow_succ_r by lia. lia.
  - cbn. lia.
Qed.

Lemma binary_round_aux_exact (mz : positive) (ez : Z) :
  Z.pos (digits2_pos mz) = 53 -> -1074 <= ez <= 971 ->
  binary_round_aux prec emax false (Z.pos mz) ez loc_Exact = S754_finite false mz ez.
Proof.
  intros Hd He. unfold binary_round_aux, shr_fexp, fexp, emin, prec, emax.
  cbn [Zdigits2 shr_record_of_loc]. rewrite Hd.
  replace (Z.max (53 + ez - 53) (3 - 1024 - 53) - ez) with 0 by lia.
  cbn [shr shr_m loc_of_shr_record round_nearest_even Zdigits2 shr_record_of_loc].
  rewrite Hd.
  replace (Z.max (53 + ez - 53) (3 - 1024 - 53) - ez) with 0 by lia.
  cbn [shr shr_m].
  destruct (Z.leb_spec ez (1024 - 53)); [done|lia].
Qed.

Lemma truediv_2_exact (k : positive) :
  Z.pos k < 2 ^ 53 ->
  exists m e, truediv_2 (Z.pos k) = Ret (S754_finite false m e) /\
              e < 0 /\ Z.pos m = Z.pos k * 2 ^ (-1 - e).
Proof.
  intros Hk. pose proof (digits2_pos_bound k) as Hdb.
  assert (Hd : Z.pos (digits2_pos k) <= 53).
  { destruct (Z.le_gt_cases (Z.pos (digits2_pos k)) 53) as [|Hgt]; [done|].
    assert (2 ^ 53 <= 2 ^ (Z.pos (digits2_pos k) - 1)) by (apply Z.pow_le_mono_r; lia).
    lia. }
  unfold truediv_2, binary_normalize, binary_round, fexp, emin, prec, emax.
  replace (Z.max (Z.pos (digits2_pos k) + -1 - 53) (3 - 1024 - 53))
    with (Z.pos (digits2_pos k) - 54) by lia.
  unfold shl_align.
  destruct (Z.pos (digits2_pos k) - 54 - -1) as [|p|p] eqn:E.
  - fold prec emax. rewrite binary_round_aux_exact by lia.
    exists k, (-1). split; [done|]. split; [lia|]. cbn. lia.
  - lia.
  - fold prec emax. rewrite binary_round_aux_exact.
    + exists (Pos.iter xO k p), (Z.pos (digits2_pos k) - 54).
      split; [done|]. split; [lia|]. rewrite Zpos_iter_xO. f_equal. f_equal. lia.
    + rewrite digits2_pos_iter. lia.
    + lia.
Qed.

Lemma shr_1_m (mrs : shr_record) :
  0 <= shr_m mrs -> shr_m (shr_1 mrs) = shr_m mrs / 2 /\ 0 <= shr_m (shr_1 mrs).
Proof.
  destruct mrs as [m r s]. cbn [shr_m shr_1]. intros Hm.
  destruct m as [|[p|p|]|p]; cbn [shr_m]; try lia.
  all: split; try lia.
  - done.
  - change (Z.pos p~1) with (2 * Z.pos p + 1).
    apply Z.div_unique with (r := 1); lia.
  - change (Z.pos p~0) with (2 * Z.pos p).
    apply Z.div_unique with (r := 0); lia.
  - done.
Qed.

Lemma iter_pos_shr_1_m (p : positive) :
  forall mrs, 0 <= shr_m mrs ->
    shr_m (SpecFloat.iter_pos shr_1 p mrs) = shr_m mrs / 2 ^ Z.pos p /\
    0 <= shr_m (SpecFloat.iter_pos shr_1 p mrs).
Proof.
  induction p as [p IH|p IH|]; intros mrs Hm; cbn [SpecFloat.iter_pos].
  - destruct (shr_1_m mrs Hm) as [E1 H1].
    destruct (IH _ H1) as [E2 H2]. destruct (IH _ H2) as [E3 H3].
    split; [|done]. rewrite E3, E2, E1.
    rewrite !Z.div_div
      by (first [lia | apply Z.pow_nonzero; lia | apply Z.pow_pos_nonneg; lia]).
    f_equal. replace (Z.pos p~1) with (Z.pos p + Z.pos p + 1) by lia.
    rewrite !Z.pow_add_r, Z.pow_1_r by lia. ring.
  - destruct (IH _ Hm) as [E2 H2]. destruct (IH _ H2) as [E3 H3].
    split; [|done]. rewrite E3, E2.
    rewrite Z.div_div
      by (first [lia | apply Z.pow_nonzero; lia | apply Z.pow_pos_nonneg; lia]).
    f_equal. replace (Z.pos p~0) with (Z.pos p + Z.pos p) by lia.
    rewrite Z.pow_add_r by lia. ring.
  - destruct (shr_1_m mrs Hm) as [E1 H1]. split; [|done]. by rewrite E1.
Qed.

Lemma shr_spec (mrs : shr_record) (e n : Z) :
  0 <= shr_m mrs ->
  shr_m (shr mrs e n).1 = shr_m mrs / 2 ^ Z.max 0 n /\ (shr mrs e n).2 = e + Z.max 0 n.
Proof.
  intros Hm. destruct n as [|p|p]; cbn [shr fst snd].
  - change (Z.max 0 0) with 0. rewrite Z.pow_0_r, Z.div_1_r. lia.
  - rewrite Z.max_r by lia. split; [|done]. by apply iter_pos_shr_1_m.
  - rewrite Z.max_l by lia. rewrite Z.pow_0_r, Z.div_1_r. lia.
Qed.

Lemma shr_m_of_loc (m : Z) (l : location) : shr_m (shr_record_of_loc m l) = m.
Proof. by destruct l as [|[| |]]. Qed.

Lemma Zdigits2_bound (m : Z) :
  0 < m -> 2 ^ (Zdigits2 m - 1) <= m < 2 ^ Zdigits2 m.
Proof. destruct m as [|p|p]; [lia| |lia]. intros _. apply digits2_pos_bound. Qed.

Lemma Zdigits2_pos (m : Z) : 0 < m -> 1 <= Zdigits2 m.
Proof. destruct m as [|p|p]; cbn [Zdigits2]; lia. Qed.

Lemma shr_fexp_normal (m e : Z) (l : location) :
  0 < m -> -1021 <= Zdigits2 m + e ->
  0 < shr_m (shr_fexp prec emax m e l).1 /\
  Zdigits2 m + e - 53 <= (shr_fexp prec emax m e l).2 /\
  e <= (shr_fexp prec emax m e l).2.
Proof.
  intros Hm Hbig. unfold shr_fexp.
  set (n := fexp prec emax (Zdigits2 m + e) - e).
  assert (Hn : n = Zdigits2 m - 53) by (subst n; unfold fexp, emin, prec, emax; lia).
  destruct (shr_spec (shr_record_of_loc m l) e n) as [Em Ee];
    [rewrite shr_m_of_loc; lia|].
  rewrite Em, Ee, shr_m_of_loc. pose proof (Zdigits2_bound m Hm) as Hd.
  pose proof (Zdigits2_pos m Hm) as Hd1.
  split; [|lia].
  apply Z.lt_le_trans with (m := 1); [lia|]. apply Z.div_le_lower_bound.
  - apply Z.pow_pos_nonneg; lia.
  - assert (2 ^ Z.max 0 n <= 2 ^ (Zdigits2 m - 1)); [|lia].
    apply Z.pow_le_mono_r; lia.
Qed.

Lemma binary_round_aux_overflow (sx : bool) (mx ex : Z) (lx : location) :
  0 < mx -> 1025 <= Zdigits2 mx + ex ->
  binary_round_aux prec emax sx mx ex lx = S754_infinity sx.
Proof.
  intros Hm Hbig. unfold binary_round_aux.
  destruct (shr_fexp_normal mx ex lx Hm ltac:(lia)) as (Hm1 & He1 & _).
  destruct (shr_fexp prec emax mx ex lx) as [mrs' e'] eqn:E1. cbn [fst snd] in *.
  assert (Hm1' : shr_m mrs' <= round_nearest_even (shr_m mrs') (loc_of_shr_record mrs')).
  { unfold round_nearest_even.
    destruct (loc_of_shr_record mrs') as [|[| |]]; try lia.
    destruct (Z.even (shr_m mrs')); lia. }
  revert Hm1'. generalize (round_nearest_even (shr_m mrs') (loc_of_shr_record mrs')).
  intros m1 Hm1'.
  pose proof (Zdigits2_pos m1 ltac:(lia)) as Hd1.
  destruct (shr_fexp_normal m1 e' loc_Exact ltac:(lia) ltac:(lia)) as (Hm2 & _ & He2).
  destruct (shr_fexp prec emax m1 e' loc_Exact) as [mrs'' e''] eqn:E2. cbn [fst snd] in *.
  destruct (shr_m mrs'') as [|q|q]; [lia| |lia].
  unfold prec, emax. destruct (Z.leb_spec e'' (1024 - 53)); [lia|done].
Qed.

Lemma of_int_overflow (N : Z) : 2 ^ 1024 <= N -> of_int N = Raise OverflowError.
Proof.
  intros HN. destruct N as [|k|k]; [lia| |lia].
  pose proof (digits2_pos_bound k) as Hdb.
  assert (Hd : 1025 <= Z.pos (digits2_pos k)).
  { destruct (Z.le_gt_cases 1025 (Z.pos (digits2_pos k))) as [|Hlt]; [done|].
    assert (2 ^ Z.pos (digits2_pos k) <= 2 ^ 1024) by (apply Z.pow_le_mono_r; lia).
    lia. }
  unfold of_int, binary_normalize, binary_round, shl_align.
  replace (fexp prec emax (Z.pos (digits2_pos k) + 0) - 0)
    with (Z.pos (digits2_pos k) - 53) by (unfold fexp, emin, prec, emax; lia).
  destruct (Z.pos (digits2_pos k) - 53) as [|p|p] eqn:E; try lia.
  rewrite binary_round_aux_overflow; [done|lia|cbn [Zdigits2]; lia].
Qed.

Context `{BonehDurfee.Sage} `{Libm}.

Lemma coefficient_A_exact (N : Z) :
  0 <= N -> N + 1 < 2 ^ 53 ->
  BonehDurfee.coefficient_A N = Ret ((N + 1) / 2).
Proof.
  intros HN Hlt. unfold BonehDurfee.coefficient_A.
  destruct (N + 1) as [|k|k] eqn:E; [lia| |lia].
  destruct (truediv_2_exact k Hlt) as (m & e & -> & He & Hm).
  cbn [mbind outcome_bind bind]. unfold to_int.
  destruct (Z.leb_spec 0 e); [lia|]. f_equal. unfold signed.
  rewrite Hm. replace (2 ^ (- e)) with (2 * 2 ^ (-1 - e)).
  - rewrite Z.quot_mul_cancel_r by (first [lia | apply Z.pow_nonzero; lia]).
    apply Z.quot_div_nonneg; lia.
  - rewrite <- Z.pow_succ_r by lia. f_equal. lia.
Qed.

Lemma key_polynomial_eval (A x0 y0 : Z) :
  BonehDurfee.eval_bipoly (BonehDurfee.key_polynomial A) x0 y0 = 1 + x0 * (A + y0).
Proof. unfold BonehDurfee.eval_bipoly, BonehDurfee.key_polynomial. cbn. ring. Qed.

Lemma sublattice_t_value :
  BonehDurfee.sublattice_t lit_026 lit_4 = Ret 1.
Proof. vm_compute. reflexivity. Qed.

Lemma factor_overflow (cfg : BonehDurfee.config) (N e : Z) :
  2 ^ 1024 <= N -> BonehDurfee.factor cfg N e = Raise OverflowError.
Proof.
  intros HN. unfold BonehDurfee.factor. rewrite sublattice_t_value.
  cbn [mbind outcome_bind bind]. unfold BonehDurfee.bound_X, int_pow.
  by rewrite of_int_overflow.
Qed.

Context `{KeysWrapper} `{BonehDurfee.PyCrypto}.

(** Where [factor] agrees with exact arithmetic and where it gives up:
    [A] is [floor((N + 1) / 2)] as long as [N + 1 < 2 ^ 53]; the polynomial
    built from it is [1 + x * (A + y)]; and a modulus of [2 ^ 1024] or more
    cannot be converted for [N ** delta]: [factor] raises [OverflowError],
    which [attack] turns into [(None, None)], the key untouched. *)
Theorem factor_bounds_use_doubles (cfg : BonehDurfee.config) (N e : Z) :
  (0 <= N -> N + 1 < 2 ^ 53 -> BonehDurfee.coefficient_A N = Ret ((N + 1) / 2)) /\
  (forall A x0 y0,
     BonehDurfee.eval_bipoly (BonehDurfee.key_polynomial A) x0 y0 = 1 + x0 * (A + y0)) /\
  (2 ^ 1024 <= N ->
   BonehDurfee.factor cfg N e = Raise OverflowError /\
   forall p q, BonehDurfee.attack cfg (mkPublicKey N e p q)
               = (mkPublicKey N e p q, Ret (None, None))).
Proof.
  split; [apply coefficient_A_exact|]. split; [apply key_polynomial_eval|].
  intros HN. split; [by apply factor_overflow|]. intros p q.
  unfold BonehDurfee.attack, mbind, keyed_bind, kbind, get_key. cbn [pk_n pk_e].
  by rewrite factor_overflow.
Qed.

(** [Y] is not exact either, whatever [pow] returns: the floor of a double
    that is at least [2 ^ 53] is even, and the integer square root of
    [(2 ^ 53 + 1) ^ 2] is odd. *)
Lemma floor_of_double_not_odd (r : float) :
  valid_binary prec emax r = true -> floor r <> Ret (2 ^ 53 + 1).
Proof.
  intros Hv Hf. destruct r as [s|s| |s m e]; cbn in Hf; try discriminate.
  cbn [valid_binary] in Hv. unfold bounded, canonical_mantissa in Hv.
  apply andb_true_iff in Hv as [Hc _]. apply Z.eqb_eq in Hc.
  unfold fexp, emin, prec, emax in Hc.
  pose proof (digits2_pos_bound m) as Hd.
  destruct s; unfold signed in Hf.
  - destruct (Z.leb_spec 0 e).
    + injection Hf as Hf. pose proof (Z.pow_pos_nonneg 2 e). nia.
    + injection Hf as Hf.
      assert (Z.neg m / 2 ^ (- e) < 0); [|lia].
      apply Z.div_lt_upper_bound; [apply Z.pow_pos_nonneg; lia|lia].
  - destruct (Z.leb_spec 0 e) as [He|He]; injection Hf as Hf.
    + destruct (Z.eq_dec e 0) as [->|Hne].
      * rewrite Z.pow_0_r, Z.mul_1_r in Hf.
        assert (53 < Z.pos (digits2_pos m)); [|lia].
        apply (Z.pow_lt_mono_r_iff 2); lia.
      * assert (Heven : Z.even (Z.pos m * 2 ^ e) = true).
        { assert (Hpe : 2 ^ e = 2 * 2 ^ (e - 1))
            by (rewrite <- Z.pow_succ_r by lia; f_equal; lia).
          rewrite Hpe.
          replace (Z.pos m * (2 * 2 ^ (e - 1))) with (2 * (Z.pos m * 2 ^ (e - 1))) by ring.
          rewrite Z.even_mul. reflexivity. }
        rewrite Hf in Heven. discriminate.
    + assert (Hm : 2 ^ 53 * 2 ^ (- e) <= Z.pos m).
      { pose proof (Z.pow_pos_nonneg 2 (- e) ltac:(lia) ltac:(lia)) as Hp.
        pose proof (Z.mul_div_le (Z.pos m) (2 ^ (- e)) Hp). nia. }
      rewrite <- Z.pow_add_r in Hm by lia.
      assert (53 + - e < Z.pos (digits2_pos m)); [|lia].
      apply (Z.pow_lt_mono_r_iff 2); lia.
Qed.

Lemma bound_Y_not_exact :
  Z.sqrt ((2 ^ 53 + 1) ^ 2) = 2 ^ 53 + 1 /\
  BonehDurfee.bound_Y ((2 ^ 53 + 1) ^ 2) <> Ret (Z.sqrt ((2 ^ 53 + 1) ^ 2)).
Proof.
  split; [reflexivity|]. unfold BonehDurfee.bound_Y, int_pow. intros Hy.
  destruct (of_int ((2 ^ 53 + 1) ^ 2)) as [x| |]; cbn in Hy; try discriminate.
  destruct (pow x lit_half) as [r| |] eqn:Hp; cbn in Hy; try discriminate.
  apply (floor_of_double_not_odd r); [by eapply pow_is_double|].
  rewrite Hy. reflexivity.
Qed.

End FactorBounds.

Lemma factor_bounds_use_doubles_witness :
  BonehDurfee.coefficient_A 20 = Ret 10 /\
  @BonehDurfee.factor toy_sage toy_libm BonehDurfee.default_config (2 ^ 1024) 3
  = Raise OverflowError.
Proof.
  destruct (@factor_bounds_use_doubles toy_sage toy_libm toy_keys toy_crypto
              BonehDurfee.default_config 20 3) as (HA & _ & _).
  destruct (@factor_bounds_use_doubles toy_sage toy_libm toy_keys toy_crypto
              BonehDurfee.default_config (2 ^ 1024) 3) as (_ & _ & HO).
  split.
  - apply HA; lia.
  - apply HO. lia.
Defined.

(** ** Further properties of the Håstad arithmetic *)

Section HastadArithmetic.
Import Hastads.

(** *** find_invpow *)

Lemma odd_not_pow2_power (x n : Z) :
  1 <= n -> 1 < x -> Z.odd x = true -> forall j, 0 <= j -> x <> (2 ^ j) ^ n.
Proof.
  intros Hn Hx Hodd j Hj ->.
  destruct (Z.eq_dec j 0) as [->|Hj0].
  - rewrite Z.pow_0_r, Z.pow_1_l in Hx by lia. lia.
  - rewrite <- Z.pow_mul_r in Hodd by lia.
    replace (j * n) with (Z.succ (j * n - 1)) in Hodd by lia.
    rewrite Z.pow_succ_r, Z.odd_mul in Hodd by nia. discriminate.
Qed.

(** X1.  For [1 <= n] and every [0 <= x] that is not the [n]-th power of
    a power of two, [find_invpow x n] returns the integer [n]-th root of
    [x] rounded down. *)
Theorem find_invpow_is_floor_root (x n : Z) :
  1 <= n -> 0 <= x -> (forall j, 0 <= j -> x <> (2 ^ j) ^ n) ->
  exists r, find_invpow x n = Ret r /\ 0 <= r /\ r ^ n <= x < (r + 1) ^ n.
Proof. apply find_invpow_floor. Qed.

Lemma find_invpow_is_floor_root_witness :
  exists r, find_invpow 29 3 = Ret r /\ 0 <= r /\ r ^ 3 <= 29 < (r + 1) ^ 3.
Proof.
  apply (find_invpow_is_floor_root 29 3); [lia | lia |].
  apply odd_not_pow2_power; [lia | lia | reflexivity].
Defined.

Lemma find_invpow_negative (x n : Z) : 1 <= n -> x < 0 -> find_invpow x n = Ret 1.
Proof.
  intros Hn Hx. unfold find_invpow.
  rewrite Z.log2_nonpos by lia. cbn [Z.to_nat find_high].
  rewrite Z.pow_1_l by lia. destruct (Z.ltb_spec 1 x); [lia|].
  cbn [mbind outcome_bind bind]. change (1 / 2) with 0.
  change (Z.log2_up 1) with 0. cbn [Z.to_nat]. rewrite bisect_S.
  change (0 <? 1) with true. cbv zeta. change ((0 + 1) / 2) with 0.
  change (0 <? 0) with false. rewrite Z.pow_0_l by lia.
  cbn [andb]. destruct (Z.ltb_spec x 0); [|lia].
  reflexivity.
Qed.

(** X2.  A non-positive argument is not an error: [find_invpow] returns
    [1] for every negative [x], and [0] for [x = 0]. *)
Theorem find_invpow_nonpositive (x n : Z) :
  1 <= n -> x <= 0 -> find_invpow x n = Ret (if x <? 0 then 1 else 0).
Proof.
  intros Hn Hx. destruct (Z.ltb_spec x 0).
  - by apply find_invpow_negative.
  - replace x with 0 by lia. by apply find_invpow_zero.
Qed.

Lemma find_invpow_nonpositive_witness :
  find_invpow (-27) 3 = Ret 1 /\ find_invpow 0 5 = Ret 0.
Proof.
  split.
  - apply (find_invpow_nonpositive (-27) 3); lia.
  - apply (find_invpow_nonpositive 0 5); lia.
Defined.

Lemma find_high_exponent_zero (x : Z) (fuel : nat) :
  2 <= x -> forall high, find_high fuel x 0 high = OutOfFuel.
Proof.
  intros Hx. induction fuel as [|fuel IH]; intros high; cbn [find_high];
    rewrite Z.pow_0_r; destruct (Z.ltb_spec 1 x); try lia; [done|apply IH].
Qed.

(** X3.  With the exponent [0] and [2 <= x] the doubling loop
    [while high ** n < x] never exits: it is still running after any number
    of iterations, from any starting value, and so [find_invpow] does not
    return. *)
Theorem find_invpow_exponent_zero_diverges (x : Z) :
  2 <= x ->
  (forall fuel high, find_high fuel x 0 high = OutOfFuel) /\
  find_invpow x 0 = OutOfFuel.
Proof.
  intros Hx. split.
  - intros fuel high. by apply find_high_exponent_zero.
  - unfold find_invpow. by rewrite find_high_exponent_zero.
Qed.

Lemma find_invpow_exponent_zero_diverges_witness :
  (forall fuel high, find_high fuel 2 0 high = OutOfFuel) /\
  find_invpow 2 0 = OutOfFuel.
Proof. apply (find_invpow_exponent_zero_diverges 2). lia. Defined.

(** *** chinese_remainder on arbitrary residues *)

Section Residues.
Variable N : list Z.
Hypothesis Hgt : Forall (fun x => 1 < x) N.

Lemma cofactor_div (x : Z) : x ∈ N -> 1 <= list_prod N / x /\ list_prod N = x * (list_prod N / x).
Proof.
  intros Hx. assert (Hx1 : 1 < x) by (eapply Forall_forall in Hgt; eauto).
  destruct (elem_divide_prod x N Hx) as [k Hk].
  pose proof (list_prod_pos N Hgt) as HP.
  rewrite Hk, Z.div_mul by lia. split; [nia|lia].
Qed.

Lemma crt_loop_residues (na : list (Z * Z)) :
  pairwise_coprime N = true ->
  forall s, NoDup na.*1 -> (forall x, x ∈ na.*1 -> x ∈ N) ->
  exists S, crt_loop (list_prod N) na s = Ret S /\
    forall y, y ∈ N ->
      (forall a, (y, a) ∈ na -> (y | S - s - a)) /\ (y ∉ na.*1 -> (y | S - s)).
Proof.
  intros Hpc. induction na as [|[x a] na IH]; intros s Hnd Hsub.
  - exists s. split; [reflexivity|]. intros y Hy. split.
    + intros a Hin. by apply not_elem_of_nil in Hin.
    + intros _. exists 0. lia.
  - cbn [fmap list_fmap fst] in Hnd, Hsub. apply NoDup_cons in Hnd as [HxL Hnd].
    assert (HxN : x ∈ N) by (apply Hsub; left).
    assert (Hx1 : 1 < x) by (eapply Forall_forall in Hgt; eauto).
    destruct (cofactor N x Hpc HxN) as (R & HP & Hg & Hdiv).
    assert (Hq : list_prod N / x = R).
    { rewrite HP, Z.mul_comm. apply Z.div_mul. lia. }
    assert (HP1 : 1 <= list_prod N) by (by apply list_prod_pos).
    assert (HR : 1 <= R) by nia.
    destruct (mul_inv_spec R x ltac:(lia) ltac:(lia)) as [_ Hinv].
    destruct (Hinv Hg) as (r & Hr & Hrb & Hrm & _).
    set (t := a * r * R).
    destruct (IH (s + t)) as (S & HS & HSdiv); [done| |].
    { intros z Hz. apply Hsub. by right. }
    exists S. split.
    { cbn [crt_loop]. unfold floordiv.
      destruct (Z.eqb_spec x 0) as [?|_]; [lia|].
      cbn. rewrite Hq, Hr. cbn. exact HS. }
    assert (Hxt : (x | t - a)).
    { pose proof (Z.div_mod (R * r) x ltac:(lia)) as E1. rewrite Hrm in E1.
      exists (a * (R * r / x)). subst t.
      set (k := R * r / x) in *.
      replace (a * r * R) with (a * (R * r)) by ring.
      rewrite E1. ring. }
    intros y Hy. destruct (HSdiv y Hy) as [Hin Hnot]. split.
    + intros b Hyb. apply elem_of_cons in Hyb as [[= -> ->]|Hyb].
      * replace (S - s - a) with ((S - (s + t)) + (t - a)) by lia.
        apply Z.divide_add_r; [by apply Hnot|done].
      * assert (y <> x).
        { intros ->. apply HxL. apply list_elem_of_fmap. by exists (x, b). }
        replace (S - s - b) with ((S - (s + t) - b) + t) by lia.
        apply Z.divide_add_r; [by apply Hin|].
        subst t. apply Z.divide_mul_r. by apply Hdiv.
    + intros HyL. cbn [fmap list_fmap fst] in HyL.
      apply not_elem_of_cons in HyL as [Hne HyL].
      replace (S - s) with ((S - (s + t)) + t) by lia.
      apply Z.divide_add_r; [by apply Hnot|].
      subst t. apply Z.divide_mul_r. by apply Hdiv.
Qed.

Lemma crt_loop_not_coprime (L : list Z) :
  forall (A : list Z) (s : Z),
    (forall x, x ∈ L -> x ∈ N) -> (length L <= length A)%nat ->
    (exists x, x ∈ L /\ Z.gcd (list_prod N / x) x <> 1) ->
    crt_loop (list_prod N) (zip L A) s = Raise ZeroDivisionError.
Proof.
  induction L as [|x L IH]; intros A s Hsub Hlen (b & Hb & Hbad).
  - by apply not_elem_of_nil in Hb.
  - destruct A as [|a A]; [cbn in Hlen; lia|]. cbn in Hlen.
    assert (HxN : x ∈ N) by (apply Hsub; left).
    assert (Hx1 : 1 < x) by (eapply Forall_forall in Hgt; eauto).
    destruct (cofactor_div x HxN) as [HR _].
    cbn [zip zip_with crt_loop]. unfold floordiv.
    destruct (Z.eqb_spec x 0) as [?|_]; [lia|]. cbn [mbind outcome_bind bind].
    destruct (mul_inv_spec (list_prod N / x) x HR ltac:(lia)) as [Hraise Hok].
    destruct (Z.eq_dec (Z.gcd (list_prod N / x) x) 1) as [Hg|Hg].
    + destruct (Hok Hg) as (r & -> & _). cbn [bind].
      apply IH; [| lia |].
      * intros z Hz. apply Hsub. by right.
      * exists b. split; [|done]. apply elem_of_cons in Hb as [->|Hb]; [done|done].
    + by rewrite (Hraise Hg).
Qed.

End Residues.

Lemma not_coprime_to (h : Z) (l : list Z) :
  coprime_to h l = false -> exists y, y ∈ l /\ Z.gcd h y <> 1.
Proof.
  induction l as [|y l IH]; cbn; [done|]. intros Hc.
  apply andb_false_iff in Hc as [Hy|Hl].
  - exists y. split; [left|]. by apply Z.eqb_neq.
  - destruct (IH Hl) as (z & Hz & Hg). exists z. split; [by right|done].
Qed.

Lemma not_pairwise_coprime (N : list Z) :
  Forall (fun x => 1 < x) N -> pairwise_coprime N = false ->
  exists x, x ∈ N /\ Z.gcd (list_prod N / x) x <> 1.
Proof.
  induction 1 as [|h l Hh Hl IH]; cbn [pairwise_coprime]; [done|]. intros Hpc.
  pose proof (list_prod_pos l Hl) as HP.
  apply andb_false_iff in Hpc as [Hc|Hc].
  - destruct (not_coprime_to h l Hc) as (y & Hy & Hg).
    exists h. split; [left|]. rewrite list_prod_cons, Z.mul_comm, Z.div_mul by lia.
    intros Hone. apply Hg. destruct (elem_divide_prod y l Hy) as [k Hk].
    apply Z.bezout_1_gcd. destruct (Z.gcd_bezout (list_prod l) h 1 Hone) as (u & v & Huv).
    exists v, (u * k). rewrite <- Huv, Hk. ring.
  - destruct (IH Hc) as (x & Hx & Hg). exists x. split; [by right|].
    destruct (elem_divide_prod x l Hx) as [k Hk].
    assert (Hx1 : 1 < x) by (eapply Forall_forall in Hl; eauto).
    rewrite list_prod_cons. rewrite Hk in Hg |- *.
    rewrite Z.div_mul in Hg by lia.
    replace (h * (k * x)) with (h * k * x) by ring. rewrite Z.div_mul by lia.
    intros Hone. apply Hg.
    apply Z.bezout_1_gcd. destruct (Z.gcd_bezout (h * k) x 1 Hone) as (u & v & Huv).
    exists (u * h), v. rewrite <- Huv. ring.
Qed.

Lemma chinese_remainder_unfold (h : Z) (t a : list Z) :
  chinese_remainder (h :: t) a
  = bind (crt_loop (list_prod (h :: t)) (zip (h :: t) a) 0)
         (fun sum => pymod sum (list_prod (h :: t))).
Proof.
  unfold chinese_remainder, reduce_mul. cbn [mbind outcome_bind bind].
  by rewrite fold_left_mul_prod, <- list_prod_cons.
Qed.

(** X4.  For pairwise coprime moduli greater than 1 and any residues (at
    least as many as moduli; the surplus is not read), [chinese_remainder]
    returns the one [x] in [[0, prod)] with [x = a_i (mod n_i)] for every
    [i]. *)
Theorem chinese_remainder_solves_congruences (n a : list Z) :
  n <> [] -> Forall (fun n_i => 1 < n_i) n -> pairwise_coprime n = true ->
  (length n <= length a)%nat ->
  exists x, chinese_remainder n a = Ret x /\
    0 <= x < list_prod n /\
    (forall i n_i a_i, n !! i = Some n_i -> a !! i = Some a_i -> x mod n_i = a_i mod n_i) /\
    (forall x', 0 <= x' < list_prod n ->
       (forall i n_i a_i, n !! i = Some n_i -> a !! i = Some a_i -> x' mod n_i = a_i mod n_i) ->
       x' = x).
Proof.
  intros Hne Hgt Hpc Hlen.
  assert (Hfst : (zip n a).*1 = n) by (apply fst_zip; lia).
  destruct (crt_loop_residues n Hgt (zip n a) Hpc 0) as (S & HS & Hdiv).
  { rewrite Hfst. by apply pairwise_coprime_NoDup. }
  { by rewrite Hfst. }
  assert (HP1 : 1 <= list_prod n) by (by apply list_prod_pos).
  assert (Hcong : forall i n_i a_i, n !! i = Some n_i -> a !! i = Some a_i ->
                    (S mod list_prod n) mod n_i = a_i mod n_i).
  { intros i n_i a_i Hn Ha.
    assert (Hin : n_i ∈ n) by (eapply list_elem_of_lookup_2; eauto).
    assert (Hn1 : 1 < n_i) by (eapply Forall_forall in Hgt; eauto).
    destruct (Hdiv n_i Hin) as [Hres _].
    destruct (Hres a_i) as [k Hk].
    { apply list_elem_of_lookup. exists i. apply lookup_zip_with_Some. eauto. }
    destruct (elem_divide_prod n_i n Hin) as [c Hc].
    rewrite Hc at 1. rewrite Z.mul_comm, Z.rem_mul_r by nia.
    rewrite (Z.mul_comm n_i), Z.mod_add by lia. rewrite Z.mod_mod by lia.
    replace S with (a_i + k * n_i) by lia. apply Z.mod_add. lia. }
  exists (S mod list_prod n). split; [|split; [|split]].
  - destruct n as [|h t]; [done|]. rewrite chinese_remainder_unfold, HS. cbn [bind].
    unfold pymod. destruct (Z.eqb_spec (list_prod (h :: t)) 0); [lia|done].
  - apply Z.mod_pos_bound. lia.
  - exact Hcong.
  - intros x' Hx' Hc'.
    assert (Hd : (list_prod n | x' - S mod list_prod n)).
    { apply prod_divide; [done|]. intros y Hy.
      assert (Hy1 : 1 < y) by (eapply Forall_forall in Hgt; eauto).
      apply list_elem_of_lookup in Hy as [i Hi].
      destruct (lookup_lt_is_Some_2 a i) as [a_i Ha].
      { apply lookup_lt_Some in Hi. lia. }
      pose proof (Hc' i y a_i Hi Ha) as E1. pose proof (Hcong i y a_i Hi Ha) as E2.
      apply Z.mod_divide; [lia|].
      rewrite Zminus_mod, E1, E2, Z.sub_diag. apply Z.mod_0_l. lia. }
    pose proof (Z.mod_pos_bound S (list_prod n) ltac:(lia)) as Hb.
    destruct Hd as [k Hk]. clear Hcong.
    set (r := S mod list_prod n) in *. clearbody r.
    assert (k = 0) by nia. lia.
Qed.

Lemma chinese_remainder_solves_congruences_witness :
  exists x, chinese_remainder [3; 5; 7] [2; 3; 2] = Ret x /\
    0 <= x < list_prod [3; 5; 7] /\
    (forall i n_i a_i, [3; 5; 7] !! i = Some n_i -> [2; 3; 2] !! i = Some a_i ->
                       x mod n_i = a_i mod n_i).
Proof.
  destruct (chinese_remainder_solves_congruences [3; 5; 7] [2; 3; 2])
    as (x & Hx & Hb & Hc & _).
  - discriminate.
  - repeat constructor.
  - reflexivity.
  - cbn. lia.
  - exists x. split; [exact Hx|]. split; [exact Hb|exact Hc].
Defined.

(** X5.  When the moduli (each greater than 1) are not pairwise coprime,
    [chinese_remainder] raises [ZeroDivisionError], whatever the residues:
    the inverse of a cofactor does not exist and [mul_inv] divides by
    zero. *)
Theorem chinese_remainder_not_coprime_raises (n a : list Z) :
  Forall (fun n_i => 1 < n_i) n -> pairwise_coprime n = false ->
  (length n <= length a)%nat ->
  chinese_remainder n a = Raise ZeroDivisionError.
Proof.
  intros Hgt Hpc Hlen. destruct n as [|h t]; [done|].
  rewrite chinese_remainder_unfold.
  rewrite (crt_loop_not_coprime (h :: t) Hgt (h :: t) a 0); [done|done|done|].
  by apply not_pairwise_coprime.
Qed.

Lemma chinese_remainder_not_coprime_raises_witness :
  chinese_remainder [6; 35; 10] [1; 2; 3] = Raise ZeroDivisionError.
Proof.
  apply (chinese_remainder_not_coprime_raises [6; 35; 10] [1; 2; 3]).
  - repeat constructor.
  - reflexivity.
  - cbn. lia.
Defined.

End HastadArithmetic.

(** ** Further properties of the Håstad attack *)

Section HastadAttack.
Import Hastads.

Lemma Z_of_byte_of_Z (r : Z) : 0 <= r < 256 -> Z_of_byte (byte_of_Z r) = r.
Proof.
  intros Hr. unfold Z_of_byte, byte_of_Z.
  destruct (Byte.of_N (Z.to_N r)) as [b|] eqn:E.
  - apply Byte.to_of_N in E. rewrite E. lia.
  - apply Byte.of_N_None_iff in E. lia.
Qed.

Lemma int_from_bytes_be_bytes (fuel : nat) :
  forall v acc, 0 <= v < 256 ^ Z.of_nat fuel ->
    fold_left (fun a x => a * 256 + Z_of_byte x) (be_bytes fuel v acc) 0
    = fold_left (fun a x => a * 256 + Z_of_byte x) acc v.
Proof.
  induction fuel as [|fuel IH]; intros v acc Hv.
  - cbn in Hv. cbn [be_bytes]. by replace v with 0 by lia.
  - cbn [be_bytes]. destruct (Z.eqb_spec v 0) as [->|Hne]; [done|].
    rewrite IH.
    + cbn [fold_left]. rewrite Z_of_byte_of_Z by (apply Z.mod_pos_bound; lia).
      f_equal. pose proof (Z.div_mod v 256 ltac:(lia)). lia.
    + rewrite Nat2Z.inj_succ, Z.pow_succ_r in Hv by lia.
      split; [apply Z.div_pos; lia|apply Z.div_lt_upper_bound; lia].
Qed.

Lemma be_bytes_head (fuel : nat) :
  forall v acc, 0 <= v < 256 ^ Z.of_nat fuel ->
    (v = 0 -> head acc <> Some x00) ->
    head (be_bytes fuel v acc) <> Some x00.
Proof.
  induction fuel as [|fuel IH]; intros v acc Hv Hacc.
  - cbn in Hv. cbn [be_bytes]. apply Hacc. lia.
  - cbn [be_bytes]. destruct (Z.eqb_spec v 0) as [->|Hne]; [by apply Hacc|].
    rewrite Nat2Z.inj_succ, Z.pow_succ_r in Hv by lia.
    apply IH.
    + split; [apply Z.div_pos; lia|apply Z.div_lt_upper_bound; lia].
    + intros Hq. cbn [head]. intros [= Hb].
      assert (Hsmall : v < 256).
      { pose proof (Z.div_mod v 256 ltac:(lia)).
        pose proof (Z.mod_pos_bound v 256 ltac:(lia)). lia. }
      rewrite Z.mod_small in Hb by lia.
      pose proof (Z_of_byte_of_Z v ltac:(lia)) as Hr. rewrite Hb in Hr.
      cbn in Hr. lia.
Qed.

Lemma pow256_log2 (m : Z) : 0 <= m -> m < 256 ^ Z.of_nat (S (Z.to_nat (Z.log2 m))).
Proof.
  intros Hm. pose proof (Z.log2_nonneg m).
  destruct (Z.eq_dec m 0) as [->|Hne]; [cbn; lia|].
  destruct (Z.log2_spec m ltac:(lia)) as [_ Hup].
  eapply Z.lt_le_trans; [exact Hup|].
  rewrite Nat2Z.inj_succ, Z2Nat.id by lia.
  change 256 with (2 ^ 8). rewrite <- Z.pow_mul_r by lia.
  apply Z.pow_le_mono_r; lia.
Qed.

Lemma minimal_big_endian_value (m : Z) :
  0 <= m -> int_from_bytes_big (minimal_big_endian m) = m.
Proof.
  intros Hm. unfold int_from_bytes_big, minimal_big_endian.
  rewrite int_from_bytes_be_bytes; [done|]. split; [done|by apply pow256_log2].
Qed.

Lemma minimal_big_endian_head (m : Z) :
  0 <= m -> head (minimal_big_endian m) <> Some x00.
Proof.
  intros Hm. apply be_bytes_head; [|done]. split; [done|by apply pow256_log2].
Qed.

(** *** The hexadecimal digits of the root *)

Lemma hex_value_not_space (c : ascii) (d : Z) : hex_value c = Some d -> is_space c = false.
Proof.
  destruct c as [[] [] [] [] [] [] [] []]; vm_compute; intros H; try discriminate H;
    reflexivity.
Qed.

Lemma fromhex_hex_string (n : nat) :
  forall s, (String.length s <= n)%nat -> hex_string s = true ->
    if Nat.even (String.length s)
    then exists b, fromhex s = Ret b
    else fromhex s = Raise ValueError.
Proof.
  induction n as [n IH] using (well_founded_induction lt_wf).
  intros s Hlen Hhex. destruct s as [|c s]; [by exists []|].
  cbn [hex_string] in Hhex. apply andb_true_iff in Hhex as [Hc Hs].
  apply bool_decide_eq_true in Hc as [h Hh].
  cbn [fromhex]. rewrite (hex_value_not_space c h Hh).
  destruct s as [|d s]; [done|].
  cbn [hex_string] in Hs. apply andb_true_iff in Hs as [Hd Hs].
  apply bool_decide_eq_true in Hd as [l Hl]. rewrite Hh, Hl. fold fromhex.
  cbn [String.length] in Hlen |- *.
  change (Nat.even (S (S (String.length s)))) with (Nat.even (String.length s)).
  pose proof (IH (String.length s) ltac:(lia) s ltac:(lia) Hs) as Hrec.
  destruct (Nat.even (String.length s)).
  - destruct Hrec as [b ->]. by eexists.
  - by rewrite Hrec.
Qed.

Lemma hex_digit_value (d : Z) : 0 <= d < 16 -> bool_decide (is_Some (hex_value (hex_digit d))) = true.
Proof.
  intros Hd. destruct (hex_digit_spec d Hd) as [_ ->]. by apply bool_decide_eq_true.
Qed.

Lemma hex_digits_shape (fh : nat) :
  forall v acc, 0 <= v -> Z.log2 v / 4 <= Z.of_nat fh -> hex_string acc = true ->
    hex_string (hex_digits fh v acc) = true /\
    String.length (hex_digits fh v acc) = (Z.to_nat (Z.log2 v / 4 + 1) + String.length acc)%nat.
Proof.
  induction fh as [|fh IH]; intros v acc Hv Hfh Hacc.
  - assert (Hsmall : v < 16).
    { destruct (Z.lt_ge_cases v 16) as [|Hge]; [done|]. exfalso.
      assert (4 <= Z.log2 v) by (apply Z.log2_le_pow2; lia).
      assert (1 <= Z.log2 v / 4) by (apply Z.div_le_lower_bound; lia). lia. }
    cbn [hex_digits hex_string String.length]. rewrite Z.mod_small by lia.
    rewrite hex_digit_value, Hacc by lia. split; [done|].
    assert (Z.log2 v < 4) by (destruct (Z.eq_dec v 0) as [->|]; [cbn; lia|apply Z.log2_lt_pow2; lia]).
    pose proof (Z.log2_nonneg v). rewrite Z.div_small by lia. reflexivity.
  - cbn [hex_digits]. destruct (Z.ltb_spec v 16) as [Hsmall|Hbig].
    + cbn [hex_string String.length]. rewrite hex_digit_value, Hacc by lia. split; [done|].
      assert (Z.log2 v < 4) by (destruct (Z.eq_dec v 0) as [->|]; [cbn; lia|apply Z.log2_lt_pow2; lia]).
      pose proof (Z.log2_nonneg v). rewrite Z.div_small by lia. reflexivity.
    + assert (Hlog : Z.log2 (v / 16) = Z.log2 v - 4).
      { change 16 with (2 ^ 4). rewrite <- Z.shiftr_div_pow2 by lia.
        rewrite Z.log2_shiftr by lia.
        assert (4 <= Z.log2 v) by (apply Z.log2_le_pow2; lia). lia. }
      assert (Hdiv : Z.log2 (v / 16) / 4 = Z.log2 v / 4 - 1).
      { rewrite Hlog. replace (Z.log2 v - 4) with (Z.log2 v + (-1) * 4) by lia.
        rewrite Z.div_add by lia. lia. }
      assert (1 <= Z.log2 v / 4).
      { apply Z.div_le_lower_bound; [lia|]. assert (4 <= Z.log2 v) by (apply Z.log2_le_pow2; lia). lia. }
      destruct (IH (v / 16) (String (hex_digit (v mod 16)) acc)) as [Hh Hl].
      * apply Z.div_pos; lia.
      * lia.
      * cbn [hex_string]. rewrite hex_digit_value, Hacc by (apply Z.mod_pos_bound; lia). done.
      * split; [done|]. rewrite Hl, Hdiv. cbn [String.length]. lia.
Qed.

Lemma even_to_nat (z : Z) : 0 <= z -> Nat.even (Z.to_nat z) = Z.even z.
Proof.
  intros Hz. destruct (Z.even z) eqn:E.
  - apply Z.even_spec in E as [k ->]. apply Nat.even_spec. exists (Z.to_nat k). lia.
  - rewrite <- Z.negb_odd in E. apply negb_false_iff in E.
    apply Z.odd_spec in E as [k ->]. rewrite <- Nat.negb_odd. apply negb_false_iff.
    apply Nat.odd_spec. exists (Z.to_nat k). lia.
Qed.

Lemma hex_length_spec (m : Z) :
  0 <= m -> String.length (drop2 (hex m)) = Z.to_nat (hex_length m).
Proof.
  intros Hm. unfold hex. destruct (Z.ltb_spec m 0); [lia|].
  cbn [drop2]. unfold hex_of_nonneg.
  pose proof (Z.log2_nonneg m) as Hl0.
  assert (Hq : 0 <= Z.log2 m / 4 <= Z.log2 m).
  { split; [apply Z.div_pos; lia|]. apply Z.div_le_upper_bound; lia. }
  destruct (hex_digits_shape (Z.to_nat (Z.log2 m)) m EmptyString Hm ltac:(lia) eq_refl)
    as [_ Hlen].
  rewrite Hlen. cbn [String.length]. unfold hex_length. lia.
Qed.

Lemma fromhex_hex_odd (m : Z) :
  0 <= m -> Z.odd (hex_length m) = true -> fromhex (drop2 (hex m)) = Raise ValueError.
Proof.
  intros Hm Hodd. unfold hex. destruct (Z.ltb_spec m 0); [lia|].
  cbn [drop2]. unfold hex_of_nonneg.
  pose proof (Z.log2_nonneg m) as Hl0.
  assert (Hq : 0 <= Z.log2 m / 4 <= Z.log2 m).
  { split; [apply Z.div_pos; lia|]. apply Z.div_le_upper_bound; lia. }
  destruct (hex_digits_shape (Z.to_nat (Z.log2 m)) m EmptyString Hm ltac:(lia) eq_refl)
    as [Hh Hlen].
  pose proof (fromhex_hex_string _ _ (Nat.le_refl _) Hh) as Hf.
  rewrite Hlen in Hf. cbn [String.length] in Hf. rewrite Nat.add_0_r in Hf.
  unfold hex_length in Hodd.
  assert (Hev : Nat.even (Z.to_nat (Z.log2 m / 4 + 1)) = false).
  { rewrite even_to_nat by lia. by rewrite <- Z.negb_odd, Hodd. }
  by rewrite Hev in Hf.
Qed.

(** X6.  End to end: for keys with one common exponent [1 <= e < 11],
    pairwise coprime moduli whose product exceeds [m ** e], and the residues
    of [m ** e] as ciphertexts, the attack returns the big-endian bytes of
    [m] without a leading zero byte, provided [m] is not a power of two and
    is written with an even number of hexadecimal digits. *)
Theorem hastad_plaintext_round_trip {PK : Type} (keys : list PublicKey)
    (cipher : list bytes) (m e : Z) :
  keys <> [] -> Forall (fun k => pk_e k = e) keys -> 1 <= e < 11 ->
  Forall (fun n_i => 1 < n_i) (map pk_n keys) ->
  pairwise_coprime (map pk_n keys) = true ->
  0 < m -> m ^ e < list_prod (map pk_n keys) ->
  map int_from_bytes_big cipher = map (fun n_i => m ^ e mod n_i) (map pk_n keys) ->
  ~ is_pow2 m -> Nat.even (String.length (drop2 (hex m))) = true ->
  exists unciphered,
    attack (PrivateKey := PK) (KeyList keys) cipher = Ret (None, Some unciphered) /\
    int_from_bytes_big unciphered = m /\
    head unciphered <> Some x00.
Proof.
  intros Hne Hall He Hgt Hpc Hm Hlt Hc Hnp Hev.
  rewrite hex_length_spec, even_to_nat in Hev by (unfold hex_length; pose proof (Z.log2_nonneg m); pose proof (Z.div_pos (Z.log2 m) 4); lia).
  exists (minimal_big_endian m). split; [|split].
  - by apply (hastad_recovers_plaintext keys cipher m e).
  - apply minimal_big_endian_value. lia.
  - apply minimal_big_endian_head. lia.
Qed.

Lemma not_pow2_odd (m : Z) : 1 < m -> Z.odd m = true -> ~ is_pow2 m.
Proof.
  intros Hm Hodd (j & Hj & ->). destruct (Z.eq_dec j 0) as [->|Hj0]; [cbn in Hm; lia|].
  replace j with (Z.succ (j - 1)) in Hodd by lia.
  rewrite Z.pow_succ_r, Z.odd_mul in Hodd by lia. discriminate.
Qed.

Lemma hastad_plaintext_round_trip_witness :
  exists unciphered,
    attack (PrivateKey := unit) (KeyList [key 29989 3; key 29993 3; key 29995 3])
      [[x3d; xc2]; [x29; x09]; [x1d; xf0]] = Ret (None, Some unciphered) /\
    int_from_bytes_big unciphered = 26729 /\
    head unciphered <> Some x00.
Proof.
  apply (hastad_plaintext_round_trip (PK := unit)
           [key 29989 3; key 29993 3; key 29995 3]
           [[x3d; xc2]; [x29; x09]; [x1d; xf0]] 26729 3).
  - discriminate.
  - repeat constructor.
  - lia.
  - repeat constructor.
  - vm_compute. reflexivity.
  - lia.
  - vm_compute. reflexivity.
  - vm_compute. reflexivity.
  - apply not_pow2_odd; [lia|reflexivity].
  - vm_compute. reflexivity.
Defined.

(** X7.  Under the same conditions but with [m] written with an odd
    number of hexadecimal digits ([0 <= m]; zero included), the attack raises
    [ValueError]: [hex(...)[2:]] is handed to [bytes.fromhex] without a
    padding zero. *)
Theorem hastad_odd_hex_length_raises {PK : Type} (keys : list PublicKey)
    (cipher : list bytes) (m e : Z) :
  keys <> [] -> Forall (fun k => pk_e k = e) keys -> 1 <= e < 11 ->
  Forall (fun n_i => 1 < n_i) (map pk_n keys) ->
  pairwise_coprime (map pk_n keys) = true ->
  0 <= m -> m ^ e < list_prod (map pk_n keys) ->
  map int_from_bytes_big cipher = map (fun n_i => m ^ e mod n_i) (map pk_n keys) ->
  ~ is_pow2 m -> Nat.even (String.length (drop2 (hex m))) = false ->
  attack (PrivateKey := PK) (KeyList keys) cipher = Raise ValueError.
Proof.
  intros Hne Hall He Hgt Hpc Hm Hlt Hc Hnp Hev.
  rewrite hex_length_spec, even_to_nat in Hev by (unfold hex_length; pose proof (Z.log2_nonneg m); pose proof (Z.div_pos (Z.log2 m) 4); lia).
  destruct (usable_exponents_single keys e Hne Hall ltac:(lia)) as [Hf Hset].
  unfold attack. fold (usable_exponents keys). rewrite Hf, Hset, Hc.
  rewrite size_singleton. rewrite bool_decide_false by lia.
  rewrite elements_singleton.
  assert (Hnn : map pk_n keys <> []) by (destruct keys; done).
  destruct (hastad_recovered_integer (map pk_n keys) m e Hnn Hgt Hpc ltac:(lia) ltac:(lia) Hlt)
    as [Hroot _].
  specialize (Hroot Hnp).
  destruct (chinese_remainder _ _) as [result| |]; cbn [mbind outcome_bind bind] in *;
    try discriminate.
  rewrite Hroot. cbn [mbind outcome_bind bind].
  rewrite fromhex_hex_odd; [done|lia|]. by rewrite <- Z.negb_even, Hev.
Qed.

Lemma hastad_odd_hex_length_raises_witness :
  attack (PrivateKey := unit) (KeyList [key 7 3; key 11 3; key 13 3]) [[x06]; [x05]; [x01]]
  = Raise ValueError.
Proof.
  apply (hastad_odd_hex_length_raises (PK := unit)
           [key 7 3; key 11 3; key 13 3] [[x06]; [x05]; [x01]] 3 3).
  - discriminate.
  - repeat constructor.
  - lia.
  - repeat constructor.
  - vm_compute. reflexivity.
  - lia.
  - vm_compute. reflexivity.
  - vm_compute. reflexivity.
  - apply not_pow2_odd; [lia|reflexivity].
  - vm_compute. reflexivity.
Defined.

(** *** Which inputs the attack reads *)

Lemma map_take {A B : Type} (f : A -> B) (k : nat) (l : list A) :
  map f (take k l) = take k (map f l).
Proof. revert k. induction l as [|x l IH]; intros [|k]; cbn; [done..|]. by rewrite IH. Qed.

Lemma chinese_remainder_take (n a : list Z) :
  chinese_remainder n (take (length n) a) = chinese_remainder n a.
Proof.
  destruct n as [|h t]; [done|].
  by rewrite !chinese_remainder_unfold, zip_with_take_r.
Qed.

(** X8.  The attack reads the keys with [e < 11] only and pairs the i-th
    of them with the i-th ciphertext: a key with a larger exponent is left
    out without leaving out a ciphertext, and the ciphertexts beyond the
    number of keys used are not read. *)
Theorem hastad_reads_usable_keys {PK : Type} (publickeys : list PublicKey)
    (cipher : list bytes) :
  attack (PrivateKey := PK) (KeyList publickeys) cipher
  = attack (PrivateKey := PK) (KeyList (usable_keys publickeys))
      (take (length (usable_keys publickeys)) cipher).
Proof.
  unfold attack, usable_keys.
  rewrite (list_filter_filter_l (fun k => pk_e k < 11) (fun k => pk_e k < 11)) by done.
  destruct (bool_decide _); [done|]. destruct (elements _) as [|e es]; [done|].
  rewrite map_take.
  rewrite <- (length_map pk_n (filter (fun k => pk_e k < 11) publickeys)).
  by rewrite chinese_remainder_take.
Qed.

End HastadAttack.

(** ** Further properties of the lattice pruning *)

Section PruningMore.
Import BonehDurfee.
Context {M : Type}.
Variable cfg : config.

Lemma elem_of_range_down (current ii : Z) :
  ii ∈ range_down current -> 0 <= ii <= current.
Proof. unfold range_down. rewrite elem_of_reverse, elem_of_seqZ. lia. Qed.

Lemma scan_all_helpful
    (recurse : matrix -> list M -> Z -> Z -> outcome (matrix * list M))
    (BB : matrix) (mons : list M) (bound : Z) (iis : list Z) :
  (forall ii, ii ∈ iis -> exists d, entry BB ii ii = Ret d /\ d < bound) ->
  scan recurse BB mons bound iis = Ret (BB, mons).
Proof.
  induction iis as [|ii iis IH]; intros Hd; [done|].
  destruct (Hd ii ltac:(left)) as (d & Hent & Hlt).
  cbn [scan]. rewrite Hent. cbn [mbind outcome_bind bind].
  destruct (Z.leb_spec bound d); [lia|].
  apply IH. intros k Hk. apply Hd. by right.
Qed.

(** X9.  When every diagonal entry up to [current] is below the bound,
    [remove_unhelpful] returns the lattice and the monomials as they are. *)
Theorem remove_unhelpful_nothing_to_remove (BB : matrix) (mons : list M)
    (bound current : Z) :
  -1 <= current ->
  (forall ii, 0 <= ii <= current -> exists d, entry BB ii ii = Ret d /\ d < bound) ->
  remove_unhelpful cfg BB mons bound current = Ret (BB, mons).
Proof.
  intros Hcur Hd. unfold remove_unhelpful. cbn [remove_unhelpful_rec].
  destruct (_ || _); [done|].
  apply scan_all_helpful. intros ii Hii. apply Hd. by apply elem_of_range_down.
Qed.

(** *** How far the pruning goes *)

Lemma drop_from_nil {A : Type} (i : Z) (l : list A) : drop_from [] i l = l.
Proof. apply drop_from_above. intros k Hk. by apply not_elem_of_nil in Hk. Qed.

Lemma length_drop_from_le {A : Type} (d : list Z) (i : Z) (l : list A) :
  (length (drop_from d i l) <= length l)%nat.
Proof.
  revert i. induction l as [|x l IH]; intros i; cbn [drop_from]; [done|].
  specialize (IH (i + 1)). case_bool_decide; cbn [length]; lia.
Qed.

Lemma length_drop_from_cons {A : Type} (k : Z) (d : list Z) (l : list A) :
  forall i, (length (drop_from d i l) <= S (length (drop_from (k :: d) i l)))%nat.
Proof.
  induction l as [|x l IH]; intros i; cbn [drop_from]; [cbn; lia|].
  specialize (IH (i + 1)).
  destruct (decide (i ∈ d)) as [Hin|Hnin].
  - rewrite !bool_decide_true by (done || by right). done.
  - rewrite (bool_decide_false (i ∈ d)) by done.
    destruct (decide (i = k)) as [->|Hne].
    + rewrite bool_decide_true by left. cbn [length].
      rewrite (drop_from_ext (k :: d) d (k + 1) l); [done|].
      intros j Hj. rewrite elem_of_cons. split; [intros [?|?]; [lia|done]|by right].
    + rewrite bool_decide_false; [cbn [length]; lia|].
      rewrite elem_of_cons. intros [?|?]; done.
Qed.

Lemma length_drop_from_ge {A : Type} (d : list Z) (i : Z) (l : list A) :
  (length l <= length (drop_from d i l) + length d)%nat.
Proof.
  induction d as [|k d IH]; [by rewrite drop_from_nil; cbn; lia|].
  pose proof (length_drop_from_cons k d l i). cbn [length]. lia.
Qed.

Lemma nrows_delete (BB BB1 BB2 : matrix) (d : list Z) :
  delete_columns BB d = Ret BB1 -> delete_rows BB1 d = Ret BB2 ->
  nrows BB - Z.of_nat (length d) <= nrows BB2 <= nrows BB.
Proof.
  unfold delete_columns, delete_rows. destruct (in_range (ncols BB) d); [|done].
  intros [= <-]. destruct (in_range _ d); [|done]. intros [= <-].
  unfold nrows.
  pose proof (length_drop_from_le d 0 (map (drop_from d 0) BB)) as H1.
  pose proof (length_drop_from_ge d 0 (map (drop_from d 0) BB)) as H2.
  rewrite length_map in H1, H2. lia.
Qed.

Lemma scan_size
    (recurse : matrix -> list M -> Z -> Z -> outcome (matrix * list M))
    (BB : matrix) (mons : list M) (bound lo : Z) (iis : list Z)
    (r : matrix * list M) :
  (forall BB2 mons2 c r2, nrows BB - 2 <= nrows BB2 <= nrows BB ->
     recurse BB2 mons2 bound c = Ret r2 -> lo <= nrows r2.1 <= nrows BB) ->
  lo <= nrows BB ->
  scan recurse BB mons bound iis = Ret r -> lo <= nrows r.1 <= nrows BB.
Proof.
  intros Hrec Hlo. induction iis as [|ii iis IH]; cbn [scan].
  { intros [= <-]. cbn. lia. }
  destruct (entry BB ii ii) as [d| |]; cbn [mbind outcome_bind bind]; [|done..].
  destruct (bound <=? d); [|exact IH].
  destruct (affected _ _ _ _ _) as [[av avi]| |]; cbn [mbind outcome_bind bind]; [|done..].
  destruct (av =? 0).
  { destruct (delete_columns BB [ii]) as [BB1| |] eqn:Hc; cbn [mbind outcome_bind bind]; [|done..].
    destruct (delete_rows BB1 [ii]) as [BB2| |] eqn:Hr; cbn [mbind outcome_bind bind]; [|done..].
    destruct (pop mons ii) as [mons1| |]; cbn [mbind outcome_bind bind]; [|done..].
    apply Hrec. pose proof (nrows_delete _ _ _ _ Hc Hr). cbn [length] in *. lia. }
  destruct (av =? 1); [|exact IH].
  destruct (deeper _ _ _ _) as [ad| |]; cbn [mbind outcome_bind bind]; [|done..].
  destruct ad; cbn [mbind outcome_bind bind].
  - destruct (entry BB avi avi) as [dj| |]; cbn [mbind outcome_bind bind]; [|done..].
    destruct (_ <? _); [|exact IH].
    destruct (delete_columns BB [avi; ii]) as [BB1| |] eqn:Hc; cbn [mbind outcome_bind bind]; [|done..].
    destruct (delete_rows BB1 [avi; ii]) as [BB2| |] eqn:Hr; cbn [mbind outcome_bind bind]; [|done..].
    destruct (pop mons avi) as [mons1| |]; cbn [mbind outcome_bind bind]; [|done..].
    destruct (pop mons1 ii) as [mons2| |]; cbn [mbind outcome_bind bind]; [|done..].
    apply Hrec. pose proof (nrows_delete _ _ _ _ Hc Hr). cbn [length] in *. lia.
  - exact IH.
Qed.

Lemma remove_unhelpful_rec_size (bound : Z) (fuel : nat) :
  forall BB (mons : list M) current r,
    remove_unhelpful_rec cfg fuel BB mons bound current = Ret r ->
    Z.min (nrows BB) (dimension_min cfg - 1) <= nrows r.1 <= nrows BB.
Proof.
  induction fuel as [|fuel IH]; intros BB mons current r; cbn [remove_unhelpful_rec]; [done|].
  destruct (Z.eqb_spec current (-1)) as [_|_]; cbn [orb].
  { intros [= <-]. cbn. lia. }
  destruct (Z.leb_spec (nrows BB) (dimension_min cfg)) as [_|Hdim].
  { intros [= <-]. cbn. lia. }
  intros Hscan.
  pose proof (scan_size (remove_unhelpful_rec cfg fuel) BB mons bound
                (dimension_min cfg - 1) (range_down current) r) as Hs.
  destruct Hs as [H1 H2]; [|lia|exact Hscan|lia].
  intros BB2 mons2 c r2 Hb Hr2. specialize (IH BB2 mons2 c r2 Hr2). lia.
Qed.

End PruningMore.

Lemma remove_unhelpful_nothing_to_remove_witness :
  BonehDurfee.remove_unhelpful BonehDurfee.default_config example_lattice (seq 0 8) 100 7
  = Ret (example_lattice, seq 0 8).
Proof.
  apply (remove_unhelpful_nothing_to_remove BonehDurfee.default_config example_lattice (seq 0 8) 100 7); [lia|].
  intros ii Hii.
  assert (Hcases : ii = 0 \/ ii = 1 \/ ii = 2 \/ ii = 3 \/ ii = 4 \/ ii = 5 \/ ii = 6 \/ ii = 7)
    by lia.
  repeat (destruct Hcases as [->|Hcases]; [eexists; split; [reflexivity|lia]|]).
  subst ii. eexists; split; [reflexivity|lia].
Defined.


Section PruningFloor.
Import BonehDurfee.

Lemma remove_unhelpful_returns {M : Type} (cfg : config) (BB : matrix) (mons : list M)
    (bound current : Z) :
  is_square BB = true -> nrows BB = Z.of_nat (length mons) ->
  -1 <= current < nrows BB ->
  exists r, remove_unhelpful cfg BB mons bound current = Ret r /\ is_square r.1 = true /\
            nrows r.1 = Z.of_nat (length r.2).
Proof.
  intros Hsq Hn Hcur. unfold nrows in Hn, Hcur. apply Nat2Z.inj in Hn.
  destruct mons as [|m0 mons_tl] eqn:Hmons.
  { destruct BB; [|done]. assert (current = -1) by (cbn in Hcur; lia). subst current.
    by exists ([], []). }
  rewrite <- Hmons in *. clear Hmons mons_tl.
  pose (HI := populate m0 : Inhabited M).
  pose proof (remove_unhelpful_rec_spec cfg BB mons bound (S (Z.to_nat (current + 1)))
                (seq 0 (length mons)) current (increasing_seq _)) as Hspec.
  rewrite length_seq, submatrix_all, lookup_total_seq_id in Hspec by done.
  destruct Hspec as (keep & Hk & _); [lia|lia|].
  eexists. split; [exact Hk|]. cbn. split; [apply is_square_submatrix|].
  by rewrite nrows_submatrix, length_fmap.
Qed.

(** X10.  [remove_unhelpful] never enlarges the lattice and stops one row
    short of [dimension_min] at the latest: the test is made before a removal
    and a removal takes one or two rows, so the result has at least
    [min(rows, dimension_min - 1)] rows. *)
Theorem remove_unhelpful_dimension_floor {M : Type} (cfg : config) (BB : matrix)
    (mons : list M) (bound current : Z) :
  is_square BB = true -> nrows BB = Z.of_nat (length mons) ->
  -1 <= current < nrows BB ->
  exists BB' mons',
    remove_unhelpful cfg BB mons bound current = Ret (BB', mons') /\
    Z.min (nrows BB) (dimension_min cfg - 1) <= nrows BB' <= nrows BB.
Proof.
  intros Hsq Hn Hcur.
  destruct (remove_unhelpful_returns cfg BB mons bound current Hsq Hn Hcur)
    as ([BB' mons'] & Hr & _).
  exists BB', mons'. split; [exact Hr|].
  apply (remove_unhelpful_rec_size cfg bound _ BB mons current (BB', mons') Hr).
Qed.

Lemma remove_unhelpful_dimension_floor_witness :
  exists BB' mons',
    remove_unhelpful default_config example_lattice (seq 0 8) 10 7 = Ret (BB', mons') /\
    Z.min (nrows example_lattice) (dimension_min default_config - 1) <= nrows BB'
      <= nrows example_lattice.
Proof.
  apply (remove_unhelpful_dimension_floor default_config example_lattice (seq 0 8) 10 7).
  - reflexivity.
  - reflexivity.
  - split; [lia|vm_compute; reflexivity].
Defined.

End PruningFloor.

(** ** The lattice basis *)

Section Lattice.
Import BonehDurfee.
Context `{Sage}.

Lemma mapM_outcome_Ret {A B : Type} (f : A -> outcome B) (l : list A) (r : list B) :
  mapM f l = Ret r ->
  length r = length l /\
  forall i x, l !! i = Some x -> exists y, f x = Ret y /\ r !! i = Some y.
Proof.
  revert r. induction l as [|x l IH]; intros r.
  - intros [= <-]. split; [done|]. intros i x Hx. by rewrite lookup_nil in Hx.
  - change (mapM f (x :: l)) with (y ← f x; k ← mapM f l; mret (y :: k)).
    destruct (f x) as [y| |] eqn:Hy; cbn [mbind outcome_bind bind]; [|done..].
    destruct (mapM f l) as [k| |]; cbn [mbind outcome_bind bind]; [|done..].
    intros [= <-]. destruct (IH k eq_refl) as [Hlen Hget]. split; [cbn; lia|].
    intros [|i] z Hz.
    + injection Hz as <-. by exists y.
    + by apply Hget.
Qed.

Lemma mapM_outcome_total {A B : Type} (f : A -> outcome B) (l : list A) :
  (forall x, x ∈ l -> exists y, f x = Ret y) -> exists r, mapM f l = Ret r.
Proof.
  induction l as [|x l IH]; intros Hf; [by exists []|].
  change (mapM f (x :: l)) with (y ← f x; k ← mapM f l; mret (y :: k)).
  destruct (Hf x ltac:(left)) as [y ->].
  destruct IH as [k ->]; [intros z Hz; apply Hf; by right|].
  by eexists.
Qed.

Lemma mapM_outcome_raises {A B : Type} (f : A -> outcome B) (l1 l2 : list A) (x : A) (e : exn) :
  (forall z, z ∈ l1 -> exists y, f z = Ret y) -> f x = Raise e ->
  mapM f (l1 ++ x :: l2) = Raise e.
Proof.
  induction l1 as [|z l1 IH]; intros Hf Hx.
  - change (mapM f ([] ++ x :: l2)) with (y ← f x; k ← mapM f l2; mret (y :: k)).
    by rewrite Hx.
  - change (mapM f ((z :: l1) ++ x :: l2))
      with (y ← f z; k ← mapM f (l1 ++ x :: l2); mret (y :: k)).
    destruct (Hf z ltac:(left)) as [y ->]. cbn [mbind outcome_bind bind].
    rewrite IH; [done| |done]. intros w Hw. apply Hf. by right.
Qed.

Lemma construct_lattice_spec (gg : list poly3) (monomials : list monomial)
    (UU XX YY : Z) :
  ((length monomials <= length gg)%nat ->
   exists BB, construct_lattice gg monomials UU XX YY = Ret BB /\
     is_square BB = true /\
     nrows BB = Z.of_nat (length monomials) /\
     forall i j : nat, (i < j < length monomials)%nat ->
       entry BB (Z.of_nat i) (Z.of_nat j) = Ret 0) /\
  ((length gg < length monomials)%nat ->
   construct_lattice gg monomials UU XX YY = Raise IndexError).
Proof.
  unfold construct_lattice. set (n := length monomials). split.
  - intros Hlen.
    destruct (mapM_outcome_total (lattice_row gg monomials UU XX YY)
                (range 0 (Z.of_nat n))) as [BB HBB].
    { intros ii Hii. unfold range in Hii. apply elem_of_seqZ in Hii.
      unfold lattice_row.
      destruct (index_in_range gg ii ltac:(lia)) as (g & -> & _). by eexists. }
    exists BB. split; [exact HBB|].
    destruct (mapM_outcome_Ret _ _ _ HBB) as [Hl Hrows].
    unfold range in Hl, Hrows. rewrite length_seqZ in Hl.
    assert (Hrow : forall i : nat, (i < n)%nat ->
              exists g, gg !! i = Some g /\
                BB !! i = Some (imap (fun jj mon =>
                   if (jj =? 0)%nat then constant_term g
                   else if (Z.of_nat jj <=? Z.of_nat i) && has_monomial g mon
                        then monomial_coefficient g mon * monomial_at mon UU XX YY
                        else 0) monomials)).
    { intros i Hi. destruct (Hrows i (Z.of_nat i)) as (row & Hrow & Hget).
      { rewrite lookup_seqZ. split; [lia|lia]. }
      unfold lattice_row in Hrow.
      destruct (index_in_range gg (Z.of_nat i) ltac:(lia)) as (g & Hg & Hgi).
      rewrite Hg in Hrow. cbn [mbind outcome_bind bind] in Hrow. injection Hrow as <-.
      exists g. split; [by rewrite Nat2Z.id in Hgi|done]. }
    split; [|split].
    + unfold is_square, nrows. apply forallb_forall. intros row Hin.
      apply list_elem_of_In, list_elem_of_lookup in Hin as [i Hi].
      assert (Hi' : (i < n)%nat) by (apply lookup_lt_Some in Hi; lia).
      destruct (Hrow i Hi') as (g & _ & Hr). rewrite Hr in Hi. injection Hi as <-.
      rewrite length_imap. apply Z.eqb_eq. lia.
    + unfold nrows. lia.
    + intros i j Hij. destruct (Hrow i ltac:(lia)) as (g & _ & Hr).
      unfold entry. rewrite (index_nat BB i _ Hr). cbn [mbind outcome_bind bind].
      destruct (lookup_lt_is_Some_2 monomials j ltac:(lia)) as [mon Hmon].
      erewrite index_nat; [reflexivity|].
      rewrite list_lookup_imap, Hmon. cbn.
      destruct (Nat.eqb_spec j 0); [lia|].
      destruct (Z.leb_spec (Z.of_nat j) (Z.of_nat i)); [lia|done].
  - intros Hlen.
    assert (Hsplit : range 0 (Z.of_nat n)
                     = seqZ 0 (Z.of_nat (length gg))
                       ++ Z.of_nat (length gg)
                          :: seqZ (Z.of_nat (length gg) + 1)
                                  (Z.of_nat n - Z.of_nat (length gg) - 1)).
    { unfold range. rewrite Z.sub_0_r.
      replace (Z.of_nat n)
        with (Z.of_nat (length gg) + (Z.of_nat n - Z.of_nat (length gg))) at 1 by lia.
      rewrite seqZ_app by lia. f_equal. rewrite Z.add_0_l.
      replace (Z.of_nat n - Z.of_nat (length gg))
        with (Z.succ (Z.of_nat n - Z.of_nat (length gg) - 1)) by lia.
      rewrite seqZ_cons by lia. repeat f_equal; lia. }
    rewrite Hsplit. apply mapM_outcome_raises.
    + intros ii Hii. apply elem_of_seqZ in Hii. unfold lattice_row.
      destruct (index_in_range gg ii ltac:(lia)) as (g & -> & _). by eexists.
    + unfold lattice_row, index.
      destruct (Z.ltb_spec (Z.of_nat (length gg)) 0); [lia|].
      destruct (Z.leb_spec 0 (Z.of_nat (length gg))); [|lia].
      destruct (Z.ltb_spec (Z.of_nat (length gg)) (Z.of_nat (length gg))); [lia|done].
Qed.

(** X11.  Given at least as many shift polynomials as monomials,
    [construct_lattice] returns a square matrix with one row per monomial
    whose entries above the diagonal are zero; given fewer, the read of
    [gg[ii]] raises [IndexError]. *)
Theorem construct_lattice_lower_triangular (gg : list poly3) (monomials : list monomial)
    (UU XX YY : Z) :
  ((length monomials <= length gg)%nat ->
   exists BB, construct_lattice gg monomials UU XX YY = Ret BB /\
     is_square BB = true /\
     nrows BB = Z.of_nat (length monomials) /\
     forall i j : nat, (i < j < length monomials)%nat ->
       entry BB (Z.of_nat i) (Z.of_nat j) = Ret 0) /\
  ((length gg < length monomials)%nat ->
   construct_lattice gg monomials UU XX YY = Raise IndexError).
Proof. apply construct_lattice_spec. Qed.

(** X25.  For an exponent [0 <= mm] (so that [modulus ** mm] and
    [modulus ** (mm * nn)] are integer powers), with [debug] off and at
    least as many shift polynomials as monomials, nothing between Sage's
    polynomial ring and Sage's [LLL] can fail in [boneh_durfee]: it returns
    [(0, 0)] or [(-1, -1)], or hands a square lattice with one monomial per
    row to the reduction and returns what the root extraction gives. *)
Theorem boneh_durfee_lattice_never_fails (cfg : config) (pol : bipoly)
    (modulus mm tt XX YY : Z) (gg : list poly3) (monomials : list monomial) :
  0 <= mm ->
  debug cfg = false ->
  shift_polynomials pol modulus mm tt = Ret (gg, monomials) ->
  (length monomials <= length gg)%nat ->
  boneh_durfee cfg pol modulus mm tt XX YY = Ret (0, 0) \/
  boneh_durfee cfg pol modulus mm tt XX YY = Ret (-1, -1) \/
  exists BB monomials',
    is_square BB = true /\ nrows BB = Z.of_nat (length monomials') /\
    boneh_durfee cfg pol modulus mm tt XX YY
    = roots_of_reduced (LLL BB) monomials' (nrows BB) (XX * YY + 1) XX YY.
Proof.
  intros _ Hdbg Hshift Hlen.
  destruct (construct_lattice_spec gg monomials (XX * YY + 1) XX YY) as [Hok _].
  destruct (Hok Hlen) as (BB0 & HBB0 & Hsq0 & Hn0 & _).
  assert (Hrs : forall BB (mons : list monomial),
            is_square BB = true -> nrows BB = Z.of_nat (length mons) ->
            reduce_and_solve cfg modulus mm (XX * YY + 1) XX YY BB mons (nrows BB)
            = Ret (-1, -1) \/
            reduce_and_solve cfg modulus mm (XX * YY + 1) XX YY BB mons (nrows BB)
            = roots_of_reduced (LLL BB) mons (nrows BB) (XX * YY + 1) XX YY).
  { intros BB mons Hsq Hn. unfold reduce_and_solve, det. rewrite Hdbg, Hsq.
    cbn [mbind outcome_bind bind]. destruct (_ && _); [by left|by right]. }
  unfold boneh_durfee. rewrite Hshift. cbn [mbind outcome_bind bind].
  rewrite HBB0. cbn [mbind outcome_bind bind].
  destruct (helpful_only cfg).
  - destruct (remove_unhelpful_returns cfg BB0 monomials (modulus ^ mm)
                (Z.of_nat (length monomials) - 1) Hsq0 Hn0 ltac:(lia))
      as ([BB mons] & -> & Hsq & Hn).
    cbn [mbind outcome_bind bind fst snd] in *.
    destruct (Z.eqb_spec (nrows BB) 0); [by left|].
    destruct (Hrs BB mons Hsq Hn) as [->| ->]; [right; by left|].
    right. right. by exists BB, mons.
  - rewrite <- Hn0.
    destruct (Hrs BB0 monomials Hsq0 Hn0) as [->| ->]; [right; by left|].
    right. right. by exists BB0, monomials.
Qed.

End Lattice.

Lemma construct_lattice_lower_triangular_witness :
  exists BB, @BonehDurfee.construct_lattice toy_sage [5; 6] [tt; tt] 7 2 3 = Ret BB /\
    BonehDurfee.is_square BB = true /\
    BonehDurfee.nrows BB = 2 /\
    BonehDurfee.entry BB 0 1 = Ret 0.
Proof.
  destruct (@construct_lattice_lower_triangular toy_sage [5; 6] [tt; tt] 7 2 3) as [Hok _].
  destruct (Hok ltac:(cbn; lia)) as (BB & HBB & Hsq & Hn & Hup).
  exists BB. split; [exact HBB|]. split; [exact Hsq|]. split; [exact Hn|].
  apply (Hup 0%nat 1%nat). cbn. lia.
Defined.

Lemma boneh_durfee_lattice_never_fails_witness :
  let run := @BonehDurfee.boneh_durfee solving_sage BonehDurfee.default_config
               (BonehDurfee.key_polynomial 8) 3 4 1 2 1 in
  run = Ret (0, 0) \/ run = Ret (-1, -1) \/
  exists BB monomials',
    BonehDurfee.is_square BB = true /\
    BonehDurfee.nrows BB = Z.of_nat (length monomials') /\
    run = @BonehDurfee.roots_of_reduced solving_sage (@BonehDurfee.LLL solving_sage BB)
            monomials' (BonehDurfee.nrows BB) (2 * 1 + 1) 2 1.
Proof.
  cbv zeta.
  apply (@boneh_durfee_lattice_never_fails solving_sage BonehDurfee.default_config
           (BonehDurfee.key_polynomial 8) 3 4 1 2 1 [5] [tt]).
  - lia.
  - reflexivity.
  - reflexivity.
  - cbn. lia.
Defined.

(** ** What the single-key attacks write to the key *)

Section AttackWrites.
Context `{BonehDurfee.Sage} `{PyFloat.Libm} `{KeysWrapper} `{BonehDurfee.PyCrypto}
        `{SmallFraction.SageTool}.

(** X12.  The Boneh–Durfee attack never changes [n] and [e]; it either
    leaves the key as it was or stores in [p] and [q] the two factors that
    [RSA.construct] returned for the [d] that [factor] found, and this
    whatever the attack then returns or raises. *)
Theorem boneh_durfee_attack_writes (cfg : BonehDurfee.config)
    (publickey publickey' : PublicKey) (r : outcome attack_result) :
  BonehDurfee.attack cfg publickey = (publickey', r) ->
  publickey' = publickey \/
  exists d p q,
    BonehDurfee.factor cfg (pk_n publickey) (pk_e publickey) = Ret (Some d) /\
    BonehDurfee.RSA_construct (pk_n publickey) (pk_e publickey) d = Ret (p, q) /\
    publickey' = mkPublicKey (pk_n publickey) (pk_e publickey) (Some p) (Some q).
Proof.
  unfold BonehDurfee.attack, mbind, keyed_bind, kbind, get_key, lift, write_p, write_q.
  destruct (BonehDurfee.factor cfg (pk_n publickey) (pk_e publickey)) as [[d|]|e|].
  - destruct (BonehDurfee.RSA_construct _ _ d) as [[p q]|e|] eqn:Hc; cbn.
    + destruct (PrivateKey_pqen p q _ _) as [k|e|]; cbn; intros [= <- <-];
        right; exists d, p, q; done.
    + intros [= <- <-]. by left.
    + intros [= <- <-]. by left.
  - intros [= <- <-]. by left.
  - destruct e; cbn; intros [= <- <-]; by left.
  - intros [= <- <-]. by left.
Qed.

(** X13.  The small-fraction attack never lets [CalledProcessError] or
    [TimeoutExpired] out.  When the tool answers a positive [v] it stores
    [p = v] and [q = n // v] without checking that [v] divides [n]; in every
    other case the key is left as it was. *)
Theorem smallfraction_attack_writes (publickey publickey' : PublicKey)
    (r : outcome attack_result) :
  SmallFraction.attack publickey = (publickey', r) ->
  r <> Raise CalledProcessError /\ r <> Raise TimeoutExpired /\
  (forall v, SmallFraction.smallfraction_sage (pk_n publickey) = Ret v -> 0 < v ->
     publickey' = mkPublicKey (pk_n publickey) (pk_e publickey)
                    (Some v) (Some (pk_n publickey / v))) /\
  ((forall v, SmallFraction.smallfraction_sage (pk_n publickey) = Ret v -> v <= 0) ->
   publickey' = publickey).
Proof.
  unfold SmallFraction.attack, try_except, mbind, keyed_bind, kbind, get_key, lift,
    write_p, write_q, floordiv.
  destruct (SmallFraction.smallfraction_sage (pk_n publickey)) as [v|e|] eqn:Htool.
  - destruct (Z.ltb_spec 0 v) as [Hv|Hv].
    + destruct (Z.eqb_spec v 0) as [?|_]; [lia|]. cbn.
      destruct (PrivateKey_pqen v _ _ _) as [k|e|]; cbn.
      * intros [= <- <-]. repeat split; try done.
        -- by intros w [= <-] _.
        -- intros Hall. specialize (Hall v eq_refl). lia.
      * destruct e; cbn; intros [= <- <-]; repeat split; try done;
          try (by intros w [= <-] _); intros Hall; specialize (Hall v eq_refl); lia.
      * intros [= <- <-]. repeat split; try done.
        -- by intros w [= <-] _.
        -- intros Hall. specialize (Hall v eq_refl). lia.
    + cbn. intros [= <- <-]. repeat split; try done. intros w [= <-] ?. lia.
  - destruct e; cbn; intros [= <- <-]; repeat split; done.
  - intros [= <- <-]. repeat split; done.
Qed.

End AttackWrites.

Lemma boneh_durfee_attack_writes_witness :
  let publickey := key 15 3 in
  let after := @BonehDurfee.attack solving_sage toy_libm BonehDurfee.default_config
                 toy_keys factoring_crypto publickey in
  after.1 = publickey \/
  exists d p q,
    @BonehDurfee.factor solving_sage toy_libm BonehDurfee.default_config 15 3 = Ret (Some d) /\
    @BonehDurfee.RSA_construct factoring_crypto 15 3 d = Ret (p, q) /\
    after.1 = mkPublicKey 15 3 (Some p) (Some q).
Proof.
  cbv zeta.
  apply (@boneh_durfee_attack_writes solving_sage toy_libm toy_keys factoring_crypto
           BonehDurfee.default_config (key 15 3) _
           (@BonehDurfee.attack solving_sage toy_libm BonehDurfee.default_config
              toy_keys factoring_crypto (key 15 3)).2).
  by destruct (@BonehDurfee.attack solving_sage toy_libm BonehDurfee.default_config
                 toy_keys factoring_crypto (key 15 3)).
Defined.

Lemma smallfraction_attack_writes_witness :
  let publickey := key 15 3 in
  let after := @SmallFraction.attack toy_keys (answering_tool 4) publickey in
  after.1 = mkPublicKey 15 3 (Some 4) (Some 3).
Proof.
  cbv zeta.
  destruct (@smallfraction_attack_writes toy_keys (answering_tool 4) (key 15 3)
              (@SmallFraction.attack toy_keys (answering_tool 4) (key 15 3)).1
              (@SmallFraction.attack toy_keys (answering_tool 4) (key 15 3)).2)
    as (_ & _ & Hpos & _).
  - by destruct (@SmallFraction.attack toy_keys (answering_tool 4) (key 15 3)).
  - apply (Hpos 4); [reflexivity|lia].
Defined.

(** ** The bounds of [factor] beyond 53 bits *)

Section FloatIntegers.
Import PyFloat.

Lemma shr_fexp_mantissa (m e : Z) (l : location) :
  0 <= m -> 0 <= shr_m (shr_fexp prec emax m e l).1 < 2 ^ 53.
Proof.
  intros Hm. unfold shr_fexp.
  set (n := fexp prec emax (Zdigits2 m + e) - e).
  destruct (shr_spec (shr_record_of_loc m l) e n) as [Em _];
    [rewrite shr_m_of_loc; lia|].
  rewrite Em, shr_m_of_loc.
  assert (Hp : 0 < 2 ^ Z.max 0 n) by (apply Z.pow_pos_nonneg; lia).
  split; [apply Z.div_pos; lia|].
  destruct (Z.eq_dec m 0) as [->|Hne]; [rewrite Z.div_0_l by lia; lia|].
  pose proof (Zdigits2_bound m ltac:(lia)) as Hd.
  pose proof (Zdigits2_pos m ltac:(lia)) as Hd1.
  assert (Hn : Zdigits2 m - 53 <= n) by (subst n; unfold fexp, emin, prec, emax; lia).
  apply Z.div_lt_upper_bound; [lia|].
  destruct (Z.le_gt_cases (Zdigits2 m) 53) as [Hle|Hgt].
  - assert (2 ^ Zdigits2 m <= 2 ^ 53) by (apply Z.pow_le_mono_r; lia). nia.
  - assert (2 ^ (Zdigits2 m - 53) <= 2 ^ Z.max 0 n) by (apply Z.pow_le_mono_r; lia).
    assert (2 ^ Zdigits2 m = 2 ^ (Zdigits2 m - 53) * 2 ^ 53).
    { rewrite <- Z.pow_add_r by lia. f_equal. lia. }
    nia.
Qed.

Lemma binary_round_aux_mantissa (sx : bool) (mx ex : Z) (lx : location)
    (s : bool) (m : positive) (e : Z) :
  0 <= mx -> binary_round_aux prec emax sx mx ex lx = S754_finite s m e -> Z.pos m < 2 ^ 53.
Proof.
  intros Hm. unfold binary_round_aux.
  pose proof (shr_fexp_mantissa mx ex lx Hm) as [H1 _].
  destruct (shr_fexp prec emax mx ex lx) as [mrs' e'] eqn:E1. cbn [fst snd] in *.
  assert (Hm1 : 0 <= round_nearest_even (shr_m mrs') (loc_of_shr_record mrs')).
  { unfold round_nearest_even.
    destruct (loc_of_shr_record mrs') as [|[| |]]; try lia.
    destruct (Z.even (shr_m mrs')); lia. }
  revert Hm1. generalize (round_nearest_even (shr_m mrs') (loc_of_shr_record mrs')).
  intros m1 Hm1.
  pose proof (shr_fexp_mantissa m1 e' loc_Exact Hm1) as [_ H2].
  destruct (shr_fexp prec emax m1 e' loc_Exact) as [mrs'' e''] eqn:E2. cbn [fst snd] in *.
  destruct (shr_m mrs'') as [|q|q]; [done| |done].
  destruct (_ <=? _); [|done]. intros [= _ <- _]. exact H2.
Qed.

Lemma binary_normalize_mantissa (a ea : Z) (s : bool) (m : positive) (e : Z) :
  binary_normalize prec emax a ea false = S754_finite s m e -> Z.pos m < 2 ^ 53.
Proof.
  unfold binary_normalize, binary_round.
  destruct a as [|p|p]; [done| |];
    destruct (shl_align _ _ _) as [mz ez]; by apply binary_round_aux_mantissa.
Qed.

Lemma valid_binary_mantissa (s : bool) (m : positive) (e : Z) :
  valid_binary prec emax (S754_finite s m e) = true -> Z.pos m < 2 ^ 53.
Proof.
  cbn [valid_binary]. unfold bounded, canonical_mantissa. intros Hv.
  apply andb_true_iff in Hv as [Hc _]. apply Z.eqb_eq in Hc.
  unfold fexp, emin, prec, emax in Hc.
  pose proof (digits2_pos_bound m) as Hd.
  assert (2 ^ Z.pos (digits2_pos m) <= 2 ^ 53) by (apply Z.pow_le_mono_r; lia). lia.
Qed.

Lemma even_above_2_53 (m : positive) (e z : Z) :
  Z.pos m < 2 ^ 53 -> 0 <= e -> z = Z.pos m * 2 ^ e -> 2 ^ 53 < z -> Z.even z = true.
Proof.
  intros Hm He -> Hz. destruct (Z.eq_dec e 0) as [->|Hne].
  - rewrite Z.pow_0_r in Hz. lia.
  - replace e with (Z.succ (e - 1)) by lia. rewrite Z.pow_succ_r by lia.
    replace (Z.pos m * (2 * 2 ^ (e - 1))) with (2 * (Z.pos m * 2 ^ (e - 1))) by ring.
    by rewrite Z.even_mul.
Qed.

Lemma floor_even_above_2_53 (s : bool) (m : positive) (e z : Z) :
  Z.pos m < 2 ^ 53 -> floor (S754_finite s m e) = Ret z -> 2 ^ 53 < z -> Z.even z = true.
Proof.
  intros Hm Hf Hz. cbn [floor] in Hf. unfold signed in Hf.
  destruct (Z.leb_spec 0 e) as [He|He]; injection Hf as Hf.
  - destruct s.
    + pose proof (Z.pow_pos_nonneg 2 e ltac:(lia) He). nia.
    + by apply (even_above_2_53 m e z).
  - assert (Hp : 0 < 2 ^ (- e)) by (apply Z.pow_pos_nonneg; lia).
    destruct s.
    + assert (Z.neg m / 2 ^ (- e) < 0) by (apply Z.div_lt_upper_bound; lia). lia.
    + assert (Z.pos m / 2 ^ (- e) <= Z.pos m); [|lia].
      apply Z.div_le_upper_bound; [lia|]. nia.
Qed.

Lemma to_int_even_above_2_53 (s : bool) (m : positive) (e z : Z) :
  Z.pos m < 2 ^ 53 -> to_int (S754_finite s m e) = Ret z -> 2 ^ 53 < z -> Z.even z = true.
Proof.
  intros Hm Hf Hz. cbn [to_int] in Hf. unfold signed in Hf.
  destruct (Z.leb_spec 0 e) as [He|He]; injection Hf as Hf.
  - destruct s.
    + pose proof (Z.pow_pos_nonneg 2 e ltac:(lia) He). nia.
    + by apply (even_above_2_53 m e z).
  - assert (Hp : 0 < 2 ^ (- e)) by (apply Z.pow_pos_nonneg; lia).
    destruct s.
    + assert (Z.neg m ÷ 2 ^ (- e) <= 0); [|lia].
      rewrite <- Pos2Z.opp_pos, Z.quot_opp_l by lia.
      pose proof (Z.quot_pos (Z.pos m) (2 ^ (- e)) ltac:(lia) Hp). lia.
    + assert (Z.pos m ÷ 2 ^ (- e) <= Z.pos m); [|lia].
      rewrite Z.quot_div_nonneg by lia.
      apply Z.div_le_upper_bound; [lia|]. nia.
Qed.

(** X14.  [A = int((N + 1) / 2)] goes through a double, and a double above
    [2 ** 53] is an even integer: whenever [(N + 1) // 2] is odd and above
    [2 ** 53] (every [N = 1 (mod 4)] from [2 ** 54] on), [A] is not
    [(N + 1) // 2]. *)
Theorem coefficient_A_misses_odd_halves (N : Z) :
  2 ^ 53 < (N + 1) / 2 -> Z.odd ((N + 1) / 2) = true ->
  BonehDurfee.coefficient_A N <> Ret ((N + 1) / 2).
Proof.
  intros Hbig Hodd HA. unfold BonehDurfee.coefficient_A, truediv_2 in HA.
  destruct (binary_normalize prec emax (N + 1) (-1) false) as [s|s| |s m e] eqn:Hn;
    cbn in HA; try discriminate.
  - injection HA as HA. lia.
  - pose proof (binary_normalize_mantissa _ _ _ _ _ Hn) as Hm.
    pose proof (to_int_even_above_2_53 s m e _ Hm HA Hbig) as Hev.
    rewrite <- Z.negb_odd, Hodd in Hev. discriminate.
Qed.

Lemma coefficient_A_misses_odd_halves_witness :
  (2 ^ 54 + 5 + 1) / 2 = 2 ^ 53 + 3 /\
  BonehDurfee.coefficient_A (2 ^ 54 + 5) <> Ret ((2 ^ 54 + 5 + 1) / 2).
Proof.
  split; [reflexivity|].
  apply (coefficient_A_misses_odd_halves (2 ^ 54 + 5)).
  - vm_compute. reflexivity.
  - vm_compute. reflexivity.
Defined.

Context `{Libm}.

(** X15.  [Y = floor(N ** (1 / 2))] is the floor of a double, whatever the
    C library's [pow] answers: whenever the integer square root of [N] is
    odd and above [2 ** 53], [Y] is not that root. *)
Theorem bound_Y_misses_odd_roots (N : Z) :
  2 ^ 53 < Z.sqrt N -> Z.odd (Z.sqrt N) = true ->
  BonehDurfee.bound_Y N <> Ret (Z.sqrt N).
Proof.
  intros Hbig Hodd HY. unfold BonehDurfee.bound_Y, int_pow in HY.
  destruct (of_int N) as [x| |]; cbn in HY; try discriminate.
  destruct (pow x lit_half) as [r| |] eqn:Hp; cbn in HY; try discriminate.
  pose proof (pow_is_double _ _ _ Hp) as Hv.
  destruct r as [s|s| |s m e]; cbn in HY; try discriminate.
  - injection HY as HY. lia.
  - pose proof (valid_binary_mantissa s m e Hv) as Hm.
    pose proof (floor_even_above_2_53 s m e _ Hm HY Hbig) as Hev.
    rewrite <- Z.negb_odd, Hodd in Hev. discriminate.
Qed.

End FloatIntegers.

Lemma bound_Y_misses_odd_roots_witness :
  Z.sqrt ((2 ^ 53 + 3) ^ 2) = 2 ^ 53 + 3 /\
  @BonehDurfee.bound_Y toy_libm ((2 ^ 53 + 3) ^ 2) <> Ret (Z.sqrt ((2 ^ 53 + 3) ^ 2)).
Proof.
  split; [vm_compute; reflexivity|].
  apply (@bound_Y_misses_odd_roots toy_libm ((2 ^ 53 + 3) ^ 2)).
  - vm_compute. reflexivity.
  - vm_compute. reflexivity.
Defined.

(** ** What [factor] hands to [boneh_durfee] *)

Section FactorDivergence.
Import PyFloat.
Context `{BonehDurfee.Sage} `{Libm}.

Lemma floor_misses_odd (r : float) (z : Z) :
  valid_binary prec emax r = true -> 2 ^ 53 < z -> Z.odd z = true -> floor r <> Ret z.
Proof.
  intros Hv Hbig Hodd Hf. destruct r as [s|s| |s m e]; cbn in Hf; try discriminate.
  - injection Hf as Hf. lia.
  - pose proof (valid_binary_mantissa s m e Hv) as Hm.
    pose proof (floor_even_above_2_53 s m e _ Hm Hf Hbig) as Hev.
    rewrite <- Z.negb_odd, Hodd in Hev. discriminate.
Qed.

Lemma int_pow_floor_misses_odd (N : Z) (y : float) (z : Z) :
  2 ^ 53 < z -> Z.odd z = true ->
  (Nd ← int_pow N y; floor Nd) <> Ret z.
Proof.
  intros Hbig Hodd Hf. unfold int_pow in Hf.
  destruct (of_int N) as [x| |]; cbn [mbind outcome_bind bind] in Hf; try discriminate.
  destruct (pow x y) as [r| |] eqn:Hp; cbn [mbind outcome_bind bind] in Hf; try discriminate.
  by apply (floor_misses_odd r z (pow_is_double _ _ _ Hp) Hbig Hodd).
Qed.

(** C5 (the code departs from the claim).  [A], [X] and [Y] all go
    through doubles.  For [N = 2 ** 54 + 2] the quotient [(N + 1) / 2] is
    rounded to [2 ** 53 + 2], one more than [floor((N + 1) / 2)], and that
    is the coefficient of the polynomial [factor] hands to [boneh_durfee],
    which differs from [1 + x * (floor((N + 1) / 2) + y)] wherever
    [x != 0].  For the product of the primes 134217757 and 268435463 the
    coefficient is two above the floor.  For [N = 17 ** 50], where [N ** 0.26] is exactly [17 ** 13],
    [X] is not [2 * 17 ** 13]; for [N = (2 ** 53 + 1) ** 2], [Y] is not the
    square root [2 ** 53 + 1]: the floor of a double above [2 ** 53] is
    even, whatever the C library's [pow] answers. *)
Theorem factor_bounds_leave_the_integers (cfg : BonehDurfee.config) (e : Z) :
  ((2 ^ 54 + 2 + 1) / 2 = 2 ^ 53 + 1 /\
   BonehDurfee.coefficient_A (2 ^ 54 + 2) = Ret (2 ^ 53 + 2)) /\
  ((134217757 * 268435463 + 1) / 2 = 18014402871558246 /\
   BonehDurfee.coefficient_A (134217757 * 268435463) = Ret 18014402871558248) /\
  (forall X Y,
     BonehDurfee.bound_X (2 ^ 54 + 2) lit_026 = Ret X ->
     BonehDurfee.bound_Y (2 ^ 54 + 2) = Ret Y ->
     BonehDurfee.factor cfg (2 ^ 54 + 2) e
     = ('(solx, soly) ←
          BonehDurfee.boneh_durfee cfg (BonehDurfee.key_polynomial (2 ^ 53 + 2)) e 4 1 X Y;
        if 0 <? solx then
          if e =? 0 then Raise ZeroDivisionError
          else Ret (Some (BonehDurfee.eval_bipoly
                            (BonehDurfee.key_polynomial (2 ^ 53 + 2)) solx soly ÷ e))
        else Ret None)) /\
  (forall x0 y0,
     x0 <> 0 ->
     BonehDurfee.eval_bipoly (BonehDurfee.key_polynomial (2 ^ 53 + 2)) x0 y0
     <> 1 + x0 * ((2 ^ 54 + 2 + 1) / 2 + y0)) /\
  ((17 ^ 13) ^ 50 = (17 ^ 50) ^ 13 /\
   BonehDurfee.bound_X (17 ^ 50) lit_026 <> Ret (2 * 17 ^ 13)) /\
  (Z.sqrt ((2 ^ 53 + 1) ^ 2) = 2 ^ 53 + 1 /\
   BonehDurfee.bound_Y ((2 ^ 53 + 1) ^ 2) <> Ret (2 ^ 53 + 1)).
Proof.
  assert (HA : BonehDurfee.coefficient_A (2 ^ 54 + 2) = Ret (2 ^ 53 + 2))
    by (vm_compute; reflexivity).
  repeat apply conj.
  - reflexivity.
  - exact HA.
  - reflexivity.
  - vm_compute. reflexivity.
  - intros X Y HX HY. unfold BonehDurfee.factor.
    rewrite sublattice_t_value. cbn [mbind outcome_bind bind].
    rewrite HX. cbn [mbind outcome_bind bind].
    rewrite HY. cbn [mbind outcome_bind bind].
    rewrite HA. reflexivity.
  - intros x0 y0 Hx0. rewrite key_polynomial_eval.
    replace ((2 ^ 54 + 2 + 1) / 2) with (2 ^ 53 + 1) by reflexivity. nia.
  - vm_compute. reflexivity.
  - intros HX. unfold BonehDurfee.bound_X in HX.
    apply (int_pow_floor_misses_odd (17 ^ 50) lit_026 (17 ^ 13));
      [vm_compute; reflexivity|vm_compute; reflexivity|].
    destruct (Nd ← int_pow (17 ^ 50) lit_026; floor Nd) as [fl| |] eqn:Hfl.
    + assert (Hfl' : BonehDurfee.bound_X (17 ^ 50) lit_026 = Ret (2 * fl)).
      { unfold BonehDurfee.bound_X.
        destruct (int_pow (17 ^ 50) lit_026) as [Nd| |];
          cbn [mbind outcome_bind bind] in *; try discriminate.
        by rewrite Hfl. }
      unfold BonehDurfee.bound_X in Hfl'. rewrite HX in Hfl'.
      injection Hfl' as Hfl'. f_equal. lia.
    + exfalso.
      destruct (int_pow (17 ^ 50) lit_026) as [Nd| |];
        cbn [mbind outcome_bind bind] in *; try discriminate.
      by rewrite Hfl in HX.
    + exfalso.
      destruct (int_pow (17 ^ 50) lit_026) as [Nd| |];
        cbn [mbind outcome_bind bind] in *; try discriminate.
      by rewrite Hfl in HX.
  - vm_compute. reflexivity.
  - intros HY. unfold BonehDurfee.bound_Y in HY.
    by apply (int_pow_floor_misses_odd ((2 ^ 53 + 1) ^ 2) lit_half (2 ^ 53 + 1)).
Qed.

End FactorDivergence.

(** A run in which the rounded coefficient shows in the result: the
    reduction answers [(1, 1)], and [factor] returns
    [1 + 1 * (A + 1) = 2 ** 53 + 4] for [e = 1], where the exact
    coefficient gives [2 ** 53 + 3]. *)
Lemma factor_result_carries_rounded_A :
  @BonehDurfee.factor solving_sage toy_libm BonehDurfee.default_config (2 ^ 54 + 2) 1
  = Ret (Some (2 ^ 53 + 4)) /\
  1 + 1 * ((2 ^ 54 + 2 + 1) / 2 + 1) = 2 ^ 53 + 3.
Proof. vm_compute. split; reflexivity. Qed.

(** ** What the factor database answers are read as *)

Section FactorValues.
Import PyStr FactorDB.

Lemma dec_digit_value (d : Z) : 0 <= d < 10 -> digit_value (dec_digit d) = Some d.
Proof.
  intros Hd.
  assert (Hcases : d = 0 \/ d = 1 \/ d = 2 \/ d = 3 \/ d = 4 \/ d = 5 \/ d = 6 \/ d = 7 \/
                   d = 8 \/ d = 9) by lia.
  repeat (destruct Hcases as [->|Hcases]; [reflexivity|]). by subst d.
Qed.

Lemma dec_digits_value (fuel : nat) :
  forall v acc, 0 <= v < 10 ^ Z.of_nat (S fuel) ->
    digits_value (dec_digits fuel v acc) 0 = digits_value acc v.
Proof.
  induction fuel as [|fuel IH]; intros v acc Hv.
  - change (10 ^ Z.of_nat 1) with 10 in Hv. cbn [dec_digits digits_value].
    rewrite Z.mod_small by lia. by rewrite dec_digit_value by lia.
  - cbn [dec_digits]. destruct (Z.ltb_spec v 10).
    + cbn [digits_value]. by rewrite dec_digit_value by lia.
    + rewrite IH.
      * cbn [digits_value]. rewrite dec_digit_value by (apply Z.mod_pos_bound; lia).
        f_equal. pose proof (Z.div_mod v 10 ltac:(lia)). lia.
      * rewrite Nat2Z.inj_succ, Z.pow_succ_r in Hv by lia.
        split; [apply Z.div_pos; lia|apply Z.div_lt_upper_bound; lia].
Qed.

Lemma dec_digits_shape (fuel : nat) :
  forall v acc, 0 <= v -> digit_string acc = true ->
    digit_string (dec_digits fuel v acc) = true /\
    exists c r, dec_digits fuel v acc = String c r.
Proof.
  induction fuel as [|fuel IH]; intros v acc Hv Hacc.
  - cbn [dec_digits digit_string].
    rewrite dec_digit_value by (apply Z.mod_pos_bound; lia).
    split; [by rewrite Hacc|by eexists _, _].
  - cbn [dec_digits]. destruct (Z.ltb_spec v 10).
    + cbn [digit_string]. rewrite dec_digit_value by lia.
      split; [by rewrite Hacc|by eexists _, _].
    + apply IH; [apply Z.div_pos; lia|]. cbn [digit_string].
      rewrite dec_digit_value by (apply Z.mod_pos_bound; lia). by rewrite Hacc.
Qed.

Lemma pow10_log2 (v : Z) : 0 <= v -> v < 10 ^ Z.of_nat (S (Z.to_nat (Z.log2 v))).
Proof.
  intros Hv. pose proof (Z.log2_nonneg v).
  destruct (Z.eq_dec v 0) as [->|Hne]; [cbn; lia|].
  destruct (Z.log2_spec v ltac:(lia)) as [_ Hup].
  eapply Z.lt_le_trans; [exact Hup|].
  rewrite Nat2Z.inj_succ, Z2Nat.id by lia.
  apply Z.pow_le_mono_l. lia.
Qed.

Lemma str_digits (v : Z) :
  0 <= v -> digit_string (str v) = true /\ str v <> EmptyString /\
            digits_value (str v) 0 = Some v.
Proof.
  intros Hv. unfold str. destruct (Z.ltb_spec v 0); [lia|]. unfold str_of_nonneg.
  destruct (dec_digits_shape (Z.to_nat (Z.log2 v)) v EmptyString Hv eq_refl)
    as [Hd (c & r & Hs)].
  split; [done|]. split; [by rewrite Hs|].
  by rewrite dec_digits_value by (split; [done|by apply pow10_log2]).
Qed.

Lemma digit_string_value (s : string) (acc : Z) :
  digit_string s = true -> is_Some (digits_value s acc).
Proof.
  revert acc. induction s as [|c s IH]; intros acc; cbn [digit_string digits_value]; [done|].
  intros Hs. apply andb_true_iff in Hs as [Hc Hs].
  apply bool_decide_eq_true in Hc as [d ->]. by apply IH.
Qed.

Lemma digit_string_head (c : ascii) (r : string) (sep : ascii) :
  digit_string (String c r) = true -> digit_value sep = None -> Ascii.eqb c sep = false.
Proof.
  cbn [digit_string]. intros Hs Hsep. apply andb_true_iff in Hs as [Hc _].
  apply bool_decide_eq_true in Hc as [d Hd].
  destruct (Ascii.eqb_spec c sep) as [->|]; [congruence|done].
Qed.

Lemma digit_string_no_sep (s : string) (sep : ascii) :
  digit_string s = true -> digit_value sep = None -> contains sep s = false.
Proof.
  intros Hs Hsep. induction s as [|c s IH]; [done|].
  cbn [contains]. rewrite (digit_string_head c s sep Hs Hsep).
  cbn [digit_string] in Hs. apply andb_true_iff in Hs as [_ Hs]. by apply IH.
Qed.

Lemma int_of_digit_string (s : string) (v : Z) :
  digit_string s = true -> s <> EmptyString -> digits_value s 0 = Some v ->
  int_of_string s = Ret v /\ isdigit s = true.
Proof.
  intros Hs Hne Hv. destruct s as [|c r]; [done|].
  pose proof (digit_string_head c r "-" Hs eq_refl) as Hc.
  split.
  - unfold int_of_string. rewrite Hv.
    destruct c as [[] [] [] [] [] [] [] []]; try done.
  - unfold isdigit. apply bool_decide_eq_true. by rewrite Hv.
Qed.

Lemma app_empty (s : string) : EmptyString +:+ s = s.
Proof. reflexivity. Qed.

Lemma app_String (c : ascii) (a s : string) : String c a +:+ s = String c (a +:+ s).
Proof. reflexivity. Qed.

Lemma contains_app_sep (sep : ascii) (a b : string) :
  contains sep (a +:+ String sep b) = true.
Proof.
  induction a as [|c a IH]; rewrite ?app_empty, ?app_String; cbn [contains].
  - by rewrite Ascii.eqb_refl.
  - rewrite IH. apply orb_true_r.
Qed.

Lemma contains_app (sep : ascii) (a b : string) :
  contains sep (a +:+ b) = contains sep a || contains sep b.
Proof.
  induction a as [|c a IH]; rewrite ?app_empty, ?app_String; cbn [contains]; [done|].
  by rewrite IH, orb_assoc.
Qed.

Lemma split_on_no_sep (sep : ascii) (s : string) :
  contains sep s = false -> split_on sep s = [s].
Proof.
  induction s as [|c s IH]; [done|]. cbn [contains split_on]. intros Hc.
  apply orb_false_iff in Hc as [-> Hs]. by rewrite (IH Hs).
Qed.

Lemma split_on_app_sep (sep : ascii) (a b : string) :
  contains sep a = false -> split_on sep (a +:+ String sep b) = a :: split_on sep b.
Proof.
  induction a as [|c a IH]; rewrite ?app_empty, ?app_String; cbn [contains split_on].
  - intros _. by rewrite Ascii.eqb_refl.
  - intros Hc. apply orb_false_iff in Hc as [-> Ha]. by rewrite (IH Ha).
Qed.

Lemma digits_value_sep (a rest : string) (sep : ascii) (acc : Z) :
  digit_value sep = None -> digits_value (a +:+ String sep rest) acc = None.
Proof.
  intros Hsep. revert acc.
  induction a as [|c a IH]; intros acc; rewrite ?app_empty, ?app_String; cbn [digits_value].
  - by rewrite Hsep.
  - destruct (digit_value c); [apply IH|done].
Qed.

Lemma solveforp_power_minus (k j sub : string) (kv jv subv : Z) :
  digit_string k = true -> k <> EmptyString -> digits_value k 0 = Some kv ->
  digit_string j = true -> j <> EmptyString -> digits_value j 0 = Some jv ->
  digit_string sub = true -> sub <> EmptyString -> digits_value sub 0 = Some subv ->
  solveforp (k +:+ String "^" (j +:+ String "-" sub)) = Ret (kv ^ jv - subv).
Proof.
  intros Hk Hk0 Hkv Hj Hj0 Hjv Hs Hs0 Hsv. unfold solveforp.
  rewrite contains_app_sep.
  rewrite split_on_app_sep by (by apply digit_string_no_sep).
  rewrite split_on_no_sep.
  2:{ rewrite contains_app. cbn [contains].
      rewrite !digit_string_no_sep by done. reflexivity. }
  cbn [mbind outcome_bind bind]. rewrite contains_app_sep.
  rewrite split_on_app_sep by (by apply digit_string_no_sep).
  rewrite split_on_no_sep by (by apply digit_string_no_sep).
  cbn [mbind outcome_bind bind].
  destruct (int_of_digit_string k kv Hk Hk0 Hkv) as [-> _].
  destruct (int_of_digit_string j jv Hj Hj0 Hjv) as [-> _].
  destruct (int_of_digit_string sub subv Hs Hs0 Hsv) as [-> _].
  reflexivity.
Qed.

(** X16.  [int(key) if key.isdigit() else solveforp(key)] reads both forms
    the factor database answers with: the decimal digits of [v] as [v], and
    [k^j-s] written in decimal as [k ** j - s]. *)
Theorem factor_value_reads_both_forms (v k j s : Z) :
  0 <= v < 10 ^ 4300 -> 0 <= k < 10 ^ 4300 -> 0 <= j < 10 ^ 4300 -> 0 <= s < 10 ^ 4300 ->
  factor_value (str v) = Ret v /\
  factor_value (str k +:+ String "^" (str j +:+ String "-" (str s))) = Ret (k ^ j - s).
Proof.
  intros Hv Hk Hj Hs.
  destruct (str_digits v ltac:(lia)) as (Hv1 & Hv2 & Hv3).
  destruct (str_digits k ltac:(lia)) as (Hk1 & Hk2 & Hk3).
  destruct (str_digits j ltac:(lia)) as (Hj1 & Hj2 & Hj3).
  destruct (str_digits s ltac:(lia)) as (Hs1 & Hs2 & Hs3).
  unfold factor_value. split.
  - destruct (int_of_digit_string (str v) v Hv1 Hv2 Hv3) as [Hint ->]. exact Hint.
  - assert (Hnd : isdigit (str k +:+ String "^" (str j +:+ String "-" (str s))) = false).
    { unfold isdigit. destruct (str k +:+ _) eqn:E; [done|]. rewrite <- E.
      apply bool_decide_eq_false. rewrite digits_value_sep by done. by intros [w Hw]. }
    rewrite Hnd. by apply solveforp_power_minus.
Qed.

Lemma factor_value_reads_both_forms_witness :
  factor_value (str 1009) = Ret 1009 /\
  factor_value (str 2 +:+ String "^" (str 127 +:+ String "-" (str 1))) = Ret (2 ^ 127 - 1).
Proof.
  apply (factor_value_reads_both_forms 1009 2 127 1);
    (split; [lia|vm_compute; reflexivity]).
Defined.

(** X17.  [solveforp] accepts nothing but [k^j-s]: an equation without
    [^], and one whose part after the [^] has no [-] (a plain power such as
    [2^127]), raise [FactorizationError], as does every other failure
    inside. *)
Theorem solveforp_rejects_other_forms (equation : string) :
  (contains "^" equation = false -> solveforp equation = Raise FactorizationError) /\
  (forall k j, equation = k +:+ String "^" j ->
     contains "^" k = false -> contains "^" j = false -> contains "-" j = false ->
     solveforp equation = Raise FactorizationError) /\
  (forall e, solveforp equation = Raise e -> e = FactorizationError).
Proof.
  split; [|split].
  - intros Hc. unfold solveforp. by rewrite Hc.
  - intros k j -> Hk Hj Hm. unfold solveforp.
    rewrite contains_app_sep, split_on_app_sep, split_on_no_sep by done.
    cbn [mbind outcome_bind bind]. by rewrite Hm.
  - intros e. unfold solveforp.
    match goal with |- context [match ?p with Ret _ => _ | _ => _ end] => destruct p end;
      congruence.
Qed.

Lemma solveforp_rejects_other_forms_witness :
  solveforp "2^127" = Raise FactorizationError /\ solveforp "8191" = Raise FactorizationError.
Proof.
  destruct (solveforp_rejects_other_forms "2^127") as (_ & Hpow & _).
  destruct (solveforp_rejects_other_forms "8191") as (Hplain & _ & _).
  split.
  - apply (Hpow "2" "127"); reflexivity.
  - apply Hplain. reflexivity.
Defined.

End FactorValues.

(** ** lib/utils.py: reading numbers *)

Section NumericValue.
Import PyStr Utils.

Lemma hex_digit_scan (d : Z) :
  0 <= d < 16 ->
  Ascii.eqb (hex_digit d) "_" = false /\ digit_of (hex_digit d) = Some d /\
  is_space (hex_digit d) = false /\ Ascii.eqb (hex_digit d) "+" = false /\
  Ascii.eqb (hex_digit d) "-" = false.
Proof.
  intros Hd.
  assert (Hcases : d = 0 \/ d = 1 \/ d = 2 \/ d = 3 \/ d = 4 \/ d = 5 \/ d = 6 \/ d = 7 \/
                   d = 8 \/ d = 9 \/ d = 10 \/ d = 11 \/ d = 12 \/ d = 13 \/ d = 14 \/ d = 15)
    by lia.
  repeat (destruct Hcases as [->|Hcases]; [repeat split; reflexivity|]).
  subst d. repeat split; reflexivity.
Qed.

Lemma dec_digit_scan (d : Z) :
  0 <= d < 10 ->
  Ascii.eqb (dec_digit d) "_" = false /\ digit_of (dec_digit d) = Some d /\
  is_space (dec_digit d) = false /\ Ascii.eqb (dec_digit d) "+" = false /\
  Ascii.eqb (dec_digit d) "-" = false /\ Ascii.eqb (dec_digit d) "x" = false.
Proof.
  intros Hd.
  assert (Hcases : d = 0 \/ d = 1 \/ d = 2 \/ d = 3 \/ d = 4 \/ d = 5 \/ d = 6 \/ d = 7 \/
                   d = 8 \/ d = 9) by lia.
  repeat (destruct Hcases as [->|Hcases]; [repeat split; reflexivity|]).
  subst d. repeat split; reflexivity.
Qed.

Lemma scan_digits_step (base d : Z) (c : ascii) (r : string) (acc : Z) (any : bool) :
  Ascii.eqb c "_" = false -> digit_of c = Some d -> d < base ->
  scan_digits base (String c r) acc any false = scan_digits base r (acc * base + d) true false.
Proof.
  intros Hu Hd Hlt. cbn [scan_digits]. rewrite Hu, Hd.
  by destruct (Z.ltb_spec d base); [|lia].
Qed.

Lemma scan_hex_digits (fuel : nat) :
  forall v acc any, 0 <= v < 16 ^ Z.of_nat (S fuel) ->
    scan_digits 16 (hex_digits fuel v acc) 0 any false = scan_digits 16 acc v true false.
Proof.
  induction fuel as [|fuel IH]; intros v acc any Hv.
  - change (16 ^ Z.of_nat 1) with 16 in Hv. cbn [hex_digits].
    rewrite Z.mod_small by lia.
    destruct (hex_digit_scan v Hv) as (Hu & Hd & _).
    by rewrite (scan_digits_step 16 v) by (done || lia).
  - cbn [hex_digits]. destruct (Z.ltb_spec v 16).
    + destruct (hex_digit_scan v ltac:(lia)) as (Hu & Hd & _).
      by rewrite (scan_digits_step 16 v) by (done || lia).
    + rewrite IH.
      * pose proof (Z.mod_pos_bound v 16 ltac:(lia)) as Hm.
        destruct (hex_digit_scan (v mod 16) Hm) as (Hu & Hd & _).
        rewrite (scan_digits_step 16 (v mod 16)) by (done || lia).
        f_equal. pose proof (Z.div_mod v 16 ltac:(lia)). lia.
      * rewrite Nat2Z.inj_succ, Z.pow_succ_r in Hv by lia.
        split; [apply Z.div_pos; lia|apply Z.div_lt_upper_bound; lia].
Qed.

Lemma scan_dec_digits (fuel : nat) :
  forall v acc any, 0 <= v < 10 ^ Z.of_nat (S fuel) ->
    scan_digits 10 (dec_digits fuel v acc) 0 any false = scan_digits 10 acc v true false.
Proof.
  induction fuel as [|fuel IH]; intros v acc any Hv.
  - change (10 ^ Z.of_nat 1) with 10 in Hv. cbn [dec_digits].
    rewrite Z.mod_small by lia.
    destruct (dec_digit_scan v Hv) as (Hu & Hd & _).
    by rewrite (scan_digits_step 10 v) by (done || lia).
  - cbn [dec_digits]. destruct (Z.ltb_spec v 10).
    + destruct (dec_digit_scan v ltac:(lia)) as (Hu & Hd & _).
      by rewrite (scan_digits_step 10 v) by (done || lia).
    + rewrite IH.
      * pose proof (Z.mod_pos_bound v 10 ltac:(lia)) as Hm.
        destruct (dec_digit_scan (v mod 10) Hm) as (Hu & Hd & _).
        rewrite (scan_digits_step 10 (v mod 10)) by (done || lia).
        f_equal. pose proof (Z.div_mod v 10 ltac:(lia)). lia.
      * rewrite Nat2Z.inj_succ, Z.pow_succ_r in Hv by lia.
        split; [apply Z.div_pos; lia|apply Z.div_lt_upper_bound; lia].
Qed.

Lemma hex_digits_head (fuel : nat) :
  forall v acc, 0 <= v -> exists d r, 0 <= d < 16 /\ hex_digits fuel v acc = String (hex_digit d) r.
Proof.
  induction fuel as [|fuel IH]; intros v acc Hv; cbn [hex_digits].
  - exists (v mod 16), acc. split; [apply Z.mod_pos_bound; lia|done].
  - destruct (Z.ltb_spec v 16).
    + exists v, acc. split; [lia|done].
    + apply IH. apply Z.div_pos; lia.
Qed.

Lemma dec_digits_head (fuel : nat) :
  forall v acc, 0 <= v -> exists d r, 0 <= d < 10 /\ dec_digits fuel v acc = String (dec_digit d) r.
Proof.
  induction fuel as [|fuel IH]; intros v acc Hv; cbn [dec_digits].
  - exists (v mod 10), acc. split; [apply Z.mod_pos_bound; lia|done].
  - destruct (Z.ltb_spec v 10).
    + exists v, acc. split; [lia|done].
    + apply IH. apply Z.div_pos; lia.
Qed.

Lemma pow16_log2 (v : Z) : 0 <= v -> v < 16 ^ Z.of_nat (S (Z.to_nat (Z.log2 v))).
Proof.
  intros Hv. pose proof (Z.log2_nonneg v).
  destruct (Z.eq_dec v 0) as [->|Hne]; [cbn; lia|].
  destruct (Z.log2_spec v ltac:(lia)) as [_ Hup].
  eapply Z.lt_le_trans; [exact Hup|].
  rewrite Nat2Z.inj_succ, Z2Nat.id by lia.
  apply Z.pow_le_mono_l. lia.
Qed.

(** The digits of a non-negative number, read back in their base. *)
Lemma int_of_digits (base v : Z) (s : string) (c : ascii) (r : string) :
  s = String c r -> is_space c = false -> Ascii.eqb c "+" = false ->
  Ascii.eqb c "-" = false -> Ascii.eqb c "_" = false ->
  (base = 10 \/ (base = 16 /\ Ascii.eqb c "0" = false)) ->
  scan_digits base s 0 false false = Some (v, true, EmptyString) ->
  int_of_str base s = Ret v.
Proof.
  intros -> Hsp Hplus Hminus Hus Hbase Hscan. unfold int_of_str.
  cbn [lstrip]. rewrite Hsp.
  assert (Hsign : (match String c r with
                   | String "+" r0 => (1, r0)
                   | String "-" r0 => (-1, r0)
                   | _ => (1, String c r)
                   end) = (1, String c r)).
  { destruct c as [[] [] [] [] [] [] [] []]; done. }
  rewrite Hsign.
  assert (Hpre : (if base =? 16
                  then match String c r with
                       | String "0" (String x r0) =>
                           if Ascii.eqb x "x" || Ascii.eqb x "X"
                           then match r0 with String "_" r' => r' | _ => r0 end
                           else String c r
                       | _ => String c r
                       end
                  else String c r) = String c r).
  { destruct Hbase as [->|[-> H0]]; [done|]. cbn.
    destruct c as [[] [] [] [] [] [] [] []]; done. }
  rewrite Hpre.
  assert (Hnu : forall (A : Type) (x y : A),
            match String c r with String "_" _ => x | _ => y end = y).
  { intros A x y. destruct c as [[] [] [] [] [] [] [] []]; done. }
  rewrite Hnu, Hscan. cbn [lstrip]. f_equal; lia.
Qed.

Lemma int_of_str_0x (c : ascii) (r : string) (v : Z) :
  Ascii.eqb c "_" = false ->
  scan_digits 16 (String c r) 0 false false = Some (v, true, EmptyString) ->
  int_of_str 16 (String "0" (String "x" (String c r))) = Ret v.
Proof.
  intros Hus Hscan. unfold int_of_str. cbn [lstrip].
  change (is_space "0") with false. cbv iota.
  change (16 =? 16) with true. cbv iota.
  change (Ascii.eqb "x" "x" || Ascii.eqb "x" "X") with true. cbv iota.
  assert (Hnu : forall (A : Type) (x : string -> A) (y : A),
            match String c r with String "_" r' => x r' | _ => y end = y).
  { intros A x y. destruct c as [[] [] [] [] [] [] [] []]; done. }
  rewrite (Hnu string (fun r' => r') (String c r)).
  rewrite (Hnu (outcome Z) (fun _ => Raise ValueError)).
  rewrite Hscan. cbn [lstrip]. f_equal; lia.
Qed.

(** X18.  [get_numeric_value] reads back what [hex] writes for a
    non-negative number. *)
Theorem get_numeric_value_reads_hex (v : Z) :
  0 <= v -> get_numeric_value (hex v) = Ret v.
Proof.
  intros Hv. unfold hex. destruct (Z.ltb_spec v 0); [lia|].
  unfold get_numeric_value. cbn [startswith_0x]. unfold hex_of_nonneg.
  destruct (hex_digits_head (Z.to_nat (Z.log2 v)) v EmptyString Hv) as (d & r & Hd & Hs).
  pose proof (scan_hex_digits (Z.to_nat (Z.log2 v)) v EmptyString false
                (conj Hv (pow16_log2 v Hv))) as Hscan.
  rewrite Hs in Hscan |- *.
  destruct (hex_digit_scan d Hd) as (Hu & _).
  by apply int_of_str_0x.
Qed.

Lemma get_numeric_value_reads_hex_witness :
  get_numeric_value (hex 48879) = Ret 48879.
Proof. apply (get_numeric_value_reads_hex 48879). lia. Defined.

Lemma int_of_negative_digits (c : ascii) (r : string) (v : Z) :
  Ascii.eqb c "_" = false ->
  scan_digits 10 (String c r) 0 false false = Some (v, true, EmptyString) ->
  int_of_str 10 (String "-" (String c r)) = Ret (- v).
Proof.
  intros Hus Hscan. unfold int_of_str. cbn [lstrip].
  change (is_space "-") with false. cbv iota.
  change (10 =? 16) with false. cbv iota.
  assert (Hnu : forall (A : Type) (x y : A),
            match String c r with String "_" _ => x | _ => y end = y).
  { intros A x y. destruct c as [[] [] [] [] [] [] [] []]; done. }
  rewrite Hnu, Hscan. cbn [lstrip]. f_equal; lia.
Qed.

Lemma int_of_str_decimal (v : Z) :
  0 <= v -> int_of_str 10 (str_of_nonneg v) = Ret v /\
            int_of_str 10 (String "-" (str_of_nonneg v)) = Ret (- v) /\
            startswith_0x (str_of_nonneg v) = false.
Proof.
  intros Hv. unfold str_of_nonneg.
  destruct (dec_digits_head (Z.to_nat (Z.log2 v)) v EmptyString Hv) as (d & r & Hd & Hs).
  pose proof (scan_dec_digits (Z.to_nat (Z.log2 v)) v EmptyString false
                (conj Hv (pow10_log2 v Hv))) as Hscan.
  destruct (dec_digit_scan d Hd) as (Hu & Hdig & Hsp & Hplus & Hminus & Hx).
  split; [|split].
  - eapply int_of_digits; eauto.
  - rewrite Hs in Hscan |- *. by apply int_of_negative_digits.
  - rewrite Hs. cbn [startswith_0x].
    destruct r as [|c2 r2].
    + by destruct (dec_digit d) as [[] [] [] [] [] [] [] []].
    + assert (Hc2 : Ascii.eqb c2 "x" = false).
      { rewrite Hs in Hscan.
        rewrite (scan_digits_step 10 d) in Hscan by (done || lia).
        destruct (Ascii.eqb_spec c2 "x") as [->|]; [|done].
        cbn in Hscan. discriminate. }
      destruct (dec_digit d) as [[] [] [] [] [] [] [] []]; try done.
      destruct c2 as [[] [] [] [] [] [] [] []]; done.
Qed.

(** X19.  [get_numeric_value] reads back what [str] writes, for negative
    numbers too. *)
Theorem get_numeric_value_reads_decimal (v : Z) :
  - 10 ^ 4300 < v < 10 ^ 4300 -> get_numeric_value (str v) = Ret v.
Proof.
  intros _. unfold str, get_numeric_value. destruct (Z.ltb_spec v 0).
  - cbn [startswith_0x].
    destruct (int_of_str_decimal (- v) ltac:(lia)) as (_ & -> & _). f_equal. lia.
  - destruct (int_of_str_decimal v ltac:(lia)) as (Hint & _ & ->). exact Hint.
Qed.

Lemma get_numeric_value_reads_decimal_witness :
  get_numeric_value (str (-65537)) = Ret (-65537).
Proof.
  apply (get_numeric_value_reads_decimal (-65537)).
  split; vm_compute; reflexivity.
Defined.

Lemma int_of_str_10_hex_prefix (sign : string) (x : ascii) (rest : string) :
  sign = EmptyString \/ sign = "-"%string \/ sign = "+"%string ->
  x = "x"%char \/ x = "X"%char ->
  int_of_str 10 (sign +:+ String "0" (String x rest)) = Raise ValueError.
Proof.
  intros [-> | [-> | ->]] [-> | ->]; reflexivity.
Qed.

(** X20.  Hexadecimal input is recognised by the lower-case prefix at
    the very start only: what [hex] writes for a negative number ([-0x...])
    and a number with the prefix [0X] raise [ValueError], being read in base
    10. *)
Theorem get_numeric_value_rejects_other_hex (v : Z) (rest : string) :
  (v < 0 -> get_numeric_value (hex v) = Raise ValueError) /\
  get_numeric_value (String "0" (String "X" rest)) = Raise ValueError.
Proof.
  split.
  - intros Hv. unfold hex. destruct (Z.ltb_spec v 0); [|lia].
    unfold get_numeric_value. cbn [startswith_0x].
    by apply (int_of_str_10_hex_prefix "-" "x"); [right; left|left].
  - unfold get_numeric_value. cbn [startswith_0x].
    by apply (int_of_str_10_hex_prefix "" "X"); [left|right].
Qed.

Lemma get_numeric_value_rejects_other_hex_witness :
  get_numeric_value (hex (-255)) = Raise ValueError.
Proof.
  destruct (get_numeric_value_rejects_other_hex (-255) EmptyString) as [Hneg _].
  apply Hneg. lia.
Defined.

End NumericValue.

(** ** lib/utils.py: what print_results logs *)

Section PrintResultsProperties.
Import Utils.
Context `{KeyFiles} `{FactorDB.RsaLibNum}.

Lemma lbind_outcome {A B : Type} (m : logged A) (f : A -> logged B) (a : A) :
  m.2 = Ret a -> (lbind m f).2 = (f a).2 /\ (lbind m f).1 = m.1 ++ (f a).1.
Proof. destruct m as [l o]. cbn. by intros ->. Qed.

Lemma lbind_returns_inv {A B : Type} (m : logged A) (f : A -> logged B) (b : B) :
  (lbind m f).2 = Ret b -> exists a, m.2 = Ret a /\ (f a).2 = Ret b.
Proof. destruct m as [l [a|e|]]; cbn; [by exists a|done..]. Qed.

Lemma elem_of_lbind {A B : Type} (m : logged A) (f : A -> logged B) (r : record) :
  r ∈ (lbind m f).1 <-> r ∈ m.1 \/ exists a, m.2 = Ret a /\ r ∈ (f a).1.
Proof.
  destruct m as [l [a|e|]]; cbn.
  - rewrite elem_of_app. split; [intros [?|?]; [by left|right; by exists a]|].
    intros [?|(a' & [= <-] & ?)]; [by left|by right].
  - split; [by left|]. by intros [?|(a' & [= ] & _)].
  - split; [by left|]. by intros [?|(a' & [= ] & _)].
Qed.

Lemma for_each_returns {A : Type} (l : list A) (body : A -> logged unit) :
  (forall x, x ∈ l -> (body x).2 = Ret tt) -> (for_each l body).2 = Ret tt.
Proof.
  induction l as [|x l IH]; intros Hb; [done|]. cbn [for_each].
  destruct (lbind_outcome (body x) (fun _ => for_each l body) tt (Hb x ltac:(left)))
    as [-> _].
  apply IH. intros y Hy. apply Hb. by right.
Qed.

Lemma for_each_returns_inv {A : Type} (l : list A) (body : A -> logged unit) :
  (for_each l body).2 = Ret tt -> forall x, x ∈ l -> (body x).2 = Ret tt.
Proof.
  induction l as [|x l IH]; intros Hr y Hy; [by apply not_elem_of_nil in Hy|].
  cbn [for_each] in Hr. apply lbind_returns_inv in Hr as ([] & Hx & Hrest).
  apply elem_of_cons in Hy as [->|Hy]; [done|by apply IH].
Qed.

Lemma elem_of_for_each {A : Type} (l : list A) (body : A -> logged unit) (r : record) :
  r ∈ (for_each l body).1 -> exists x, x ∈ l /\ r ∈ (body x).1.
Proof.
  induction l as [|x l IH]; cbn [for_each].
  - intros Hr. by apply not_elem_of_nil in Hr.
  - rewrite elem_of_lbind. intros [Hr|(_ & _ & Hr)].
    + exists x. split; [left|done].
    + destruct (IH Hr) as (y & Hy & Hry). exists y. split; [by right|done].
Qed.

Lemma for_each_const {A B : Type} (l1 : list A) (l2 : list B) (b : logged unit) :
  length l1 = length l2 -> for_each l1 (fun _ => b) = for_each l2 (fun _ => b).
Proof.
  revert l2. induction l1 as [|x l1 IH]; intros [|y l2] Hl; cbn in Hl; try done.
  cbn [for_each]. by rewrite (IH l2) by lia.
Qed.

(** Records of the level [INFO] only. *)
Lemma info_level (m : message) (r : record) : r ∈ (info m).1 -> r.1 = INFO.
Proof. cbn. by intros ->%list_elem_of_singleton. Qed.

Lemma log_attribute_level (name : string) (v : option Z) (r : record) :
  r ∈ (log_attribute name v).1 -> r.1 = INFO.
Proof.
  destruct v; cbn; [by intros ->%list_elem_of_singleton|].
  intros Hr. by apply not_elem_of_nil in Hr.
Qed.

Lemma log_crt_parameters_level (k : private_key) (r : record) :
  r ∈ (log_crt_parameters k).1 -> r.1 = INFO.
Proof.
  unfold log_crt_parameters, mbind, logged_bind, call.
  destruct (reduced (priv_d k) (priv_p k)) as [dp|e|]; cbn; [|by intros ?%not_elem_of_nil..].
  destruct (reduced (priv_d k) (priv_q k)) as [dq|e|]; cbn; [|by intros ?%not_elem_of_nil..].
  destruct (priv_p k) as [p|], (priv_q k) as [q|]; cbn; [|by intros ?%not_elem_of_nil..].
  destruct (FactorDB.invmod p q) as [pinv|e|]; cbn; [|by intros ?%not_elem_of_nil..].
  destruct (FactorDB.invmod q p) as [qinv|e|]; cbn; [|by intros ?%not_elem_of_nil..].
  rewrite !elem_of_cons. intros [->|[->|[->|[->|?%not_elem_of_nil]]]]; done.
Qed.

Lemma dump_key_level (args : arguments) (entry : option private_key) (r : record) :
  r ∈ (dump_key args entry).1 -> r.1 = INFO.
Proof.
  destruct entry as [k|]; [|by intros ?%not_elem_of_nil].
  unfold dump_key, mbind, logged_bind.
  repeat (rewrite elem_of_lbind; intros [?%log_attribute_level|(_ & _ & Hr)]; [done|revert Hr]).
  destruct (ext args); [apply log_crt_parameters_level|by intros ?%not_elem_of_nil].
Qed.

Lemma dump_public_key_level (publickey : option string) (r : record) :
  r ∈ (dump_public_key publickey).1 -> r.1 = INFO.
Proof.
  destruct publickey as [name|]; [|by intros ?%not_elem_of_nil].
  unfold dump_public_key, mbind, logged_bind, call.
  destruct (load_public_key name) as [[[filename n] e]|e|]; cbn;
    [|by intros ?%not_elem_of_nil..].
  rewrite !elem_of_cons. intros [->|[->|[->|?%not_elem_of_nil]]]; done.
Qed.

Lemma lbind_returns {B : Type} (m : logged unit) (f : unit -> logged B) (b : B) :
  m.2 = Ret tt -> (f tt).2 = Ret b -> (lbind m f).2 = Ret b.
Proof. destruct m as [l o]. cbn. by intros ->. Qed.

(** X21.  Without [args.dumpkey], [print_results] returns normally for
    every input: all that can raise (reading the attributes of a key, the
    CRT parameters, opening the key file) sits under that option. *)
Theorem print_results_returns_without_dumpkey (args : arguments)
    (publickey : option string) (private_key : private_arg) (uncipher : uncipher_arg) :
  dumpkey args = false ->
  (print_results args publickey private_key uncipher).2 = Ret tt.
Proof.
  intros Hdk. unfold print_results, mbind, logged_bind. rewrite Hdk.
  apply lbind_returns.
  { destruct (_ || _); [|done]. by destruct publickey. }
  apply lbind_returns.
  { destruct private_key as [|k|l]; [done| |].
    - apply lbind_returns; [|done]. by destruct (private args).
    - apply lbind_returns; [|done]. destruct (private args); [|done].
      apply lbind_returns; [done|]. apply for_each_returns. by intros [k|] _. }
  apply lbind_returns; [done|].
  destruct (Utils.uncipher args); [|done].
  destruct uncipher as [|d|l]; [done|done|].
  case_bool_decide; [|done]. apply lbind_returns; [done|]. by apply for_each_returns.
Qed.

(** X22.  "Sorry, cracking failed." is logged exactly when [private_key]
    is [None], whatever was asked for (also when only a plaintext was asked
    for and was found); and when [print_results] returns, "Sorry, unciphering
    failed." is logged exactly when [args.uncipher] is set and [uncipher] is
    [None]. *)
Theorem print_results_failure_reports (args : arguments)
    (publickey : option string) (private_key : private_arg) (uncipher : uncipher_arg) :
  let run := print_results args publickey private_key uncipher in
  (cracking_failed ∈ run.1 <-> private_key = NoKey) /\
  (run.2 = Ret tt ->
   (unciphering_failed ∈ run.1 <-> Utils.uncipher args = true /\ uncipher = NoData)).
Proof.
  cbv zeta. unfold print_results, mbind, logged_bind.
  set (header := if _ || _ || _ then _ else lret tt).
  set (keys := match private_key with NoKey => critical _ | _ => _ end).
  set (files := if dumpkey args then _ else lret tt).
  set (data := if Utils.uncipher args then _ else lret tt).
  assert (Hheader : header.2 = Ret tt /\ forall r, r ∈ header.1 -> r.1 = INFO).
  { subst header. destruct (_ || _ || _); [|split; [done|by intros r ?%not_elem_of_nil]].
    destruct publickey; (split; [done|]); [apply info_level|by intros r ?%not_elem_of_nil]. }
  destruct Hheader as [Hh Hhl].
  assert (Hkeys : match private_key with
                  | NoKey => keys = ([cracking_failed], Ret tt)
                  | _ => forall r, r ∈ keys.1 -> r.1 = INFO
                  end).
  { subst keys. destruct private_key as [|k|l]; [done| |]; intros r;
      rewrite elem_of_lbind; (intros [Hr|(_ & _ & Hr)];
        [destruct (private args); [|by apply not_elem_of_nil in Hr];
         apply elem_of_lbind in Hr as [Hr|(_ & _ & Hr)]; [by apply info_level in Hr|];
         apply elem_of_for_each in Hr as ([k'|] & _ & Hr);
           [by apply info_level in Hr|by apply not_elem_of_nil in Hr]
        |destruct (dumpkey args); [|by apply not_elem_of_nil in Hr];
         apply elem_of_for_each in Hr as (e & _ & Hr); by apply dump_key_level in Hr]). }
  assert (Hfiles : forall r, r ∈ files.1 -> r.1 = INFO).
  { subst files. intros r Hr. destruct (dumpkey args); [|by apply not_elem_of_nil in Hr].
    destruct (Utils.publickey args); [|by apply not_elem_of_nil in Hr].
    apply elem_of_for_each in Hr as (e & _ & Hr). by apply dump_public_key_level in Hr. }
  assert (Hdata : data.2 = Ret tt /\
            (cracking_failed ∉ data.1) /\
            (unciphering_failed ∈ data.1 <-> Utils.uncipher args = true /\ uncipher = NoData)).
  { subst data. destruct (Utils.uncipher args).
    2:{ split; [done|]. split; [by intros ?%not_elem_of_nil|].
        split; [by intros ?%not_elem_of_nil|by intros [? _]]. }
    assert (Hlist : forall l : list (option bytes),
              let d := lbind (info (Text (newline +:+ "Unciphered data :")))
                         (fun _ => for_each l (fun uncipher_ => info (DataObject uncipher_))) in
              d.2 = Ret tt /\ forall r, r ∈ d.1 -> r.1 = INFO).
    { intros l. cbv zeta. split.
      - apply lbind_returns; [done|]. by apply for_each_returns.
      - intros r. rewrite elem_of_lbind. intros [Hr|(_ & _ & Hr)]; [by apply info_level in Hr|].
        apply elem_of_for_each in Hr as (e & _ & Hr). by apply info_level in Hr. }
    destruct uncipher as [|d|l].
    - split; [done|]. split; [|split; [done|]].
      + cbn. by intros [= ]%list_elem_of_singleton.
      + intros _. cbn. by apply list_elem_of_singleton.
    - cbn [length]. rewrite bool_decide_true by lia.
      destruct (Hlist [Some d]) as [Hr Hl]. split; [done|].
      split; [by intros ?%Hl|]. split; [by intros ?%Hl|by intros [_ ?]].
    - case_bool_decide.
      + destruct (Hlist l) as [Hr Hl]. split; [done|].
        split; [by intros ?%Hl|]. split; [by intros ?%Hl|by intros [_ ?]].
      + split; [done|]. split; [by intros ?%not_elem_of_nil|].
        split; [by intros ?%not_elem_of_nil|by intros [_ ?]]. }
  destruct Hdata as (Hd & Hdc & Hdu).
  split.
  - rewrite elem_of_lbind. split.
    + intros [Hr|(_ & _ & Hr)]; [by apply Hhl in Hr|].
      apply elem_of_lbind in Hr as [Hr|(_ & _ & Hr)].
      * destruct private_key; [done|by apply Hkeys in Hr..].
      * apply elem_of_lbind in Hr as [Hr|(_ & _ & Hr)]; [by apply Hfiles in Hr|done].
    + intros ->. right. exists tt. split; [done|]. rewrite Hkeys.
      apply elem_of_lbind. left. by apply list_elem_of_singleton.
  - intros Hret.
    apply lbind_returns_inv in Hret as ([] & _ & Hret).
    apply lbind_returns_inv in Hret as ([] & Hk & Hret).
    apply lbind_returns_inv in Hret as ([] & Hf & _).
    rewrite <- Hdu. rewrite elem_of_lbind. split.
    + intros [Hr|(_ & _ & Hr)]; [by apply Hhl in Hr|].
      apply elem_of_lbind in Hr as [Hr|(_ & _ & Hr)].
      * destruct private_key; [|by apply Hkeys in Hr..]. rewrite Hkeys in Hr.
        by apply list_elem_of_singleton in Hr.
      * apply elem_of_lbind in Hr as [Hr|(_ & _ & Hr)]; [by apply Hfiles in Hr|done].
    + intros Hr. right. exists tt. split; [done|].
      apply elem_of_lbind. right. exists tt. split; [done|].
      apply elem_of_lbind. right. by exists tt.
Qed.

(** X23.  The loop [for public_key in args.publickey] never uses its
    variable: it opens [publickey], the function's argument, once per entry.
    What [print_results] logs and returns depends on the entries of
    [args.publickey] through their number only. *)
Theorem print_results_ignores_key_files (private_ dumpkey_ uncipher_ ext_ : bool)
    (files files' : list string)
    (publickey : option string) (private_key : private_arg) (uncipher : uncipher_arg) :
  length files = length files' ->
  print_results (mkArgs private_ dumpkey_ uncipher_ ext_ (Some files))
    publickey private_key uncipher
  = print_results (mkArgs private_ dumpkey_ uncipher_ ext_ (Some files'))
      publickey private_key uncipher.
Proof.
  intros Hlen. unfold print_results, dump_key.
  cbn [private dumpkey Utils.uncipher ext Utils.publickey].
  by rewrite (for_each_const files files' (dump_public_key publickey) Hlen).
Qed.

(** X24.  With [args.dumpkey], a [None] entry in the list of private keys
    makes [print_results] raise (the listing under [args.private] skips such
    entries, the dump reads their attributes): it never returns. *)
Theorem print_results_dumpkey_none_entry (args : arguments)
    (publickey : option string) (l : list (option private_key)) (uncipher : uncipher_arg) :
  dumpkey args = true -> None ∈ l ->
  (print_results args publickey (SomeKeys l) uncipher).2 <> Ret tt.
Proof.
  intros Hdk Hin Hret. unfold print_results, mbind, logged_bind in Hret.
  rewrite Hdk in Hret.
  apply lbind_returns_inv in Hret as ([] & _ & Hret).
  apply lbind_returns_inv in Hret as ([] & Hk & _).
  apply lbind_returns_inv in Hk as ([] & _ & Hk).
  by pose proof (for_each_returns_inv l (dump_key args) Hk None Hin).
Qed.

End PrintResultsProperties.

Lemma print_results_returns_without_dumpkey_witness :
  (@Utils.print_results quiet_files toy_rsalibnum
     (Utils.mkArgs true false true true None) (Some "key.pub"%string)
     (Utils.SomeKeys [None; Some (Utils.mkPrivateKey (Some 15) None None None None)])
     (Utils.SomeData [None])).2 = Ret tt.
Proof. by apply (@print_results_returns_without_dumpkey quiet_files toy_rsalibnum). Defined.


Lemma print_results_ignores_key_files_witness :
  @Utils.print_results quiet_files toy_rsalibnum
    (Utils.mkArgs false true false false (Some ["a.pub"; "b.pub"]%string))
    (Some "c.pub"%string) Utils.NoKey Utils.NoData
  = @Utils.print_results quiet_files toy_rsalibnum
      (Utils.mkArgs false true false false (Some ["x"; "y"]%string))
      (Some "c.pub"%string) Utils.NoKey Utils.NoData.
Proof.
  by apply (@print_results_ignores_key_files quiet_files toy_rsalibnum).
Defined.

Lemma print_results_dumpkey_none_entry_witness :
  (@Utils.print_results quiet_files toy_rsalibnum
     (Utils.mkArgs true true false false None) None
     (Utils.SomeKeys [Some (Utils.mkPrivateKey (Some 15) (Some 3) None None None); None])
     Utils.NoData).2 = Raise OtherError /\
  (@Utils.print_results quiet_files toy_rsalibnum
     (Utils.mkArgs true true false false None) None
     (Utils.SomeKeys [Some (Utils.mkPrivateKey (Some 15) (Some 3) None None None); None])
     Utils.NoData).2 <> Ret tt.
Proof.
  split; [reflexivity|].
  apply (@print_results_dumpkey_none_entry quiet_files toy_rsalibnum).
  - reflexivity.
  - right. left.
Defined.

(** ** What the factor-database attack returns *)

Section FactorDBResults.
Context `{KeysWrapper} `{FactorDB.Web} `{FactorDB.RsaLibNum}.

Lemma kbind_Ret_inv {A B : Type} (m : keyed A) (f : A -> keyed B)
    (k k' : PublicKey) (b : B) :
  kbind m f k = (k', Ret b) -> exists k1 a, m k = (k1, Ret a) /\ f a k1 = (k', Ret b).
Proof. unfold kbind. destruct (m k) as [k1 [a|e|]]; [by exists k1, a|done..]. Qed.

Lemma try_except_Ret_inv {A : Type} (body handler : keyed A) (handled : exn -> bool)
    (k k' : PublicKey) (a : A) :
  try_except body handled handler k = (k', Ret a) ->
  body k = (k', Ret a) \/
  exists k1 e, body k = (k1, Raise e) /\ handled e = true /\ handler k1 = (k', Ret a).
Proof.
  unfold try_except. destruct (body k) as [k1 [x|e|]]; [by left| |done].
  destruct (handled e) eqn:He; [|done]. right. by exists k1, e.
Qed.

(** X26.  The factor-database attack returns a private key in two ways
    only: built from [(e, n, d)] with [d = invmod(e, n - 1)] when the first
    page lists exactly two ids and one prime mark, the key being left as it
    was; or built from the factors it has stored in [p] and [q], which are
    not both equal to [n].  It never returns a plaintext. *)
Theorem factordb_attack_results (publickey publickey' : PublicKey)
    (priv_key : PrivateKey) (text : option bytes) :
  FactorDB.attack publickey = (publickey', Ret (Some priv_key, text)) ->
  text = None /\
  ((publickey' = publickey /\
    exists page d,
      FactorDB.query (pk_n publickey) = Ret page /\
      length (FactorDB.page_ids page) = 2%nat /\
      length (FactorDB.page_prime page) = 1%nat /\
      FactorDB.invmod (pk_e publickey) (pk_n publickey - 1) = Ret d /\
      PrivateKey_end (pk_e publickey) (pk_n publickey) d = Ret priv_key) \/
   (exists p q,
      pk_p publickey' = Some p /\ pk_q publickey' = Some q /\
      ~ (p = q /\ q = pk_n publickey) /\
      PrivateKey_pqen p q (pk_e publickey) (pk_n publickey) = Ret priv_key)).
Proof.
  unfold FactorDB.attack. intros Hrun.
  apply try_except_Ret_inv in Hrun as [Hrun|(k1 & e & _ & _ & [= ])].
  unfold mbind, keyed_bind in Hrun.
  apply kbind_Ret_inv in Hrun as (k1 & pk & [= <- <-] & Hrun).
  apply kbind_Ret_inv in Hrun as (k1 & page & Hq & Hrun).
  unfold lift in Hq. injection Hq as <- Hq.
  apply kbind_Ret_inv in Hrun as (k1 & early & Hearly & Hrun).
  assert (Hcases :
    (k1 = publickey /\ early = None) \/
    (k1 = publickey /\ exists d k,
       length (FactorDB.page_ids page) = 2%nat /\
       length (FactorDB.page_prime page) = 1%nat /\
       FactorDB.invmod (pk_e publickey) (pk_n publickey - 1) = Ret d /\
       PrivateKey_end (pk_e publickey) (pk_n publickey) d = Ret k /\
       early = Some (Some k, None))).
  { destruct (bool_decide (length (FactorDB.page_ids page) = 2%nat)) eqn:Hids;
      [|injection Hearly as <- <-; by left].
    destruct (bool_decide (length (FactorDB.page_prime page) = 1%nat)) eqn:Hpr;
      [|injection Hearly as <- <-; by left].
    apply bool_decide_eq_true in Hids, Hpr.
    apply kbind_Ret_inv in Hearly as (k2 & d & Hd & Hearly).
    unfold lift in Hd. injection Hd as <- Hd.
    apply kbind_Ret_inv in Hearly as (k2 & k & Hk & Hearly).
    unfold lift in Hk. injection Hk as <- Hk.
    injection Hearly as <- <-. right. split; [done|]. by exists d, k. }
  destruct Hcases as [[-> ->]|(-> & d & k & Hids & Hpr & Hd & Hk & ->)].
  - apply kbind_Ret_inv in Hrun as (k1 & fetched & Hfetch & Hrun).
    assert (Hkeep : pk_n k1 = pk_n publickey /\ pk_e k1 = pk_e publickey).
    { eapply (keeps_try _ _ _ (keeps_bind _ _ (factordb_fetch_keeps (FactorDB.page_ids page))
                                 (fun _ => keeps_ret true)) (keeps_ret false)).
      exact Hfetch. }
    destruct Hkeep as [Hn He].
    destruct fetched; [|by injection Hrun].
    apply kbind_Ret_inv in Hrun as (k2 & pk & [= <- <-] & Hrun).
    destruct (pk_p k1) as [p|] eqn:Hp; [|by injection Hrun].
    destruct (pk_q k1) as [q|] eqn:Hq'; [|by injection Hrun].
    destruct ((p =? q) && (q =? pk_n k1)) eqn:Hsame; [by injection Hrun|].
    apply kbind_Ret_inv in Hrun as (k2 & k & Hk & Hrun).
    unfold lift in Hk. injection Hk as <- Hk. injection Hrun as <- <- <-.
    split; [done|]. right. exists p, q. split; [done|]. split; [done|]. split.
    + intros [-> ->]. rewrite <- Hn, !Z.eqb_refl in Hsame. done.
    + by rewrite <- Hn, <- He.
  - injection Hrun as <- <- <-. split; [done|]. left. split; [done|].
    by exists page, d.
Qed.

End FactorDBResults.

Lemma factordb_attack_results_witness :
  exists p q,
    pk_p (mkPublicKey 21 5 (Some 3) (Some 7)) = Some p /\
    pk_q (mkPublicKey 21 5 (Some 3) (Some 7)) = Some q /\
    ~ (p = q /\ q = pk_n (key 21 5)) /\
    @PrivateKey_pqen toy_keys p q (pk_e (key 21 5)) (pk_n (key 21 5)) = Ret (3, 7, 5, 21).
Proof.
  destruct (@factordb_attack_results toy_keys factoring_web toy_rsalibnum
              (key 21 5) (mkPublicKey 21 5 (Some 3) (Some 7)) (3, 7, 5, 21) None)
    as [_ [[Hsame _]|Hpq]].
  - vm_compute. reflexivity.
  - discriminate Hsame.
  - exact Hpq.
Defined.

(** ** Termination of mul_inv; the diagnostics *)

Section MulInvTotal.
Import Hastads.

Lemma mul_inv_loop_total (fuel : nat) :
  forall a b x0 x1,
    (0 <= b -> (Z.to_nat b < fuel)%nat) -> (b < 0 -> (2 <= fuel)%nat) ->
    (exists r, mul_inv_loop fuel a b x0 x1 = Ret r) \/
    mul_inv_loop fuel a b x0 x1 = Raise ZeroDivisionError.
Proof.
  induction fuel as [|fuel IH]; intros a b x0 x1 Hpos Hneg.
  - destruct (Z.le_gt_cases 0 b) as [Hb|Hb]; [specialize (Hpos Hb)|specialize (Hneg Hb)]; lia.
  - cbn [mul_inv_loop]. destruct (Z.ltb_spec 1 a) as [Ha|Ha]; [|left; by eexists].
    unfold floordiv, pymod. destruct (Z.eqb_spec b 0) as [->|Hb0]; [by right|].
    cbn [mbind outcome_bind bind].
    destruct (Z.le_gt_cases 0 b) as [Hb|Hb].
    + pose proof (Z.mod_pos_bound a b ltac:(lia)) as Hm.
      apply IH; [|lia]. intros _. specialize (Hpos Hb). lia.
    + left. destruct fuel as [|fuel]; cbn [mul_inv_loop];
        (destruct (Z.ltb_spec 1 b); [lia|by eexists]).
Qed.

(** X27.  [mul_inv] terminates on all integers: the loop [while a > 1]
    always exits, with a value or, when it comes to divide by zero, with
    [ZeroDivisionError]; nothing else is raised. *)
Theorem mul_inv_terminates (a b : Z) :
  (exists r, mul_inv a b = Ret r) \/ mul_inv a b = Raise ZeroDivisionError.
Proof.
  unfold mul_inv. destruct (b =? 1); [left; by eexists|].
  destruct (mul_inv_loop_total (S (S (Z.to_nat b))) a b 0 1) as [[r ->]| ->];
    [lia|lia|left; by eexists|by right].
Qed.

End MulInvTotal.

Section Diagnostics.
Import BonehDurfee.

(** X28.  The two diagnostics of the lattice, [helpful_vectors] and
    [matrix_overview], read entries inside the matrix only when it is square:
    on every square matrix they return without raising. *)
Theorem diagnostics_return_on_square (BB : matrix) (bound : Z) :
  is_square BB = true ->
  helpful_vectors BB bound = Ret tt /\ matrix_overview BB bound = Ret tt.
Proof.
  intros Hsq. split; [by apply helpful_vectors_square|by apply matrix_overview_square].
Qed.

Lemma diagnostics_return_on_square_witness :
  helpful_vectors example_lattice 10 = Ret tt /\ matrix_overview example_lattice 10 = Ret tt.
Proof. apply (diagnostics_return_on_square example_lattice 10). reflexivity. Defined.

End Diagnostics.
